(** * Scroll engine: grids, primitive operations, scoring and beam search

    A shallow embedding of [modules/scroll_core.py] and
    [modules/patcher_nova.py].

    Conventions of the embedding.
    - A NumPy 2-D integer array is a record carrying its shape and its rows;
      the shape is kept apart from the rows because an array may have zero
      rows and a positive width (the transpose of a [(2, 0)] array).  The
      cells of an array are signed 64-bit integers, NumPy's default integer:
      a Python integer outside that range makes [np.array] and the masked
      assignment of REMAP raise [OverflowError] ([int64_ok]).
    - A Python integer is a mathematical integer, a Python string is a
      string of ASCII characters.
    - A Python [dict] is an association list in insertion order; [==] on
      dicts is [dict_eqb], which ignores the order.
    - A Python exception is the [Raise] branch of [result]; the messages of
      the exceptions raised by the interpreter and by NumPy are those of
      Python 3.10 and NumPy 2.
    - A Python [float] score is idealised as an exact rational.  The
      rounding of the floating-point operations is not modelled: two scores
      that are equal as rationals may differ in the last place as floats.
      The statements on [score_prog] and [sort_desc] are statements about
      the rational scores; the statements on [search] and
      [synthesize_scroll] do not depend on which of two candidates scores
      higher. *)

From Stdlib Require Import String Ascii DecimalString.
From Stdlib Require Import ZArith QArith Lqa Bool Lia Permutation Sorted OrderedTypeEx List.
Import ListNotations.

Local Open Scope Z_scope.

(** ** Exceptions and the error monad *)

Inductive exn : Type :=
| ValueError (msg : string)
| TypeError (msg : string)
| KeyError (key : string)
| IndexError (msg : string)
| AttributeError (msg : string)
| OverflowError (msg : string).

Inductive result (A : Type) : Type :=
| Ok (a : A)
| Raise (e : exn).

Arguments Ok {A} a.
Arguments Raise {A} e.

Definition bind {A B : Type} (c : result A) (k : A -> result B) : result B :=
  match c with
  | Ok a => k a
  | Raise e => Raise e
  end.

Notation "x <- c ;; k" := (bind c (fun x => k))
  (at level 61, c at next level, right associativity).

Definition raises {A : Type} (c : result A) : Prop := exists e, c = Raise e.
Definition returns {A : Type} (c : result A) : Prop := exists a, c = Ok a.

Fixpoint mapM {A B : Type} (f : A -> result B) (l : list A) : result (list B) :=
  match l with
  | [] => Ok []
  | a :: l' => b <- f a ;; bs <- mapM f l' ;; Ok (b :: bs)
  end.

(** ** Python values that occur in a scroll step *)

Inductive pyval : Type :=
| PyInt (z : Z)
| PyStr (s : string)
| PyDict (d : list (Z * Z)).

(** A [dict] with string keys, in insertion order. *)
Definition pydict : Type := list (string * pyval).

Fixpoint dict_get {V : Type} (d : list (string * V)) (k : string) : option V :=
  match d with
  | [] => None
  | (k', v) :: d' => if String.eqb k' k then Some v else dict_get d' k
  end.

Fixpoint assoc (m : list (Z * Z)) (a : Z) : option Z :=
  match m with
  | [] => None
  | (a', b) :: m' => if a' =? a then Some b else assoc m' a
  end.

(** [d[k] = v] on an integer-keyed dict: an existing key keeps its place. *)
Fixpoint dict_set (d : list (Z * Z)) (k v : Z) : list (Z * Z) :=
  match d with
  | [] => [(k, v)]
  | (k', v') :: d' => if k' =? k then (k', v) :: d' else (k', v') :: dict_set d' k v
  end.

Definition dict_of_items (items : list (Z * Z)) : list (Z * Z) :=
  fold_left (fun d kv => dict_set d (fst kv) (snd kv)) items [].

(** [str(z)] and [repr] of an integer dict. *)
Definition str_of_Z (z : Z) : string := NilZero.string_of_int (Z.to_int z).

Definition repr_item (kv : Z * Z) : string :=
  (str_of_Z (fst kv) ++ ": " ++ str_of_Z (snd kv))%string.

Definition repr_dict (d : list (Z * Z)) : string :=
  ("{" ++ String.concat ", " (map repr_item d) ++ "}")%string.

(** [str(v)], as an f-string renders a value; [None] stands for the result
    of [dict.get] on a missing key. *)
Definition py_str (o : option pyval) : string :=
  match o with
  | None => "None"
  | Some (PyInt z) => str_of_Z z
  | Some (PyStr s) => s
  | Some (PyDict d) => repr_dict d
  end.

(** [repr] of a string: single quotes, unless the string holds a single
    quote and no double quote; the quote in use and the backslash are
    escaped, and so are the characters that are not printable. *)
Definition dquote : ascii := ascii_of_nat 34.
Definition squote : ascii := ascii_of_nat 39.
Definition backslash : ascii := ascii_of_nat 92.

Definition hex_digit (n : nat) : ascii :=
  nth n (list_ascii_of_string "0123456789abcdef") "0"%char.

Definition repr_char (q c : ascii) : string :=
  let n := nat_of_ascii c in
  if Ascii.eqb c backslash then String backslash (String backslash "")
  else if Ascii.eqb c q then String backslash (String q "")
  else if Nat.eqb n 10 then String backslash "n"
  else if Nat.eqb n 13 then String backslash "r"
  else if Nat.eqb n 9 then String backslash "t"
  else if Nat.ltb n 32 || Nat.leb 127 n
  then String backslash
         (String "x" (String (hex_digit (n / 16)) (String (hex_digit (n mod 16)) "")))
  else String c "".

Definition repr_str (s : string) : string :=
  let cs := list_ascii_of_string s in
  let q := if existsb (Ascii.eqb squote) cs && negb (existsb (Ascii.eqb dquote) cs)
           then dquote else squote in
  (String q (String.concat "" (map (repr_char q) cs)) ++ String q "")%string.

(** [int(s)] on a string: white space is stripped at both ends, then comes
    an optional sign and a run of decimal digits, in which single underscores
    may separate digits. *)
Definition is_space (c : ascii) : bool :=
  let n := nat_of_ascii c in
  (Nat.leb 9 n && Nat.leb n 13) || (Nat.leb 28 n && Nat.leb n 32).

Fixpoint lstrip (l : list ascii) : list ascii :=
  match l with
  | c :: l' => if is_space c then lstrip l' else l
  | [] => []
  end.

Definition strip (l : list ascii) : list ascii := rev (lstrip (rev (lstrip l))).

Definition digit_of (c : ascii) : option Z :=
  let n := nat_of_ascii c in
  if Nat.leb 48 n && Nat.leb n 57 then Some (Z.of_nat (n - 48)) else None.

(** [after_digit] tells whether the character before was a digit. *)
Fixpoint parse_digits (acc : Z) (after_digit : bool) (l : list ascii) : option Z :=
  match l with
  | [] => if after_digit then Some acc else None
  | c :: l' =>
      match digit_of c with
      | Some d => parse_digits (10 * acc + d) true l'
      | None =>
          if Ascii.eqb c "_" && after_digit then parse_digits acc false l' else None
      end
  end.

Definition int_of_str (s : string) : option Z :=
  match strip (list_ascii_of_string s) with
  | "-"%char :: l => option_map Z.opp (parse_digits 0 false l)
  | "+"%char :: l => parse_digits 0 false l
  | l => parse_digits 0 false l
  end.

(** [int(v)].  The parameters of a step are integers (see [wt_step]); a
    string is parsed, a dict is refused. *)
Definition py_int (v : pyval) : result Z :=
  match v with
  | PyInt z => Ok z
  | PyStr s =>
      match int_of_str s with
      | Some z => Ok z
      | None =>
          Raise (ValueError ("invalid literal for int() with base 10: " ++ repr_str s))
      end
  | PyDict _ =>
      Raise (TypeError
        "int() argument must be a string, a bytes-like object or a real number, not 'dict'")
  end.

(** ** NumPy arrays of dimension two *)

Record ndarray : Type := mk_ndarray {
  shape0 : nat;
  shape1 : nat;
  rows : list (list Z)
}.

Definition wf_array (a : ndarray) : Prop :=
  length (rows a) = shape0 a /\ Forall (fun r => length r = shape1 a) (rows a).

Definition shape_eqb (a b : ndarray) : bool :=
  Nat.eqb (shape0 a) (shape0 b) && Nat.eqb (shape1 a) (shape1 b).

Fixpoint list_eqb {A : Type} (eqb : A -> A -> bool) (l1 l2 : list A) : bool :=
  match l1, l2 with
  | [], [] => true
  | x :: l1', y :: l2' => eqb x y && list_eqb eqb l1' l2'
  | _, _ => false
  end.

(** [np.all(a == b)] for two arrays of one shape, and [np.array_equal]. *)
Definition cells_eqb (a b : ndarray) : bool :=
  list_eqb (list_eqb Z.eqb) (rows a) (rows b).

Definition array_equal (a b : ndarray) : bool := shape_eqb a b && cells_eqb a b.

(** The range of a cell: a signed 64-bit integer. *)
Definition int64_ok (z : Z) : bool := (- 2 ^ 63 <=? z) && (z <? 2 ^ 63).

Definition overflow : exn := OverflowError "Python int too large to convert to C long".

Definition inhomogeneous (n : nat) : exn :=
  ValueError
    ("setting an array element with a sequence. The requested array has an "
     ++ "inhomogeneous shape after 1 dimensions. The detected shape was ("
     ++ str_of_Z (Z.of_nat n) ++ ",) + inhomogeneous part.").

(** [np.array(lst, dtype=int)] followed by the [ndim] test of [from_list]:
    an empty outer list has one dimension; NumPy finds the shape first and
    rejects ragged rows, then converts the cells and rejects an integer that
    does not fit 64 bits. *)
Definition np_array (lst : list (list Z)) : result ndarray :=
  match lst with
  | [] => Raise (ValueError "Input must be a 2D list")
  | r :: _ =>
      if forallb (fun r' => Nat.eqb (length r') (length r)) lst
      then
        if forallb (forallb int64_ok) lst
        then Ok (mk_ndarray (length lst) (length r) lst)
        else Raise overflow
      else Raise (inhomogeneous (length lst))
  end.

Definition np_flip (a : ndarray) (axis : Z) : ndarray :=
  if axis =? 0 then mk_ndarray (shape0 a) (shape1 a) (rev (rows a))
  else mk_ndarray (shape0 a) (shape1 a) (map (@rev Z) (rows a)).

Definition column (rs : list (list Z)) (j : nat) : list Z :=
  map (fun r => nth j r 0) rs.

Definition np_transpose (a : ndarray) : ndarray :=
  mk_ndarray (shape1 a) (shape0 a) (map (column (rows a)) (seq 0 (shape1 a))).

(** [np.rot90(m, k)]: NumPy reduces [k] modulo four and composes flips and a
    transpose. *)
Definition np_rot90 (a : ndarray) (k : Z) : ndarray :=
  let k := k mod 4 in
  if k =? 0 then a
  else if k =? 2 then np_flip (np_flip a 0) 1
  else if k =? 1 then np_transpose (np_flip a 1)
  else np_flip (np_transpose a) 1.

Definition flatten (a : ndarray) : list Z := concat (rows a).

(** ** [scroll_core]: grids and primitive operations *)

Record Grid : Type := mk_Grid {
  data : ndarray;
  log : list string
}.

Definition from_list (lst : list (list Z)) : result Grid :=
  arr <- np_array lst ;; Ok (mk_Grid arr []).

Definition to_list (g : Grid) : list (list Z) := rows (data g).

Definition op_ROT90 (g : Grid) (k : Z) : Grid :=
  let k := (k mod 4 + 4) mod 4 in
  mk_Grid (np_rot90 (data g) k) (log g ++ [("ROT90(" ++ str_of_Z k ++ ")")%string]).

Definition op_FLIP (g : Grid) (axis : Z) : result Grid :=
  if negb ((axis =? 0) || (axis =? 1))
  then Raise (ValueError "axis must be 0 or 1")
  else Ok (mk_Grid (np_flip (data g) axis)
                   (log g ++ [("FLIP(" ++ str_of_Z axis ++ ")")%string])).

Definition op_TRANSPOSE (g : Grid) : Grid :=
  mk_Grid (np_transpose (data g)) (log g ++ ["TRANSPOSE"%string]).

Fixpoint zip_with {A B C : Type} (f : A -> B -> C) (l1 : list A) (l2 : list B)
  : list C :=
  match l1, l2 with
  | x :: l1', y :: l2' => f x y :: zip_with f l1' l2'
  | _, _ => []
  end.

(** The cells that [out[orig == a] = b] writes: the mask is computed on
    [orig], and a key [a] that no cell can hold selects nothing. *)
Definition masked_assign (orig : ndarray) (a b : Z) (out : ndarray) : ndarray :=
  mk_ndarray (shape0 out) (shape1 out)
    (zip_with (zip_with (fun o c => if o =? a then b else c)) (rows orig) (rows out)).

(** [out[orig == a] = b]: NumPy converts [b] to the type of the cells before
    it looks at the mask, so a value outside 64 bits raises whatever the mask
    selects. *)
Definition setitem_masked (orig : ndarray) (a b : Z) (out : ndarray) : result ndarray :=
  if int64_ok b then Ok (masked_assign orig a b out) else Raise overflow.

(** [for a, b in mapping.items(): out[g.data == a] = b] *)
Fixpoint remap_loop (orig : ndarray) (items : list (Z * Z)) (out : ndarray)
  : result ndarray :=
  match items with
  | [] => Ok out
  | ab :: items' =>
      out' <- setitem_masked orig (fst ab) (snd ab) out ;;
      remap_loop orig items' out'
  end.

Definition op_REMAP (g : Grid) (mapping : list (Z * Z)) : result Grid :=
  out <- remap_loop (data g) mapping (data g) ;;
  Ok (mk_Grid out (log g ++ [("REMAP(" ++ repr_dict mapping ++ ")")%string])).

Definition is_op (o : option pyval) (name : string) : bool :=
  match o with
  | Some (PyStr s) => String.eqb s name
  | _ => false
  end.

Definition get_int (step : pydict) (k : string) (default : Z) : result Z :=
  match dict_get step k with
  | Some v => py_int v
  | None => Ok default
  end.

Definition get_mapping (step : pydict) : result (list (Z * Z)) :=
  match dict_get step "mapping" with
  | Some (PyDict d) => Ok (dict_of_items d)
  | Some (PyInt _) => Raise (AttributeError "'int' object has no attribute 'items'")
  | Some (PyStr _) => Raise (AttributeError "'str' object has no attribute 'items'")
  | None => Ok []
  end.

Definition apply_step (current : Grid) (step : pydict) : result Grid :=
  let op := dict_get step "op" in
  if is_op op "ROT90" then
    k <- get_int step "k" 1 ;; Ok (op_ROT90 current k)
  else if is_op op "FLIP" then
    axis <- get_int step "axis" 1 ;; op_FLIP current axis
  else if is_op op "TRANSPOSE" then
    Ok (op_TRANSPOSE current)
  else if is_op op "REMAP" then
    mapping <- get_mapping step ;; op_REMAP current mapping
  else Raise (ValueError ("Unknown op: " ++ py_str op)).

Fixpoint apply_scroll (scroll : list pydict) (g : Grid) : result Grid :=
  match scroll with
  | [] => Ok g
  | step :: rest => current <- apply_step g step ;; apply_scroll rest current
  end.

(** ** [patcher_nova]: palettes and the scorer *)

(** [np.unique]: the distinct values in increasing order. *)
Fixpoint insert_uniq (v : Z) (l : list Z) : list Z :=
  match l with
  | [] => [v]
  | x :: l' =>
      if v <? x then v :: l
      else if v =? x then l
      else x :: insert_uniq v l'
  end.

Definition np_unique (a : ndarray) : list Z :=
  fold_right insert_uniq [] (flatten a).

Definition count (l : list Z) (v : Z) : Z :=
  Z.of_nat (count_occ Z.eq_dec l v).

(** [palette]: colour -> number of cells, keyed in the order of [np.unique]. *)
Definition palette (arr : ndarray) : list (Z * Z) :=
  dict_of_items (map (fun v => (v, count (flatten arr) v)) (np_unique arr)).

Definition pal_get (p : list (Z * Z)) (c : Z) : Z :=
  match assoc p c with
  | Some n => n
  | None => 0
  end.

Definition memZ (c : Z) (l : list Z) : bool := existsb (Z.eqb c) l.

(** [set(pa) | set(pb)] as a duplicate-free list; the sums taken over it do
    not depend on the order of iteration. *)
Definition set_union (l1 l2 : list Z) : list Z :=
  l1 ++ filter (fun c => negb (memZ c l1)) l2.

Definition Zsum (l : list Z) : Z := fold_right Z.add 0 l.

Definition palette_similarity (a b : ndarray) : Q :=
  let pa := palette a in
  let pb := palette b in
  let colors := set_union (map fst pa) (map fst pb) in
  match colors with
  | [] => 1%Q
  | _ =>
      let num := Zsum (map (fun c => Z.min (pal_get pa c) (pal_get pb c)) colors) in
      let den := Zsum (map (fun c => Z.max (pal_get pa c) (pal_get pb c)) colors) in
      if 0 <? den then (inject_Z num / inject_Z den)%Q else 1%Q
  end.

Definition step_ROT90 (k : Z) : pydict := [("op"%string, PyStr "ROT90"); ("k"%string, PyInt k)].
Definition step_FLIP (axis : Z) : pydict := [("op"%string, PyStr "FLIP"); ("axis"%string, PyInt axis)].
Definition step_TRANSPOSE : pydict := [("op"%string, PyStr "TRANSPOSE")].
Definition step_REMAP (mapping : list (Z * Z)) : pydict :=
  [("op"%string, PyStr "REMAP"); ("mapping"%string, PyDict mapping)].

(** The library of moves, built by the loops of the source. *)
Definition _op_space : list (list pydict) :=
  let ops := [] in
  let ops := fold_left (fun ops k => ops ++ [[step_ROT90 k]]) [1; 2; 3] ops in
  let ops := fold_left (fun ops axis => ops ++ [[step_FLIP axis]]) [0; 1] ops in
  let ops := ops ++ [[step_TRANSPOSE]] in
  let ops :=
    fold_left (fun ops k =>
      fold_left (fun ops axis => ops ++ [[step_ROT90 k; step_FLIP axis]]) [0; 1] ops)
      [1; 2; 3] ops in
  ops.

(** [sorted] on integers. *)
Fixpoint insert_sorted (v : Z) (l : list Z) : list Z :=
  match l with
  | [] => [v]
  | x :: l' => if v <? x then v :: l else x :: insert_sorted v l'
  end.

Definition sorted (l : list Z) : list Z := fold_right insert_sorted [] l.

Definition _infer_remap (x y : ndarray) : option (list (Z * Z)) :=
  let xv := sorted (np_unique x) in
  let yv := sorted (np_unique y) in
  if negb (Nat.eqb (length xv) (length yv)) then None
  else Some (dict_of_items (combine xv yv)).

Definition Qsum (l : list Q) : Q := fold_right Qplus 0%Q l.

(** [np.mean] of a non-empty list. *)
Definition np_mean (l : list Q) : Q :=
  (Qsum l / inject_Z (Z.of_nat (length l)))%Q.

(** The body of the scoring loop: one pair appends one score. *)
Fixpoint score_loop (scroll : list pydict) (pairs : list (Grid * Grid))
  (scores : list Q) : list Q :=
  match pairs with
  | [] => scores
  | (x, y) :: rest =>
      match apply_scroll scroll x with
      | Raise _ => score_loop scroll rest (scores ++ [0%Q])
      | Ok g =>
          let out := data g in
          if shape_eqb out (data y) && cells_eqb out (data y)
          then score_loop scroll rest (scores ++ [1%Q])
          else
            let p_sim := palette_similarity out (data y) in
            let shape_sim := if shape_eqb out (data y) then 1%Q else 0%Q in
            score_loop scroll rest
              (scores ++ [((7 # 10) * p_sim + (3 # 10) * shape_sim)%Q])
      end
  end.

Definition score_prog (scroll : list pydict) (xs ys : list Grid) : Q :=
  let scores := score_loop scroll (combine xs ys) [] in
  match scores with
  | [] => 0%Q
  | _ => np_mean scores
  end.

(** ** [patcher_nova]: canonical keys and the beam search *)

(** [sorted(step.items())]: items are [(key, value)] tuples and the keys of a
    dict are distinct, so the order is decided by the keys alone. *)
Fixpoint insert_item (it : string * pyval) (l : list (string * pyval))
  : list (string * pyval) :=
  match l with
  | [] => [it]
  | x :: l' => if String.ltb (fst x) (fst it) then x :: insert_item it l' else it :: l
  end.

Definition sorted_items (step : pydict) : list (string * pyval) :=
  fold_right insert_item [] step.

Definition step_key : Type := pyval * list (string * pyval).
Definition scroll_key : Type := list step_key.

(** [(step['op'], tuple(sorted(step.items())))] *)
Definition key_of_step (step : pydict) : result step_key :=
  match dict_get step "op" with
  | Some o => Ok (o, sorted_items step)
  | None => Raise (KeyError "op")
  end.

Definition key_of_scroll (prog : list pydict) : result scroll_key :=
  mapM key_of_step prog.

(** [hash]: strings, integers and tuples of hashable values have a hash, a
    [dict] has none. *)
Definition hashable (v : pyval) : bool :=
  match v with
  | PyDict _ => false
  | _ => true
  end.

Definition hashable_step_key (k : step_key) : bool :=
  hashable (fst k) && forallb (fun it => hashable (snd it)) (snd k).

Definition hashable_key (k : scroll_key) : bool := forallb hashable_step_key k.

Definition dict_eqb (d1 d2 : list (Z * Z)) : bool :=
  Nat.eqb (length d1) (length d2)
  && forallb (fun kv => match assoc d2 (fst kv) with
                        | Some v => v =? snd kv
                        | None => false
                        end) d1.

Definition pyval_eqb (v1 v2 : pyval) : bool :=
  match v1, v2 with
  | PyInt a, PyInt b => a =? b
  | PyStr a, PyStr b => String.eqb a b
  | PyDict a, PyDict b => dict_eqb a b
  | _, _ => false
  end.

Definition item_eqb (a b : string * pyval) : bool :=
  String.eqb (fst a) (fst b) && pyval_eqb (snd a) (snd b).

Definition step_key_eqb (a b : step_key) : bool :=
  pyval_eqb (fst a) (fst b) && list_eqb item_eqb (snd a) (snd b).

Definition key_eqb (a b : scroll_key) : bool := list_eqb step_key_eqb a b.

(** [key in seen] hashes the key first. *)
Definition set_contains (seen : list scroll_key) (key : scroll_key) : result bool :=
  if hashable_key key then Ok (existsb (key_eqb key) seen)
  else Raise (TypeError "unhashable type: 'dict'").

Definition set_add (seen : list scroll_key) (key : scroll_key) : list scroll_key :=
  seen ++ [key].

Definition candidate : Type := (list pydict * Q)%type.

(** [list.sort(key=lambda t: t[1], reverse=True)]: stable, best score first. *)
Fixpoint insert_desc (c : candidate) (l : list candidate) : list candidate :=
  match l with
  | [] => [c]
  | d :: l' => if Qle_bool (snd d) (snd c) then c :: l else d :: insert_desc c l'
  end.

Definition sort_desc (l : list candidate) : list candidate :=
  fold_right insert_desc [] l.

(** [l[:n]], also for a negative [n]. *)
Definition slice_to {A : Type} (l : list A) (n : Z) : list A :=
  if 0 <=? n then firstn (Z.to_nat n) l
  else firstn (length l - Z.to_nat (- n)) l.

Section Search.

Variables xs ys : list Grid.

(** The loop over the moves, for one candidate of the pool. *)
Fixpoint expand_prog (prog : list pydict) (op_lib : list (list pydict))
  (seen : list scroll_key) (next_pool : list candidate)
  : result (list scroll_key * list candidate) :=
  match op_lib with
  | [] => Ok (seen, next_pool)
  | ops :: op_lib' =>
      let new_prog := prog ++ ops in
      key <- key_of_scroll new_prog ;;
      dup <- set_contains seen key ;;
      if dup then expand_prog prog op_lib' seen next_pool
      else
        let seen := set_add seen key in
        let s := score_prog new_prog xs ys in
        expand_prog prog op_lib' seen (next_pool ++ [(new_prog, s)])
  end.

(** The loop over the pool. *)
Fixpoint expand_pool (pool : list candidate) (op_lib : list (list pydict))
  (seen : list scroll_key) (next_pool : list candidate)
  : result (list scroll_key * list candidate) :=
  match pool with
  | [] => Ok (seen, next_pool)
  | (prog, _) :: pool' =>
      st <- expand_prog prog op_lib seen next_pool ;;
      expand_pool pool' op_lib (fst st) (snd st)
  end.

(** [depth] rounds of expansion, sort and truncation. *)
Fixpoint search (rounds : nat) (beam : Z) (op_lib : list (list pydict))
  (seen : list scroll_key) (pool : list candidate) : result (list candidate) :=
  match rounds with
  | O => Ok pool
  | S rounds' =>
      st <- expand_pool pool op_lib seen [] ;;
      let next_pool := sort_desc (snd st) in
      search rounds' beam op_lib (fst st) (slice_to next_pool beam)
  end.

End Search.

Record train_pair : Type := mk_pair {
  input : list (list Z);
  output : list (list Z)
}.

Definition synthesize_scroll (train_pairs : list train_pair) (beam depth : Z)
  : result (list pydict) :=
  xs <- mapM (fun p => from_list (input p)) train_pairs ;;
  ys <- mapM (fun p => from_list (output p)) train_pairs ;;
  match xs, ys with
  | x0 :: _, y0 :: _ =>
      let remap0 := _infer_remap (data x0) (data y0) in
      let pool := [([], score_prog [] xs ys)] in
      let pool :=
        match remap0 with
        | Some ((_ :: _) as m) =>
            let rm := [step_REMAP m] in
            pool ++ [(rm, score_prog rm xs ys)]
        | _ => pool
        end in
      let op_lib := _op_space in
      pool <- search xs ys (Z.to_nat depth) beam op_lib [] pool ;;
      match sort_desc pool with
      | c :: _ => Ok (fst c)
      | [] => Ok []
      end
  | _, _ => Raise (IndexError "list index out of range")
  end.

Fixpoint eval_loop (scroll : list pydict) (pairs : list (Grid * Grid)) (i : Z)
  : result (bool * string) :=
  match pairs with
  | [] => Ok (true, "exact match"%string)
  | (x, y) :: rest =>
      out <- apply_scroll scroll x ;;
      if negb (shape_eqb (data out) (data y)) || negb (array_equal (data out) (data y))
      then Ok (false, ("mismatch on pair " ++ str_of_Z (i + 1))%string)
      else eval_loop scroll rest (i + 1)
  end.

Definition eval_scroll (scroll : list pydict) (train_pairs : list train_pair)
  : result (bool * string) :=
  xs <- mapM (fun p => from_list (input p)) train_pairs ;;
  ys <- mapM (fun p => from_list (output p)) train_pairs ;;
  eval_loop scroll (combine xs ys) 0.

(** ** The remaining interface of [Grid], and the [vx_os] runtime *)

(** The properties [h] and [w] of a grid. *)
Definition h (g : Grid) : nat := shape0 (data g).
Definition w (g : Grid) : nat := shape1 (data g).

(** [run_scroll]: a nested list in, a nested list out. *)
Definition run_scroll (scroll : list pydict) (grid : list (list Z))
  : result (list (list Z)) :=
  g <- from_list grid ;;
  result <- apply_scroll scroll g ;;
  Ok (to_list result).

(** ** Predicates used by the statements *)

Definition has_type_int (o : option pyval) : bool :=
  match o with
  | Some (PyInt _) | None => true
  | _ => false
  end.

Definition has_type_dict (o : option pyval) : bool :=
  match o with
  | Some (PyDict _) | None => true
  | _ => false
  end.

(** A step is well typed when [k] and [axis], if present, are integers and
    [mapping], if present, is a dict of integers. *)
Definition wt_step (step : pydict) : bool :=
  has_type_int (dict_get step "k")
  && has_type_int (dict_get step "axis")
  && has_type_dict (dict_get step "mapping").

Definition known_op (step : pydict) : bool :=
  let op := dict_get step "op" in
  is_op op "ROT90" || is_op op "FLIP" || is_op op "TRANSPOSE" || is_op op "REMAP".

Definition bad_axis (step : pydict) : bool :=
  is_op (dict_get step "op") "FLIP"
  && match dict_get step "axis" with
     | Some (PyInt a) => negb ((a =? 0) || (a =? 1))
     | _ => false
     end.

Definition faulty_step (step : pydict) : Prop :=
  known_op step = false \/ bad_axis step = true.

(** The descriptor a step appends to the log. *)
Definition descriptor (step : pydict) : string :=
  let op := dict_get step "op" in
  if is_op op "ROT90" then
    match get_int step "k" 1 with
    | Ok k => ("ROT90(" ++ str_of_Z ((k mod 4 + 4) mod 4) ++ ")")%string
    | Raise _ => ""%string
    end
  else if is_op op "FLIP" then
    match get_int step "axis" 1 with
    | Ok axis => ("FLIP(" ++ str_of_Z axis ++ ")")%string
    | Raise _ => ""%string
    end
  else if is_op op "TRANSPOSE" then "TRANSPOSE"%string
  else
    match get_mapping step with
    | Ok m => ("REMAP(" ++ repr_dict m ++ ")")%string
    | Raise _ => ""%string
    end.

(** The value REMAP gives to a cell holding [v]. *)
Definition remap_cell (mapping : list (Z * Z)) (v : Z) : Z :=
  match assoc mapping v with
  | Some b => b
  | None => v
  end.

(** What the successive masked assignments do to the cell that holds [o] in
    the original array and [c] in the array being written. *)
Definition assign_cell (mapping : list (Z * Z)) (o c : Z) : Z :=
  fold_left (fun c ab => if o =? fst ab then snd ab else c) mapping c.

(** The score of one pair, in the words of the specification: 0 when the
    execution fails, 1 on an exact match, and otherwise
    0.7 * paletteSimilarity + 0.3 * shapeSimilarity. *)
Definition shape_similarity (out target : ndarray) : Q :=
  if shape_eqb out target then 1%Q else 0%Q.

Definition pair_score (scroll : list pydict) (xy : Grid * Grid) : Q :=
  match apply_scroll scroll (fst xy) with
  | Raise _ => 0%Q
  | Ok g =>
      if array_equal (data g) (data (snd xy)) then 1%Q
      else ((7 # 10) * palette_similarity (data g) (data (snd xy))
            + (3 # 10) * shape_similarity (data g) (data (snd xy)))%Q
  end.

(** A pair is matched exactly when the scroll runs on its input and gives an
    array of the shape and the cells of its output. *)
Definition exact_on (scroll : list pydict) (xy : Grid * Grid) : Prop :=
  exists g, apply_scroll scroll (fst xy) = Ok g
            /\ array_equal (data g) (data (snd xy)) = true.

(** Cell-wise recolouring of an array, and of a nested list. *)
Definition recolour (pi : Z -> Z) (a : ndarray) : ndarray :=
  mk_ndarray (shape0 a) (shape1 a) (map (map pi) (rows a)).

Definition increasing_on (pi : Z -> Z) (l : list Z) : Prop :=
  forall a b, In a l -> In b l -> a < b -> pi a < pi b.

(** Every colour of [cells] is a colour of [base] or is left in place by [pi]. *)
Definition covered (pi : Z -> Z) (base cells : list Z) : Prop :=
  forall c, In c cells -> In c base \/ pi c = c.

(** The grid [from_list] builds from a recoloured nested list. *)
Definition regrid (pi : Z -> Z) (g : Grid) : Grid := mk_Grid (recolour pi (data g)) [].

(** The candidate [rm] that [synthesize_scroll] seeds beside the identity:
    present when [_infer_remap] gives a non-empty mapping for the first pair. *)
Definition seeded_remap (xs ys : list Grid) : option (list pydict) :=
  match xs, ys with
  | x0 :: _, y0 :: _ =>
      match _infer_remap (data x0) (data y0) with
      | Some ((_ :: _) as m) => Some [step_REMAP m]
      | _ => None
      end
  | _, _ => None
  end.

(** The permutation exchanging the colours 1 and 2, and a task recoloured by it. *)
Definition swap12 (c : Z) : Z := if c =? 1 then 2 else if c =? 2 then 1 else c.

Definition task_swap : list train_pair := [mk_pair [[1; 1; 2]] [[2; 2; 1]]].

(** The key of a step that has an [op] entry, and of a scroll of such steps. *)
Definition skey (step : pydict) : step_key :=
  (match dict_get step "op" with Some o => o | None => PyStr "" end,
   sorted_items step).

Definition keyof (prog : list pydict) : scroll_key := map skey prog.

Definition kT : step_key := skey step_TRANSPOSE.

(** The steps of the moves, and the scrolls made of them. *)
Definition move_steps : list pydict :=
  [step_ROT90 1; step_ROT90 2; step_ROT90 3; step_FLIP 0; step_FLIP 1; step_TRANSPOSE].

Definition simple (prog : list pydict) : Prop :=
  Forall (fun step => In step move_steps) prog.

(** What one pass over [progs] and [moves] does to the visited set: [added]
    are the candidates appended to the next pool. *)
Definition expansion (progs moves : list (list pydict)) (seen : list scroll_key)
  (added : list candidate) (seen' : list scroll_key) : Prop :=
  incl seen seen'
  /\ (forall c, In c added ->
        exists p m, In p progs /\ In m moves /\ fst c = p ++ m
                    /\ ~ In (keyof (fst c)) seen /\ In (keyof (fst c)) seen')
  /\ (forall k, In k seen' -> In k seen \/ exists c, In c added /\ keyof (fst c) = k)
  /\ (forall p m, In p progs -> In m moves -> In (keyof (p ++ m)) seen').

(** The invariant of the beam between two rounds. *)
Record beam_inv (seen : list scroll_key) (pool : list candidate) : Prop := {
  inv_nonempty : pool <> [];
  inv_simple : forall c, In c pool -> simple (fst c);
  inv_known : forall c, In c pool -> fst c = [] \/ In (keyof (fst c)) seen;
  inv_closed : forall k, In (k ++ [kT]) seen -> k = [] \/ In k seen;
  inv_fresh : forall c, In c pool -> ~ In (keyof (fst c) ++ [kT]) seen
}.

(** A task whose output is its input turned once counter-clockwise, and a
    task on which no mapping is seeded. *)
Definition task_rot90 : list train_pair := [mk_pair [[1; 2]; [3; 4]] [[2; 4]; [1; 3]]].
Definition task_unseeded : list train_pair := [mk_pair [[1; 1]] [[1; 2]]].

(** A pair whose output is its input turned once counter-clockwise. *)
Definition rot90_pair (p : train_pair) : Prop :=
  exists x, np_array (input p) = Ok x /\ output p = rows (np_rot90 x 1).

(** Items in strictly increasing order of their keys. *)
Definition key_lt (a b : string * pyval) : Prop := String.ltb (fst a) (fst b) = true.

(** Grids used in the examples. *)
Definition grid_of (h w : nat) (rs : list (list Z)) : Grid := mk_Grid (mk_ndarray h w rs) [].
Definition g_12 : Grid := grid_of 1 2 [[1; 2]].
Definition g_21 : Grid := grid_of 2 1 [[2]; [1]].
Definition g_1 : Grid := grid_of 1 1 [[1]].
Definition g_2 : Grid := grid_of 1 1 [[2]].

(** The cell in row [i] and column [j]. *)
Definition cell (a : ndarray) (i j : nat) : Z := nth j (nth i (rows a) []) 0.

(** A step that exchanges height and width: a quarter turn an odd number of
    times, or a transposition. *)
Definition step_swaps (step : pydict) : bool :=
  let op := dict_get step "op" in
  if is_op op "ROT90" then
    match get_int step "k" 1 with
    | Ok k => Z.odd k
    | Raise _ => false
    end
  else is_op op "TRANSPOSE".

Definition swapped (scroll : list pydict) : bool :=
  fold_right (fun step b => xorb (step_swaps step) b) false scroll.

(** The array a scroll produces, when it runs. *)
Definition effect (scroll : list pydict) (g : Grid) : option ndarray :=
  match apply_scroll scroll g with
  | Ok g' => Some (data g')
  | Raise _ => None
  end.

(** The rows of a list have one length. *)
Definition rectangular (lst : list (list Z)) : Prop :=
  forall r r', In r lst -> In r' lst -> length r = length r'.

Definition g_2x3 : Grid := mk_Grid (mk_ndarray 2 3 [[1; 2; 3]; [4; 5; 6]]) [].

(** [turn n a]: [a] turned [n] times by a quarter, counter-clockwise. *)
Definition turn (n : nat) (a : ndarray) : ndarray :=
  Nat.iter n (fun x => np_rot90 x 1) a.

(** The result of a computation on a grid with an empty log, replayed after
    the log [l]. *)
Definition relog (l : list string) (r : result Grid) : result Grid :=
  match r with
  | Ok g' => Ok (mk_Grid (data g') (l ++ log g'))
  | Raise e => Raise e
  end.

Definition unlogged (g : Grid) : Grid := mk_Grid (data g) [].

(** Two arrays hold every colour the same number of times. *)
Definition same_palette (a b : ndarray) : Prop :=
  forall c, count (flatten a) c = count (flatten b) c.

(** The result of the scroll on a pair has the shape and the palette of the
    target. *)
Definition palette_match (scroll : list pydict) (xy : Grid * Grid) : Prop :=
  exists g, apply_scroll scroll (fst xy) = Ok g
            /\ shape_eqb (data g) (data (snd xy)) = true
            /\ same_palette (data g) (data (snd xy)).

(** The sums of [palette_similarity], over the colours of either array. *)
Definition colours (a b : ndarray) : list Z := set_union (np_unique a) (np_unique b).

Definition overlap (a b : ndarray) : Z :=
  Zsum (map (fun c => Z.min (count (flatten a) c) (count (flatten b) c)) (colours a b)).

Definition extent (a b : ndarray) : Z :=
  Zsum (map (fun c => Z.max (count (flatten a) c) (count (flatten b) c)) (colours a b)).

(** The key under which a candidate of simple steps is recorded. *)
Definition ckey (c : candidate) : scroll_key := keyof (fst c).

(** A Python dict has pairwise distinct keys. *)
Definition is_dict (step : pydict) : Prop := NoDup (map fst step).

(** The values of a mapping fit the cells of an array. *)
Definition values_fit (mapping : list (Z * Z)) : bool :=
  forallb (fun ab => int64_ok (snd ab)) mapping.

(** A REMAP step that maps to a value outside the 64-bit range. *)
Definition remap_overflows (step : pydict) : bool :=
  is_op (dict_get step "op") "REMAP"
  && match get_mapping step with
     | Ok m => negb (values_fit m)
     | Raise _ => false
     end.

Definition failing_step (step : pydict) : Prop :=
  faulty_step step \/ remap_overflows step = true.

(** The cells of an array, and of a nested list, lie in the 64-bit range. *)
Definition cells_fit (lst : list (list Z)) : bool := forallb (forallb int64_ok) lst.

(** A step without a dict among its values: every step of the moves. *)
Definition plain_step (step : pydict) : bool :=
  forallb (fun it => hashable (snd it)) step.

(** An integer that a cell can hold. *)
Definition int64 (z : Z) : Prop := - 2 ^ 63 <= z < 2 ^ 63.

(** * Properties of [scroll_core] *)

Module ScrollCore.

Lemma bind_ok {A B : Type} (c : result A) (k : A -> result B) (b : B) :
  bind c k = Ok b -> exists a, c = Ok a /\ k a = Ok b.
Proof.
  destruct c as [a|e]; simpl; intros H; [exists a; auto | discriminate].
Qed.

Lemma raises_not_returns {A : Type} (c : result A) : raises c <-> ~ returns c.
Proof.
  unfold raises, returns; destruct c as [a|e]; split.
  - intros [e H]; discriminate.
  - intros H; exfalso; apply H; eauto.
  - intros _ [a H]; discriminate.
  - intros _; eauto.
Qed.

Lemma np_array_inv (lst : list (list Z)) (a : ndarray) :
  np_array lst = Ok a ->
  exists r lst',
    lst = r :: lst'
    /\ forallb (fun r' => Nat.eqb (length r') (length r)) lst = true
    /\ cells_fit lst = true
    /\ a = mk_ndarray (length lst) (length r) lst.
Proof.
  unfold np_array, cells_fit. destruct lst as [|r lst]; [discriminate|].
  destruct (forallb (fun r' => Nat.eqb (length r') (length r)) (r :: lst)) eqn:E1;
    [|discriminate].
  destruct (forallb (forallb int64_ok) (r :: lst)) eqn:E2; [|discriminate].
  intros [= <-]. exists r, lst.
  split; [reflexivity|]. split; [exact E1|]. split; reflexivity.
Qed.

Lemma np_array_intro (r : list Z) (lst : list (list Z)) :
  forallb (fun r' => Nat.eqb (length r') (length r)) (r :: lst) = true ->
  cells_fit (r :: lst) = true ->
  np_array (r :: lst) = Ok (mk_ndarray (length (r :: lst)) (length r) (r :: lst)).
Proof. unfold np_array, cells_fit. intros -> ->. reflexivity. Qed.

Lemma remap_loop_spec (orig : ndarray) (mapping : list (Z * Z)) (out : ndarray) :
  remap_loop orig mapping out
  = if values_fit mapping
    then Ok (fold_left (fun out ab => masked_assign orig (fst ab) (snd ab) out)
                       mapping out)
    else Raise overflow.
Proof.
  revert out; induction mapping as [|[a b] m IH]; intros out; [reflexivity|].
  cbn [remap_loop values_fit forallb fst snd fold_left]. unfold setitem_masked.
  destruct (int64_ok b); cbn [bind andb]; [apply IH|reflexivity].
Qed.

Lemma op_REMAP_spec (g : Grid) (mapping : list (Z * Z)) :
  op_REMAP g mapping
  = if values_fit mapping
    then Ok (mk_Grid
               (fold_left (fun out ab => masked_assign (data g) (fst ab) (snd ab) out)
                          mapping (data g))
               (log g ++ [("REMAP(" ++ repr_dict mapping ++ ")")%string]))
    else Raise overflow.
Proof.
  unfold op_REMAP. rewrite remap_loop_spec.
  destruct (values_fit mapping); reflexivity.
Qed.

Section Steps.

Variable step : pydict.
Hypothesis Hwt : wt_step step = true.

Lemma get_int_k_ok : exists k, get_int step "k" 1 = Ok k.
Proof.
  unfold wt_step in Hwt; unfold get_int.
  destruct (dict_get step "k") as [[z|s|d]|]; simpl in *; try discriminate; eauto.
Qed.

Lemma get_int_axis_ok : exists a, get_int step "axis" 1 = Ok a.
Proof.
  unfold wt_step in Hwt; unfold get_int.
  destruct (dict_get step "k") as [[z|s|d]|]; simpl in *; try discriminate;
    destruct (dict_get step "axis") as [[z'|s'|d']|]; simpl in *;
    try discriminate; eauto.
Qed.

Lemma get_mapping_ok : exists m, get_mapping step = Ok m.
Proof.
  unfold wt_step in Hwt; unfold get_mapping.
  destruct (dict_get step "mapping") as [[z|s|d]|]; eauto;
    rewrite andb_comm in Hwt; discriminate.
Qed.

Lemma apply_step_faulty (g : Grid) : faulty_step step -> raises (apply_step g step).
Proof.
  unfold faulty_step, known_op, bad_axis, apply_step, raises.
  intros [H|H].
  - repeat (apply orb_false_elim in H; destruct H as [H ?]).
    repeat match goal with E : is_op _ _ = false |- _ => rewrite E; clear E end.
    eauto.
  - apply andb_prop in H; destruct H as [Hop Hax].
    destruct (is_op (dict_get step "op") "ROT90") eqn:Hrot.
    + destruct (dict_get step "op") as [[z|s|d]|]; simpl in *; try discriminate.
      apply String.eqb_eq in Hrot; subst s; discriminate.
    + rewrite Hop. unfold get_int.
      destruct (dict_get step "axis") as [[a|s|d]|]; try discriminate.
      simpl. unfold op_FLIP. rewrite Hax. eauto.
Qed.

Lemma apply_step_sound (g : Grid) :
  ~ failing_step step -> exists g', apply_step g step = Ok g'.
Proof.
  unfold failing_step, faulty_step, known_op, bad_axis, remap_overflows, apply_step.
  intros H0.
  assert (H : ~ ((is_op (dict_get step "op") "ROT90" || is_op (dict_get step "op") "FLIP"
                  || is_op (dict_get step "op") "TRANSPOSE"
                  || is_op (dict_get step "op") "REMAP") = false
                 \/ is_op (dict_get step "op") "FLIP"
                    && match dict_get step "axis" with
                       | Some (PyInt a) => negb ((a =? 0) || (a =? 1))
                       | _ => false
                       end = true)) by tauto.
  destruct (is_op (dict_get step "op") "ROT90") eqn:Hrot.
  { destruct get_int_k_ok as [k ->]; simpl; eauto. }
  destruct (is_op (dict_get step "op") "FLIP") eqn:Hflip.
  { unfold get_int in *. unfold wt_step in Hwt.
    destruct (dict_get step "axis") as [[a|s|d]|] eqn:Hax; simpl.
    - unfold op_FLIP.
      destruct (negb ((a =? 0) || (a =? 1))) eqn:Ha; [|eauto].
      exfalso; apply H; right; reflexivity.
    - destruct (dict_get step "k") as [[?|?|?]|]; discriminate.
    - destruct (dict_get step "k") as [[?|?|?]|]; discriminate.
    - unfold op_FLIP; simpl; eauto. }
  destruct (is_op (dict_get step "op") "TRANSPOSE") eqn:Htr; [eauto|].
  destruct (is_op (dict_get step "op") "REMAP") eqn:Hre.
  { destruct get_mapping_ok as [m Hm]. rewrite Hm in *. cbn [bind].
    rewrite op_REMAP_spec.
    destruct (values_fit m); [eauto|].
    exfalso; apply H0; right; reflexivity. }
  exfalso; apply H; left; reflexivity.
Qed.

Lemma apply_step_overflow (g : Grid) :
  remap_overflows step = true -> apply_step g step = Raise overflow.
Proof.
  unfold remap_overflows, apply_step. intros H.
  apply andb_prop in H; destruct H as [Hop Hm].
  destruct (is_op (dict_get step "op") "ROT90") eqn:Hrot.
  { destruct (dict_get step "op") as [[z|s|d]|]; simpl in *; try discriminate.
    apply String.eqb_eq in Hrot; subst s; discriminate. }
  destruct (is_op (dict_get step "op") "FLIP") eqn:Hflip.
  { destruct (dict_get step "op") as [[z|s|d]|]; simpl in *; try discriminate.
    apply String.eqb_eq in Hflip; subst s; discriminate. }
  destruct (is_op (dict_get step "op") "TRANSPOSE") eqn:Htr.
  { destruct (dict_get step "op") as [[z|s|d]|]; simpl in *; try discriminate.
    apply String.eqb_eq in Htr; subst s; discriminate. }
  rewrite Hop. destruct (get_mapping step) as [m|e]; [|discriminate].
  cbn [bind]. rewrite op_REMAP_spec.
  destruct (values_fit m); [discriminate|reflexivity].
Qed.

End Steps.

Lemma faulty_step_dec (step : pydict) : {faulty_step step} + {~ faulty_step step}.
Proof.
  unfold faulty_step.
  destruct (known_op step); destruct (bad_axis step); auto;
    right; intros [H|H]; discriminate.
Qed.

Lemma failing_step_dec (step : pydict) : {failing_step step} + {~ failing_step step}.
Proof.
  unfold failing_step.
  destruct (faulty_step_dec step) as [H|H]; [auto|].
  destruct (remap_overflows step); [auto|].
  right; intros [H'|H']; [contradiction|discriminate].
Qed.

Lemma apply_step_failing (step : pydict) (g : Grid) :
  failing_step step -> raises (apply_step g step).
Proof.
  intros [H|H]; [now apply apply_step_faulty|].
  exists overflow. now apply apply_step_overflow.
Qed.

(** C5, as the code has it: a REMAP step with well-typed parameters, a known
    operation and no axis makes [apply_scroll] raise [OverflowError] when it
    maps a colour to an integer that does not fit the 64-bit cells. *)
Lemma apply_scroll_remap_overflow :
  forallb wt_step [step_REMAP [(1, 2 ^ 63)]] = true
  /\ ~ Exists faulty_step [step_REMAP [(1, 2 ^ 63)]]
  /\ apply_scroll [step_REMAP [(1, 2 ^ 63)]] g_1
     = Raise (OverflowError "Python int too large to convert to C long")
  /\ ~ returns (apply_scroll [step_REMAP [(1, 2 ^ 63)]] g_1).
Proof.
  split; [reflexivity|]. split; [|split; [reflexivity|]].
  - intros H; inversion H as [? ? [H'|H']|? ? H']; subst;
      [discriminate H'|discriminate H'|inversion H'].
  - intros [a H]; discriminate H.
Qed.

(** C5 (amended). On a scroll whose steps are well typed, [apply_scroll]
    raises exactly when some step names an operation outside ROT90, FLIP,
    TRANSPOSE and REMAP, or some FLIP step carries an axis other than 0 and 1,
    or some REMAP step maps to a value outside the signed 64-bit range of the
    cells; it returns a grid exactly when there is no such step. *)
Theorem apply_scroll_raises_iff (scroll : list pydict) (g : Grid) :
  forallb wt_step scroll = true ->
  (raises (apply_scroll scroll g) <-> Exists failing_step scroll)
  /\ (returns (apply_scroll scroll g) <-> ~ Exists failing_step scroll).
Proof.
  intros Hwt.
  assert (Hr : raises (apply_scroll scroll g) <-> Exists failing_step scroll).
  { revert g; induction scroll as [|step rest IH]; intros g; simpl.
    - split; [intros [e H]; discriminate | intros H; inversion H].
    - simpl in Hwt; apply andb_prop in Hwt; destruct Hwt as [Hs Hrest].
      destruct (failing_step_dec step) as [Hf|Hf].
      + split; [intros _; now constructor|intros _].
        destruct (apply_step_failing step g Hf) as [e ->]; simpl; now exists e.
      + destruct (apply_step_sound step Hs g Hf) as [g' ->]; simpl.
        rewrite (IH Hrest g'). split; [now constructor 2|].
        intros H; inversion H; subst; [contradiction|assumption]. }
  split; [exact Hr|].
  rewrite <- Hr. split.
  - intros Hret Hra; apply raises_not_returns in Hra; contradiction.
  - intros Hn. destruct (apply_scroll scroll g) as [a|e]; [now exists a|].
    exfalso; apply Hn; now exists e.
Qed.

Lemma apply_scroll_raises_iff_witness :
  returns (apply_scroll [step_ROT90 5; step_REMAP [(1, 2)]; step_TRANSPOSE]
             (mk_Grid (mk_ndarray 1 2 [[1; 2]]) []))
  /\ raises (apply_scroll [step_ROT90 1; step_FLIP 2]
               (mk_Grid (mk_ndarray 1 2 [[1; 2]]) []))
  /\ raises (apply_scroll [step_FLIP 0; step_REMAP [(1, - 2 ^ 63 - 1)]]
               (mk_Grid (mk_ndarray 1 2 [[1; 2]]) [])).
Proof.
  split; [|split].
  - apply (apply_scroll_raises_iff [step_ROT90 5; step_REMAP [(1, 2)]; step_TRANSPOSE]);
      [reflexivity|].
    intros H.
    repeat (inversion H as [? ? [[H'|H']|H']|? ? H']; try discriminate; subst;
            clear H; rename H' into H).
  - apply (apply_scroll_raises_iff [step_ROT90 1; step_FLIP 2]); [reflexivity|].
    constructor 2; constructor; left; right; reflexivity.
  - apply (apply_scroll_raises_iff [step_FLIP 0; step_REMAP [(1, - 2 ^ 63 - 1)]]);
      [reflexivity|].
    constructor 2; constructor; right; reflexivity.
Defined.

Lemma apply_step_log (step : pydict) (g g' : Grid) :
  apply_step g step = Ok g' -> log g' = log g ++ [descriptor step].
Proof.
  unfold apply_step, descriptor.
  destruct (is_op (dict_get step "op") "ROT90").
  { intros H; apply bind_ok in H; destruct H as (k & -> & H).
    injection H as <-; reflexivity. }
  destruct (is_op (dict_get step "op") "FLIP").
  { intros H; apply bind_ok in H; destruct H as (a & -> & H).
    unfold op_FLIP in H.
    destruct (negb ((a =? 0) || (a =? 1))); [discriminate|].
    injection H as <-; reflexivity. }
  destruct (is_op (dict_get step "op") "TRANSPOSE").
  { intros H; injection H as <-; reflexivity. }
  destruct (is_op (dict_get step "op") "REMAP"); [|discriminate].
  intros H; apply bind_ok in H; destruct H as (m & -> & H).
  rewrite op_REMAP_spec in H. destruct (values_fit m); [|discriminate].
  injection H as <-; reflexivity.
Qed.

(** C7. When [apply_scroll] succeeds, the log of the result is the log of the
    input followed by one descriptor per step, in order; the empty scroll
    returns the input grid itself: same cells, same shape, same log. *)
Theorem apply_scroll_log (scroll : list pydict) (g g' : Grid) :
  apply_scroll scroll g = Ok g' ->
  log g' = log g ++ map descriptor scroll
  /\ length (log g') = (length (log g) + length scroll)%nat
  /\ (scroll = [] -> data g' = data g /\ log g' = log g).
Proof.
  intros H.
  assert (Hlog : log g' = log g ++ map descriptor scroll).
  { revert g H; induction scroll as [|step rest IH]; intros g H; simpl in *.
    - injection H as <-; now rewrite app_nil_r.
    - apply bind_ok in H; destruct H as (g1 & H1 & H2).
      rewrite (IH _ H2), (apply_step_log _ _ _ H1), <- app_assoc; reflexivity. }
  split; [exact Hlog|split].
  - rewrite Hlog, length_app, length_map; reflexivity.
  - intros ->; simpl in H; injection H as <-; auto.
Qed.

Lemma apply_scroll_log_witness :
  log (mk_Grid (mk_ndarray 2 1 [[1]; [2]]) ["ROT90(1)"; "FLIP(0)"]%string)
  = [] ++ map descriptor [step_ROT90 1; step_FLIP 0].
Proof.
  apply (apply_scroll_log [step_ROT90 1; step_FLIP 0]
           (mk_Grid (mk_ndarray 1 2 [[1; 2]]) [])).
  reflexivity.
Defined.

(** *** REMAP *)

Lemma zip_with_map_r {A C : Type} (f : A -> A -> C) (h : A -> A) (l : list A) :
  zip_with f l (map h l) = map (fun x => f x (h x)) l.
Proof. induction l as [|x l IH]; simpl; [|rewrite IH]; reflexivity. Qed.

Lemma fold_masked_assign (orig : ndarray) (mapping : list (Z * Z)) :
  fold_left (fun out ab => masked_assign orig (fst ab) (snd ab) out) mapping orig
  = mk_ndarray (shape0 orig) (shape1 orig)
      (map (map (fun o => assign_cell mapping o o)) (rows orig)).
Proof.
  induction mapping as [|[a b] m IH] using rev_ind.
  - destruct orig as [h w rs]; simpl; f_equal.
    rewrite <- (map_id rs) at 1. apply map_ext; intros r.
    now rewrite map_id.
  - rewrite fold_left_app; simpl. rewrite IH.
    unfold masked_assign; simpl; f_equal.
    rewrite zip_with_map_r. apply map_ext; intros r.
    rewrite zip_with_map_r. apply map_ext; intros o.
    unfold assign_cell. rewrite fold_left_app; reflexivity.
Qed.

Lemma assoc_not_in (m : list (Z * Z)) (a : Z) :
  ~ In a (map fst m) -> assoc m a = None.
Proof.
  induction m as [|[a' b'] m IH]; simpl; intros H; auto.
  destruct (Z.eqb_spec a' a) as [->|Hne]; [exfalso; auto|auto].
Qed.

Lemma assign_cell_assoc (m : list (Z * Z)) (o c : Z) :
  NoDup (map fst m) ->
  assign_cell m o c = match assoc m o with Some b => b | None => c end.
Proof.
  unfold assign_cell. revert c; induction m as [|[a b] m IH]; intros c Hnd; simpl; auto.
  inversion Hnd as [|? ? Hnin Hnd']; subst.
  rewrite (IH _ Hnd'), (Z.eqb_sym a o).
  destruct (Z.eqb_spec o a) as [->|Hne]; [|reflexivity].
  now rewrite (assoc_not_in m a Hnin).
Qed.

Lemma assoc_in (m : list (Z * Z)) (a b : Z) :
  NoDup (map fst m) -> (assoc m a = Some b <-> In (a, b) m).
Proof.
  induction m as [|[a' b'] m IH]; simpl; intros Hnd.
  - split; [discriminate|tauto].
  - inversion Hnd as [|? ? Hnin Hnd']; subst.
    destruct (Z.eqb_spec a' a) as [->|Hne].
    + split; [intros [= ->]; auto|].
      intros [[= ->]|Hin]; [reflexivity|].
      exfalso; apply Hnin; apply (in_map fst) in Hin; exact Hin.
    + rewrite (IH Hnd'). split; [auto|].
      intros [[= -> ->]|Hin]; [contradiction|assumption].
Qed.

Lemma assoc_perm (m m' : list (Z * Z)) (a : Z) :
  NoDup (map fst m) -> Permutation m m' -> assoc m a = assoc m' a.
Proof.
  intros Hnd Hp.
  assert (Hnd' : NoDup (map fst m')).
  { eapply Permutation_NoDup; [apply Permutation_map; exact Hp|exact Hnd]. }
  destruct (assoc m a) as [b|] eqn:E.
  - symmetry. apply (assoc_in _ _ _ Hnd'). eapply Permutation_in; [exact Hp|].
    now apply (assoc_in _ _ _ Hnd).
  - destruct (assoc m' a) as [b|] eqn:E'; [|reflexivity].
    apply (assoc_in _ _ _ Hnd') in E'.
    apply (Permutation_in _ (Permutation_sym Hp)) in E'.
    apply (assoc_in _ _ _ Hnd) in E'. congruence.
Qed.

Lemma op_REMAP_data (g g' : Grid) (mapping : list (Z * Z)) :
  NoDup (map fst mapping) ->
  op_REMAP g mapping = Ok g' ->
  data g'
  = mk_ndarray (shape0 (data g)) (shape1 (data g))
      (map (map (remap_cell mapping)) (rows (data g))).
Proof.
  intros Hnd H. rewrite op_REMAP_spec in H.
  destruct (values_fit mapping); [|discriminate]. injection H as <-.
  cbn [data]. rewrite fold_masked_assign. f_equal.
  apply map_ext; intros r. apply map_ext; intros o.
  unfold remap_cell. now rewrite assign_cell_assoc.
Qed.

Lemma op_REMAP_returns (g : Grid) (mapping : list (Z * Z)) :
  returns (op_REMAP g mapping) <-> values_fit mapping = true.
Proof.
  rewrite op_REMAP_spec. unfold returns.
  destruct (values_fit mapping); split; eauto; try discriminate.
  intros [a H]; discriminate.
Qed.

Lemma values_fit_perm (m m' : list (Z * Z)) :
  Permutation m m' -> values_fit m = values_fit m'.
Proof.
  unfold values_fit. intros Hp.
  destruct (forallb _ m) eqn:E; destruct (forallb _ m') eqn:E'; try reflexivity.
  - rewrite forallb_forall in E.
    assert (forallb (fun ab => int64_ok (snd ab)) m' = true); [|congruence].
    apply forallb_forall. intros x Hx. apply E.
    eapply Permutation_in; [apply Permutation_sym; exact Hp|exact Hx].
  - rewrite forallb_forall in E'.
    assert (forallb (fun ab => int64_ok (snd ab)) m = true); [|congruence].
    apply forallb_forall. intros x Hx. apply E'.
    eapply Permutation_in; [exact Hp|exact Hx].
Qed.

(** C8. For a mapping with pairwise distinct keys, REMAP returns exactly when
    the values of the mapping fit the 64-bit cells; every cell of its result
    is then the mapped value of the original cell when that value is a key and
    the original value otherwise, the shape is kept, and listing the entries
    of the mapping in another order gives the same array. *)
Theorem op_REMAP_order_independent (g : Grid) (mapping : list (Z * Z)) :
  NoDup (map fst mapping) ->
  (returns (op_REMAP g mapping) <-> values_fit mapping = true)
  /\ forall g', op_REMAP g mapping = Ok g' ->
       shape0 (data g') = shape0 (data g)
       /\ shape1 (data g') = shape1 (data g)
       /\ rows (data g') = map (map (remap_cell mapping)) (rows (data g))
       /\ forall mapping', Permutation mapping mapping' ->
            exists g'', op_REMAP g mapping' = Ok g'' /\ data g'' = data g'.
Proof.
  intros Hnd. split; [apply op_REMAP_returns|].
  intros g' Hg'. pose proof (op_REMAP_data g g' mapping Hnd Hg') as E.
  do 3 (split; [rewrite E; reflexivity|]).
  intros m' Hp.
  assert (Hfit : values_fit m' = true).
  { rewrite <- (values_fit_perm _ _ Hp). apply (proj1 (op_REMAP_returns g mapping)).
    now exists g'. }
  apply (proj2 (op_REMAP_returns g m')) in Hfit. destruct Hfit as [g'' Hg''].
  exists g''. split; [exact Hg''|].
  rewrite E, (op_REMAP_data g g'' m').
  - f_equal. apply map_ext; intros r. apply map_ext; intros o.
    unfold remap_cell. now rewrite (assoc_perm mapping m' o Hnd Hp).
  - eapply Permutation_NoDup; [apply Permutation_map; exact Hp|exact Hnd].
  - exact Hg''.
Qed.

Lemma op_REMAP_order_independent_witness :
  exists g',
    op_REMAP (mk_Grid (mk_ndarray 2 2 [[1; 2]; [2; 3]]) []) [(1, 2); (2, 1)] = Ok g'
    /\ rows (data g') = map (map (remap_cell [(1, 2); (2, 1)])) [[1; 2]; [2; 3]]
    /\ exists g'',
         op_REMAP (mk_Grid (mk_ndarray 2 2 [[1; 2]; [2; 3]]) []) [(2, 1); (1, 2)] = Ok g''
         /\ data g'' = data g'.
Proof.
  assert (Hnd : NoDup (map fst [(1, 2); (2, 1)])).
  { repeat constructor; simpl; intuition discriminate. }
  destruct (op_REMAP_order_independent
              (mk_Grid (mk_ndarray 2 2 [[1; 2]; [2; 3]]) []) [(1, 2); (2, 1)] Hnd)
    as [_ H].
  eexists. split; [reflexivity|].
  destruct (H _ eq_refl) as (_ & _ & Hrows & Hperm).
  split; [exact Hrows|].
  apply Hperm. apply perm_swap.
Defined.

End ScrollCore.

(** * Properties of [patcher_nova] *)

Module PatcherNova.

(** ** The move vocabulary *)

(** C9, as the code has it: the vocabulary holds twelve moves, not thirteen. *)
Lemma op_space_size_not_13 : length _op_space <> 13%nat.
Proof. vm_compute; discriminate. Qed.

(** C9 (amended). The moves are exactly ROT90(k) alone for k in 1..3,
    FLIP(axis) alone for axis in 0..1, TRANSPOSE alone, and ROT90(k) followed
    by FLIP(axis) for the six combinations, in this order and without
    repetition: twelve moves in all. *)
Theorem op_space_vocabulary :
  _op_space
  = [ [step_ROT90 1]; [step_ROT90 2]; [step_ROT90 3];
      [step_FLIP 0]; [step_FLIP 1];
      [step_TRANSPOSE];
      [step_ROT90 1; step_FLIP 0]; [step_ROT90 1; step_FLIP 1];
      [step_ROT90 2; step_FLIP 0]; [step_ROT90 2; step_FLIP 1];
      [step_ROT90 3; step_FLIP 0]; [step_ROT90 3; step_FLIP 1] ]
  /\ length _op_space = 12%nat
  /\ NoDup _op_space
  /\ forall move,
       In move _op_space <->
       (exists k, (k = 1 \/ k = 2 \/ k = 3) /\ move = [step_ROT90 k])
       \/ (exists axis, (axis = 0 \/ axis = 1) /\ move = [step_FLIP axis])
       \/ move = [step_TRANSPOSE]
       \/ (exists k axis, (k = 1 \/ k = 2 \/ k = 3) /\ (axis = 0 \/ axis = 1)
                          /\ move = [step_ROT90 k; step_FLIP axis]).
Proof.
  split; [reflexivity|]. split; [reflexivity|]. split.
  - vm_compute. repeat (constructor; [simpl; intuition discriminate|]). constructor.
  - intros move. change _op_space with
      [ [step_ROT90 1]; [step_ROT90 2]; [step_ROT90 3];
        [step_FLIP 0]; [step_FLIP 1]; [step_TRANSPOSE];
        [step_ROT90 1; step_FLIP 0]; [step_ROT90 1; step_FLIP 1];
        [step_ROT90 2; step_FLIP 0]; [step_ROT90 2; step_FLIP 1];
        [step_ROT90 3; step_FLIP 0]; [step_ROT90 3; step_FLIP 1] ].
    split.
    + simpl. intros H.
      repeat (destruct H as [<-|H]; [eauto 12|]); [contradiction].
    + intros [(k & Hk & ->)|[(a & Ha & ->)|[->|(k & a & Hk & Ha & ->)]]];
        simpl; intuition (subst; auto 15).
Qed.

(** ** Sorted values and dicts built from them *)

Lemma insert_uniq_in (v x : Z) (l : list Z) :
  In x (insert_uniq v l) <-> x = v \/ In x l.
Proof.
  induction l as [|y l IH]; simpl.
  - intuition.
  - destruct (Z.ltb_spec v y); [simpl; intuition|].
    destruct (Z.eqb_spec v y); simpl; [subst; intuition|].
    rewrite IH; intuition.
Qed.

Lemma insert_uniq_hd (v x : Z) (l : list Z) :
  x < v -> HdRel Z.lt x l -> HdRel Z.lt x (insert_uniq v l).
Proof.
  intros Hx Hl; destruct l as [|y l]; simpl; [now constructor|].
  destruct (Z.ltb_spec v y); [now constructor|].
  destruct (Z.eqb_spec v y); [assumption|].
  inversion Hl; subst; now constructor.
Qed.

Lemma insert_uniq_sorted (v : Z) (l : list Z) :
  Sorted Z.lt l -> Sorted Z.lt (insert_uniq v l).
Proof.
  induction l as [|y l IH]; simpl; intros Hs.
  - repeat constructor.
  - destruct (Z.ltb_spec v y); [constructor; [assumption|now constructor]|].
    destruct (Z.eqb_spec v y); [assumption|].
    inversion Hs; subst. constructor; [auto|].
    apply insert_uniq_hd; [lia|assumption].
Qed.

Lemma np_unique_sorted (a : ndarray) : Sorted Z.lt (np_unique a).
Proof.
  unfold np_unique; induction (flatten a) as [|v l IH]; simpl;
    [constructor|now apply insert_uniq_sorted].
Qed.

Lemma np_unique_in (a : ndarray) (x : Z) : In x (np_unique a) <-> In x (flatten a).
Proof.
  unfold np_unique; induction (flatten a) as [|v l IH]; simpl; [tauto|].
  rewrite insert_uniq_in, IH; intuition.
Qed.

Lemma sorted_lt_NoDup (l : list Z) : Sorted Z.lt l -> NoDup l.
Proof.
  intros Hs. apply Sorted_StronglySorted in Hs; [|exact Z.lt_trans].
  induction Hs as [|x l Hs IH Hx]; constructor; auto.
  intros Hin. rewrite Forall_forall in Hx. specialize (Hx _ Hin). lia.
Qed.

Lemma np_unique_NoDup (a : ndarray) : NoDup (np_unique a).
Proof. apply sorted_lt_NoDup, np_unique_sorted. Qed.

Lemma sorted_id (l : list Z) : Sorted Z.lt l -> sorted l = l.
Proof.
  unfold sorted; induction l as [|x l IH]; simpl; intros Hs; [reflexivity|].
  inversion Hs as [|? ? Hs' Hhd]; subst. rewrite (IH Hs').
  destruct l as [|y l]; simpl; [reflexivity|].
  inversion Hhd; subst.
  destruct (Z.ltb_spec x y); [reflexivity|lia].
Qed.

Lemma dict_set_fresh (d : list (Z * Z)) (k v : Z) :
  ~ In k (map fst d) -> dict_set d k v = d ++ [(k, v)].
Proof.
  induction d as [|[k' v'] d IH]; simpl; intros H; [reflexivity|].
  destruct (Z.eqb_spec k' k); [exfalso; auto|].
  rewrite IH; auto.
Qed.

Lemma dict_of_items_NoDup (items : list (Z * Z)) :
  NoDup (map fst items) -> dict_of_items items = items.
Proof.
  unfold dict_of_items.
  enough (G : forall d, NoDup (map fst (d ++ items)) ->
            fold_left (fun d kv => dict_set d (fst kv) (snd kv)) items d = d ++ items)
    by (intros H; apply (G [] H)).
  induction items as [|[k v] items IH]; intros d Hnd; simpl.
  - now rewrite app_nil_r.
  - rewrite dict_set_fresh.
    + rewrite IH; rewrite <- app_assoc; [reflexivity|exact Hnd].
    + rewrite map_app in Hnd; simpl in Hnd.
      apply NoDup_remove_2 in Hnd. intros Hin; apply Hnd, in_or_app; auto.
Qed.

(** ** The scorer *)

Lemma score_loop_spec (scroll : list pydict) (pairs : list (Grid * Grid)) (scores : list Q) :
  score_loop scroll pairs scores = scores ++ map (pair_score scroll) pairs.
Proof.
  revert scores; induction pairs as [|[x y] pairs IH]; intros scores; simpl.
  - now rewrite app_nil_r.
  - unfold pair_score, array_equal, shape_similarity; simpl.
    destruct (apply_scroll scroll x) as [g|e];
      [destruct (shape_eqb (data g) (data y) && cells_eqb (data g) (data y))|];
      rewrite IH, <- app_assoc; reflexivity.
Qed.

Lemma score_prog_spec (scroll : list pydict) (xs ys : list Grid) :
  score_prog scroll xs ys
  = match combine xs ys with
    | [] => 0%Q
    | pairs => np_mean (map (pair_score scroll) pairs)
    end.
Proof.
  unfold score_prog. rewrite score_loop_spec; simpl.
  destruct (combine xs ys); reflexivity.
Qed.

Lemma count_nonneg (l : list Z) (v : Z) : 0 <= count l v.
Proof. unfold count; lia. Qed.

Lemma assoc_map_count (l vals : list Z) (c : Z) :
  assoc (map (fun v => (v, count l v)) vals) c
  = if memZ c vals then Some (count l c) else None.
Proof.
  unfold memZ; induction vals as [|v vals IH]; simpl; [reflexivity|].
  rewrite (Z.eqb_sym c v).
  destruct (Z.eqb_spec v c) as [->|Hne]; simpl; [reflexivity|exact IH].
Qed.

Lemma palette_eq (a : ndarray) :
  palette a = map (fun v => (v, count (flatten a) v)) (np_unique a).
Proof.
  unfold palette. apply dict_of_items_NoDup.
  rewrite map_map; simpl. rewrite map_id. apply np_unique_NoDup.
Qed.

Lemma pal_get_nonneg (a : ndarray) (c : Z) : 0 <= pal_get (palette a) c.
Proof.
  unfold pal_get. rewrite palette_eq, assoc_map_count.
  destruct (memZ c (np_unique a)); [apply count_nonneg|lia].
Qed.

Lemma Zsum_le (f h : Z -> Z) (l : list Z) :
  (forall c, f c <= h c) -> Zsum (map f l) <= Zsum (map h l).
Proof.
  intros H; induction l as [|c l IH]; simpl; [lia|].
  specialize (H c); lia.
Qed.

Lemma Zsum_nonneg (f : Z -> Z) (l : list Z) :
  (forall c, 0 <= f c) -> 0 <= Zsum (map f l).
Proof.
  intros H; induction l as [|c l IH]; simpl; [lia|].
  specialize (H c); lia.
Qed.

Lemma inject_Z_pos (z : Z) : 0 < z -> (0 < inject_Z z)%Q.
Proof. intros H. change 0%Q with (inject_Z 0). now rewrite <- Zlt_Qlt. Qed.

Lemma inject_Z_nonneg (z : Z) : 0 <= z -> (0 <= inject_Z z)%Q.
Proof. intros H. change 0%Q with (inject_Z 0). now rewrite <- Zle_Qle. Qed.

Lemma ratio_bounds (num den : Z) :
  0 <= num <= den -> 0 < den -> (0 <= inject_Z num / inject_Z den <= 1)%Q.
Proof.
  intros [H0 H1] Hd.
  pose proof (inject_Z_pos den Hd) as Hq.
  pose proof (inject_Z_nonneg num H0) as Hn.
  assert (Hle : (inject_Z num <= inject_Z den)%Q) by now rewrite <- Zle_Qle.
  split.
  - apply Qle_shift_div_l; [exact Hq|lra].
  - apply Qle_shift_div_r; [exact Hq|lra].
Qed.

Lemma palette_similarity_bounds (a b : ndarray) :
  (0 <= palette_similarity a b <= 1)%Q.
Proof.
  unfold palette_similarity.
  destruct (set_union _ _) as [|c colors]; [lra|].
  set (cs := c :: colors).
  destruct (Z.ltb_spec 0 (Zsum (map (fun c => Z.max (pal_get (palette a) c)
                                               (pal_get (palette b) c)) cs)));
    [|lra].
  apply ratio_bounds; [|assumption]. split.
  - apply Zsum_nonneg; intros c'.
    pose proof (pal_get_nonneg a c'); pose proof (pal_get_nonneg b c'); lia.
  - apply Zsum_le; intros c'; lia.
Qed.

Lemma pair_score_bounds (scroll : list pydict) (xy : Grid * Grid) :
  (0 <= pair_score scroll xy <= 1)%Q.
Proof.
  unfold pair_score, shape_similarity.
  destruct (apply_scroll scroll (fst xy)) as [g|e]; [|lra].
  destruct (array_equal _ _); [lra|].
  pose proof (palette_similarity_bounds (data g) (data (snd xy))).
  destruct (shape_eqb _ _); lra.
Qed.

Lemma inject_length_succ {A : Type} (x : A) (l : list A) :
  (inject_Z (Z.of_nat (length (x :: l))) == 1 + inject_Z (Z.of_nat (length l)))%Q.
Proof.
  simpl length. rewrite Nat2Z.inj_succ, <- Z.add_1_l, inject_Z_plus. reflexivity.
Qed.

Lemma Qsum_bounds (l : list Q) :
  Forall (fun q => 0 <= q <= 1)%Q l ->
  (0 <= Qsum l <= inject_Z (Z.of_nat (length l)))%Q.
Proof.
  induction 1 as [|q l Hq Hl IH].
  - split; unfold Qle; simpl; lia.
  - rewrite inject_length_succ. simpl Qsum. lra.
Qed.

Lemma Qsum_ones (l : list Q) :
  Forall (fun q => q == 1)%Q l -> (Qsum l == inject_Z (Z.of_nat (length l)))%Q.
Proof.
  induction 1 as [|q l Hq Hl IH].
  - reflexivity.
  - rewrite inject_length_succ. simpl Qsum. lra.
Qed.

Lemma length_pos_Q {A : Type} (l : list A) :
  l <> [] -> (0 < inject_Z (Z.of_nat (length l)))%Q.
Proof.
  intros H. apply inject_Z_pos. destruct l; [contradiction|simpl; lia].
Qed.

Lemma np_mean_bounds (l : list Q) :
  l <> [] -> Forall (fun q => 0 <= q <= 1)%Q l -> (0 <= np_mean l <= 1)%Q.
Proof.
  intros Hne Hl. pose proof (Qsum_bounds l Hl) as [H0 H1].
  pose proof (length_pos_Q l Hne) as Hp. unfold np_mean. split.
  - apply Qle_shift_div_l; [exact Hp|lra].
  - apply Qle_shift_div_r; [exact Hp|lra].
Qed.

Lemma np_mean_ones (l : list Q) :
  l <> [] -> Forall (fun q => q == 1)%Q l -> (np_mean l == 1)%Q.
Proof.
  intros Hne Hl. pose proof (length_pos_Q l Hne) as Hp.
  unfold np_mean. rewrite (Qsum_ones l Hl). field. lra.
Qed.

(** C4. [score_prog] is the arithmetic mean, over the pairs, of the per-pair
    scores (1 on an exact match, 0.7 * palette similarity + 0.3 * shape
    similarity for another executed pair, 0 for a failed one); it lies in
    [0, 1], is 1 when there is a pair and every pair matches exactly, and is 0
    for an empty list of pairs. *)
Theorem score_prog_mean_bounds (scroll : list pydict) (xs ys : list Grid) :
  (combine xs ys <> [] ->
   score_prog scroll xs ys = np_mean (map (pair_score scroll) (combine xs ys)))
  /\ (0 <= score_prog scroll xs ys <= 1)%Q
  /\ (combine xs ys <> [] -> Forall (exact_on scroll) (combine xs ys) ->
      (score_prog scroll xs ys == 1)%Q)
  /\ (combine xs ys = [] -> score_prog scroll xs ys = 0%Q).
Proof.
  rewrite score_prog_spec.
  destruct (combine xs ys) as [|xy pairs] eqn:E.
  - repeat split; try lra; intros H; congruence.
  - split; [reflexivity|]. split; [|split; [|discriminate]].
    + apply np_mean_bounds; [discriminate|].
      apply Forall_forall; intros q Hq. apply in_map_iff in Hq.
      destruct Hq as (p & <- & _). apply pair_score_bounds.
    + intros _ Hall. apply np_mean_ones; [discriminate|].
      apply Forall_forall; intros q Hq. apply in_map_iff in Hq.
      destruct Hq as (p & <- & Hp).
      rewrite Forall_forall in Hall. destruct (Hall p Hp) as (g & Hg & Heq).
      unfold pair_score. rewrite Hg, Heq. reflexivity.
Qed.

Lemma score_prog_mean_bounds_witness :
  Qeq (score_prog [step_ROT90 1] [g_12] [g_21]) 1%Q.
Proof.
  apply (score_prog_mean_bounds [step_ROT90 1] [g_12] [g_21]).
  - discriminate.
  - repeat constructor. eexists; split; reflexivity.
Defined.

(** C6. A pair on whose input the scroll raises is given the score 0, the
    pairs before and after it are still scored, and the result is the mean
    over all of them: [score_prog] returns a number whatever [apply_scroll]
    does. *)
Theorem score_prog_catches_failure (scroll : list pydict)
  (xs1 xs2 ys1 ys2 : list Grid) (x y : Grid) (e : exn) :
  length xs1 = length ys1 ->
  apply_scroll scroll x = Raise e ->
  pair_score scroll (x, y) = 0%Q
  /\ score_loop scroll (combine (xs1 ++ x :: xs2) (ys1 ++ y :: ys2)) []
     = map (pair_score scroll) (combine xs1 ys1)
       ++ 0%Q :: map (pair_score scroll) (combine xs2 ys2)
  /\ score_prog scroll (xs1 ++ x :: xs2) (ys1 ++ y :: ys2)
     = np_mean (map (pair_score scroll) (combine xs1 ys1)
                ++ 0%Q :: map (pair_score scroll) (combine xs2 ys2)).
Proof.
  intros Hlen Hraise.
  assert (H0 : pair_score scroll (x, y) = 0%Q)
    by (unfold pair_score; simpl; now rewrite Hraise).
  assert (Hc : combine (xs1 ++ x :: xs2) (ys1 ++ y :: ys2)
               = combine xs1 ys1 ++ (x, y) :: combine xs2 ys2).
  { clear - Hlen. revert ys1 Hlen; induction xs1 as [|a xs1 IH];
      intros [|b ys1] Hlen; simpl in *; try discriminate; [reflexivity|].
    now rewrite IH by lia. }
  split; [exact H0|]. split.
  - rewrite score_loop_spec, Hc, map_app; simpl. now rewrite H0.
  - rewrite score_prog_spec, Hc.
    destruct (combine xs1 ys1 ++ (x, y) :: combine xs2 ys2) eqn:E.
    + destruct (combine xs1 ys1); discriminate.
    + rewrite <- E, map_app; simpl. now rewrite H0.
Qed.

Lemma score_prog_catches_failure_witness :
  score_prog [step_FLIP 2] ([g_1] ++ g_2 :: []) ([g_1] ++ g_2 :: [])
  = np_mean (map (pair_score [step_FLIP 2]) (combine [g_1] [g_1])
             ++ 0%Q :: map (pair_score [step_FLIP 2]) (combine [] [])).
Proof.
  apply (score_prog_catches_failure [step_FLIP 2] [g_1] [] [g_1] [] g_2 g_2
           (ValueError "axis must be 0 or 1")).
  - reflexivity.
  - reflexivity.
Defined.

(** ** The seeded REMAP candidate *)

Lemma list_eqb_refl {A : Type} (eqb : A -> A -> bool) (l : list A) :
  (forall x, eqb x x = true) -> list_eqb eqb l l = true.
Proof. intros H; induction l as [|x l IH]; simpl; [|rewrite H, IH]; reflexivity. Qed.

Lemma array_equal_refl (a : ndarray) : array_equal a a = true.
Proof.
  unfold array_equal, shape_eqb, cells_eqb. rewrite !Nat.eqb_refl; simpl.
  apply list_eqb_refl; intros r. apply list_eqb_refl, Z.eqb_refl.
Qed.

Lemma forallb_length_map (pi : Z -> Z) (n : nat) (lst : list (list Z)) :
  forallb (fun r => Nat.eqb (length r) n) (map (map pi) lst)
  = forallb (fun r => Nat.eqb (length r) n) lst.
Proof.
  induction lst as [|r lst IH]; simpl; [reflexivity|].
  now rewrite length_map, IH.
Qed.

Lemma np_array_recolour (pi : Z -> Z) (lst : list (list Z)) (a : ndarray) :
  np_array lst = Ok a -> cells_fit (map (map pi) lst) = true ->
  np_array (map (map pi) lst) = Ok (recolour pi a).
Proof.
  intros H Hfit. apply ScrollCore.np_array_inv in H.
  destruct H as (r & lst' & -> & Hrect & _ & ->).
  change (map (map pi) (r :: lst')) with (map pi r :: map (map pi) lst') in *.
  rewrite ScrollCore.np_array_intro; [|rewrite length_map|exact Hfit].
  - unfold recolour; cbn [shape0 shape1 rows length map].
    now rewrite !length_map.
  - change (map pi r :: map (map pi) lst') with (map (map pi) (r :: lst')).
    now rewrite forallb_length_map.
Qed.

Lemma from_list_recolour (pi : Z -> Z) (lst : list (list Z)) (g : Grid) :
  from_list lst = Ok g -> cells_fit (map (map pi) lst) = true ->
  from_list (map (map pi) lst) = Ok (mk_Grid (recolour pi (data g)) []).
Proof.
  unfold from_list. intros H Hfit. apply ScrollCore.bind_ok in H.
  destruct H as (a & Ha & [= <-]).
  now rewrite (np_array_recolour pi lst a Ha Hfit).
Qed.

Lemma from_list_flatten (lst : list (list Z)) (g : Grid) :
  from_list lst = Ok g -> flatten (data g) = concat lst.
Proof.
  unfold from_list. intros H. apply ScrollCore.bind_ok in H.
  destruct H as (a & Ha & [= <-]). apply ScrollCore.np_array_inv in Ha.
  destruct Ha as (r & lst' & -> & _ & _ & ->). reflexivity.
Qed.

Lemma flatten_recolour (pi : Z -> Z) (a : ndarray) :
  flatten (recolour pi a) = map pi (flatten a).
Proof. unfold flatten, recolour; simpl. now rewrite concat_map. Qed.

Section Monotone.

Variable pi : Z -> Z.

Lemma insert_uniq_map (v : Z) (l : list Z) :
  increasing_on pi (v :: l) ->
  insert_uniq (pi v) (map pi l) = map pi (insert_uniq v l).
Proof.
  induction l as [|x l IH]; intros Hinc; simpl; [reflexivity|].
  assert (Hvx : forall a b, (a = v \/ a = x) -> (b = v \/ b = x) -> a < b -> pi a < pi b).
  { intros a b Ha Hb. apply Hinc; simpl; intuition. }
  destruct (Z.ltb_spec v x) as [Hlt|Hge].
  - pose proof (Hvx v x (or_introl eq_refl) (or_intror eq_refl) Hlt) as H.
    destruct (Z.ltb_spec (pi v) (pi x)); [reflexivity|lia].
  - destruct (Z.eqb_spec v x) as [->|Hne].
    + rewrite Z.ltb_irrefl, Z.eqb_refl. reflexivity.
    + assert (Hxv : x < v) by lia.
      pose proof (Hvx x v (or_intror eq_refl) (or_introl eq_refl) Hxv) as H.
      destruct (Z.ltb_spec (pi v) (pi x)); [lia|].
      destruct (Z.eqb_spec (pi v) (pi x)); [lia|].
      simpl. rewrite IH; [reflexivity|].
      intros a b Ha Hb. apply Hinc; simpl in *; intuition.
Qed.

Lemma fold_insert_uniq_in (l : list Z) (x : Z) :
  In x (fold_right insert_uniq [] l) <-> In x l.
Proof.
  induction l as [|v l IH]; simpl; [tauto|].
  rewrite insert_uniq_in, IH; intuition.
Qed.

Lemma np_unique_recolour (a : ndarray) :
  increasing_on pi (flatten a) ->
  np_unique (recolour pi a) = map pi (np_unique a).
Proof.
  unfold np_unique. rewrite flatten_recolour.
  induction (flatten a) as [|v l IH]; intros Hinc; simpl; [reflexivity|].
  rewrite IH.
  - apply insert_uniq_map. intros x y Hx Hy. apply Hinc.
    + destruct Hx as [<-|Hx]; [now left|right; now apply fold_insert_uniq_in].
    + destruct Hy as [<-|Hy]; [now left|right; now apply fold_insert_uniq_in].
  - intros x y Hx Hy. apply Hinc; now right.
Qed.

Lemma combine_map_r (l : list Z) : combine l (map pi l) = map (fun c => (c, pi c)) l.
Proof. induction l as [|c l IH]; simpl; [|rewrite IH]; reflexivity. Qed.

Lemma map_pi_sorted (l : list Z) :
  increasing_on pi l -> Sorted Z.lt l -> Sorted Z.lt (map pi l).
Proof.
  intros Hinc Hs. apply Sorted_StronglySorted in Hs; [|exact Z.lt_trans].
  induction Hs as [|x l Hs IH Hx]; simpl; constructor.
  - apply IH. intros a b Ha Hb. apply Hinc; now right.
  - rewrite Forall_forall in Hx. destruct l as [|y l]; simpl; constructor.
    apply Hinc; simpl; auto. apply Hx; now left.
Qed.

(** The mapping inferred for a pair recoloured by an increasing [pi]. *)
Lemma infer_remap_recolour (a : ndarray) :
  increasing_on pi (flatten a) ->
  _infer_remap a (recolour pi a) = Some (map (fun c => (c, pi c)) (np_unique a)).
Proof.
  intros Hinc. unfold _infer_remap.
  assert (Hu : increasing_on pi (np_unique a)).
  { intros x y Hx Hy. apply Hinc; now apply np_unique_in. }
  rewrite (np_unique_recolour a Hinc).
  rewrite (sorted_id (np_unique a) (np_unique_sorted a)).
  rewrite (sorted_id (map pi (np_unique a)))
    by (apply map_pi_sorted; [exact Hu|apply np_unique_sorted]).
  rewrite length_map, Nat.eqb_refl; simpl.
  rewrite combine_map_r, dict_of_items_NoDup; [reflexivity|].
  rewrite map_map; simpl. rewrite map_id. apply np_unique_NoDup.
Qed.

Lemma remap_cell_inferred (vals : list Z) (c : Z) :
  remap_cell (map (fun c => (c, pi c)) vals) c = if memZ c vals then pi c else c.
Proof.
  unfold remap_cell, memZ. induction vals as [|v vals IH]; simpl; [reflexivity|].
  rewrite (Z.eqb_sym c v).
  destruct (Z.eqb_spec v c) as [->|Hne]; simpl; [reflexivity|exact IH].
Qed.

End Monotone.

Lemma memZ_in (c : Z) (l : list Z) : memZ c l = true <-> In c l.
Proof.
  unfold memZ. rewrite existsb_exists. split.
  - intros (x & Hx & E). apply Z.eqb_eq in E. now subst.
  - intros H. exists c. split; [assumption|apply Z.eqb_refl].
Qed.

Lemma apply_REMAP_scroll (m : list (Z * Z)) (g : Grid) :
  NoDup (map fst m) -> apply_scroll [step_REMAP m] g = op_REMAP g m.
Proof.
  intros Hnd. cbn [apply_scroll]. unfold apply_step.
  change (is_op (dict_get (step_REMAP m) "op") "ROT90") with false.
  change (is_op (dict_get (step_REMAP m) "op") "FLIP") with false.
  change (is_op (dict_get (step_REMAP m) "op") "TRANSPOSE") with false.
  change (is_op (dict_get (step_REMAP m) "op") "REMAP") with true.
  cbv iota. change (get_mapping (step_REMAP m)) with (Ok (dict_of_items m)).
  cbn [bind]. rewrite dict_of_items_NoDup by exact Hnd.
  destruct (op_REMAP g m); reflexivity.
Qed.

Lemma score_prog_exact (scroll : list pydict) (xs ys : list Grid) :
  combine xs ys <> [] -> Forall (exact_on scroll) (combine xs ys) ->
  (score_prog scroll xs ys == 1)%Q.
Proof.
  intros Hne Hall. rewrite score_prog_spec.
  destruct (combine xs ys) as [|xy pairs]; [contradiction|].
  apply np_mean_ones; [discriminate|].
  apply Forall_forall; intros q Hq. apply in_map_iff in Hq.
  destruct Hq as (p & <- & Hp).
  rewrite Forall_forall in Hall. destruct (Hall p Hp) as (g & Hg & Heq).
  unfold pair_score. rewrite Hg, Heq. reflexivity.
Qed.

Lemma array_equal_shape (a b : ndarray) : array_equal a b = true -> shape_eqb a b = true.
Proof. unfold array_equal. intros H; apply andb_prop in H; tauto. Qed.

Lemma eval_loop_exact (scroll : list pydict) (pairs : list (Grid * Grid)) (i : Z) :
  Forall (exact_on scroll) pairs ->
  eval_loop scroll pairs i = Ok (true, "exact match"%string).
Proof.
  intros Hall; revert i; induction Hall as [|[x y] pairs (g & Hg & Heq) _ IH];
    intros i; simpl; [reflexivity|].
  simpl in Hg, Heq. rewrite Hg; simpl.
  rewrite Heq, (array_equal_shape _ _ Heq); simpl. apply IH.
Qed.

Lemma mapM_Forall2 {A B : Type} (f : A -> result B) (l : list A) (bs : list B) :
  mapM f l = Ok bs -> Forall2 (fun a b => f a = Ok b) l bs.
Proof.
  revert bs; induction l as [|a l IH]; intros bs; simpl.
  - intros [= <-]; constructor.
  - intros H. apply ScrollCore.bind_ok in H. destruct H as (b & Hb & H).
    apply ScrollCore.bind_ok in H. destruct H as (bs' & Hbs & [= <-]).
    constructor; auto.
Qed.

Lemma combine_map_diag {A B : Type} (f : A -> B) (l : list A) :
  combine l (map f l) = map (fun a => (a, f a)) l.
Proof. induction l as [|a l IH]; simpl; [|rewrite IH]; reflexivity. Qed.

Section Recoloured.

Variable pi : Z -> Z.

Lemma mapM_outputs (task : list train_pair) (xs : list Grid) :
  Forall (fun p => output p = map (map pi) (input p)) task ->
  Forall (fun p => cells_fit (output p) = true) task ->
  Forall2 (fun p g => from_list (input p) = Ok g) task xs ->
  mapM (fun p => from_list (output p)) task = Ok (map (regrid pi) xs).
Proof.
  intros Hout Hfit H2; induction H2 as [|p g task xs Hp _ IH]; simpl; [reflexivity|].
  inversion Hout as [|? ? Hp' Hout']; subst.
  inversion Hfit as [|? ? Hf' Hfit']; subst.
  rewrite Hp' in *. rewrite (from_list_recolour pi _ _ Hp Hf'); simpl.
  rewrite (IH Hout' Hfit'); reflexivity.
Qed.

(** The colours of the first input. *)
Variable base : list Z.

Lemma covered_grids (task : list train_pair) (xs : list Grid) :
  Forall (fun p => covered pi base (concat (input p))) task ->
  Forall2 (fun p g => from_list (input p) = Ok g) task xs ->
  Forall (fun g => covered pi base (flatten (data g))) xs.
Proof.
  intros Hc H2; induction H2 as [|p g task xs Hp _ IH]; constructor;
    inversion Hc; subst; auto.
  now rewrite (from_list_flatten _ _ Hp).
Qed.

Lemma remap_exact_on (vals : list Z) (g : Grid) :
  NoDup vals -> (forall c, In c vals <-> In c base) ->
  (forall c, In c base -> int64_ok (pi c) = true) ->
  covered pi base (flatten (data g)) ->
  exact_on [step_REMAP (map (fun c => (c, pi c)) vals)] (g, regrid pi g).
Proof.
  intros Hnd Hvals Hfit Hcov.
  assert (Hk : NoDup (map fst (map (fun c => (c, pi c)) vals)))
    by (rewrite map_map; simpl; now rewrite map_id).
  assert (Hv : values_fit (map (fun c => (c, pi c)) vals) = true).
  { unfold values_fit. apply forallb_forall. intros ab Hab.
    apply in_map_iff in Hab. destruct Hab as (c & <- & Hc).
    apply Hfit. now apply Hvals. }
  apply (proj2 (ScrollCore.op_REMAP_returns g _)) in Hv. destruct Hv as [g' Hg'].
  exists g'. split.
  - cbn [fst]. rewrite apply_REMAP_scroll by exact Hk. exact Hg'.
  - cbn [snd regrid data]. rewrite (ScrollCore.op_REMAP_data _ _ _ Hk Hg').
    replace (map (map (remap_cell (map (fun c => (c, pi c)) vals))) (rows (data g)))
      with (map (map pi) (rows (data g))); [apply array_equal_refl|].
    apply map_ext_in; intros r Hr. apply map_ext_in; intros c Hc.
    rewrite remap_cell_inferred.
    destruct (memZ c vals) eqn:E; [reflexivity|].
    assert (Hin : In c (flatten (data g)))
      by (unfold flatten; apply in_concat; eauto).
    destruct (Hcov c Hin) as [Hb|Hfix]; [|now rewrite Hfix].
    apply Hvals, memZ_in in Hb. congruence.
Qed.

End Recoloured.

(** C3, as stated, fails: exchanging the colours 1 and 2 is a colour
    permutation, yet the seeded mapping is the identity on the sorted colour
    sets, the seeded scroll scores 13/20 and [eval_scroll] reports a mismatch. *)
Lemma seeded_remap_swap_fails :
  (forall c, swap12 (swap12 c) = c)
  /\ Forall (fun p => output p = map (map swap12) (input p)) task_swap
  /\ exists xs ys rm,
       mapM (fun p => from_list (input p)) task_swap = Ok xs
       /\ mapM (fun p => from_list (output p)) task_swap = Ok ys
       /\ seeded_remap xs ys = Some rm
       /\ ~ (score_prog rm xs ys == 1)%Q
       /\ eval_scroll rm task_swap = Ok (false, "mismatch on pair 1"%string).
Proof.
  split; [|split].
  - intros c; unfold swap12.
    destruct (Z.eqb_spec c 1) as [->|H1]; [reflexivity|].
    destruct (Z.eqb_spec c 2) as [->|H2]; [reflexivity|].
    destruct (Z.eqb_spec c 1); [contradiction|].
    destruct (Z.eqb_spec c 2); [contradiction|reflexivity].
  - repeat constructor.
  - do 3 eexists. split; [reflexivity|]. split; [reflexivity|].
    split; [reflexivity|]. split; [|reflexivity].
    vm_compute. discriminate.
Qed.

(** C3 (amended). When every output is its input recoloured cell by cell by
    one function [pi] that is strictly increasing on the colours of the first
    input and leaves in place every colour that occurs in another input but
    not in the first, the seeded REMAP scroll, which exists as soon as the
    first input has a cell, scores 1 under [score_prog] and [eval_scroll]
    reports an exact match; the recoloured grids are grids, that is, their
    cells fit 64 bits. *)
Theorem seeded_remap_exact (pi : Z -> Z) (p0 : train_pair) (rest : list train_pair)
  (xs : list Grid) :
  Forall (fun p => output p = map (map pi) (input p)) (p0 :: rest) ->
  Forall (fun p => cells_fit (output p) = true) (p0 :: rest) ->
  mapM (fun p => from_list (input p)) (p0 :: rest) = Ok xs ->
  increasing_on pi (concat (input p0)) ->
  Forall (fun p => covered pi (concat (input p0)) (concat (input p))) (p0 :: rest) ->
  exists ys,
    mapM (fun p => from_list (output p)) (p0 :: rest) = Ok ys
    /\ (concat (input p0) <> [] -> seeded_remap xs ys <> None)
    /\ forall rm, seeded_remap xs ys = Some rm ->
         (score_prog rm xs ys == 1)%Q
         /\ eval_scroll rm (p0 :: rest) = Ok (true, "exact match"%string).
Proof.
  intros Hout Hfit Hxs Hinc Hcov.
  pose proof (mapM_Forall2 _ _ _ Hxs) as H2.
  pose proof (mapM_outputs pi _ _ Hout Hfit H2) as Hys.
  assert (Hbase : forall c, In c (concat (input p0)) -> int64_ok (pi c) = true).
  { inversion Hout as [|? ? Ho _]; inversion Hfit as [|? ? Hf _]; subst.
    rewrite Ho in Hf. unfold cells_fit in Hf. intros c Hc.
    apply in_concat in Hc. destruct Hc as (r & Hr & Hc).
    rewrite forallb_forall in Hf.
    specialize (Hf (map pi r) (in_map _ _ _ Hr)).
    rewrite forallb_forall in Hf. apply Hf. now apply in_map. }
  pose proof (covered_grids pi _ _ _ Hcov H2) as Hgrids.
  exists (map (regrid pi) xs). split; [exact Hys|].
  inversion H2 as [|? x0 ? xs' Hx0 H2']; subst.
  pose proof (from_list_flatten _ _ Hx0) as Hflat.
  assert (Hinf : _infer_remap (data x0) (data (regrid pi x0))
                 = Some (map (fun c => (c, pi c)) (np_unique (data x0)))).
  { apply infer_remap_recolour. now rewrite Hflat. }
  cbn [map seeded_remap]. rewrite Hinf. split.
  - intros Hne. destruct (np_unique (data x0)) as [|v vals] eqn:E; [|discriminate].
    exfalso. destruct (concat (input p0)) as [|c cs] eqn:Ec; [contradiction|].
    assert (Hin : In c (np_unique (data x0)))
      by (apply np_unique_in; rewrite Hflat; now left).
    now rewrite E in Hin.
  - intros rm Hrm.
    assert (Erm : rm = [step_REMAP (map (fun c => (c, pi c)) (np_unique (data x0)))]).
    { destruct (np_unique (data x0)); simpl in Hrm; [discriminate|].
      injection Hrm as <-. reflexivity. }
    clear Hrm; subst rm.
    assert (Hall : Forall (exact_on [step_REMAP (map (fun c => (c, pi c))
                                                  (np_unique (data x0)))])
                     (combine (x0 :: xs') (map (regrid pi) (x0 :: xs')))).
    { rewrite combine_map_diag. apply Forall_forall; intros xy Hxy.
      apply in_map_iff in Hxy. destruct Hxy as (g & <- & Hg).
      apply (remap_exact_on pi (concat (input p0))).
      - apply np_unique_NoDup.
      - intros c. rewrite np_unique_in, Hflat. tauto.
      - exact Hbase.
      - rewrite Forall_forall in Hgrids. now apply Hgrids. }
    split.
    + apply score_prog_exact; [discriminate|exact Hall].
    + unfold eval_scroll. rewrite Hxs, Hys. cbn [bind].
      now apply eval_loop_exact.
Qed.

Lemma seeded_remap_exact_witness :
  exists ys,
    mapM (fun p => from_list (output p)) [mk_pair [[1; 2]; [2; 1]] [[5; 7]; [7; 5]]] = Ok ys
    /\ (concat [[1; 2]; [2; 1]] <> [] ->
        seeded_remap [grid_of 2 2 [[1; 2]; [2; 1]]] ys <> None)
    /\ forall rm, seeded_remap [grid_of 2 2 [[1; 2]; [2; 1]]] ys = Some rm ->
         Qeq (score_prog rm [grid_of 2 2 [[1; 2]; [2; 1]]] ys) 1%Q
         /\ eval_scroll rm [mk_pair [[1; 2]; [2; 1]] [[5; 7]; [7; 5]]]
            = Ok (true, "exact match"%string).
Proof.
  apply (seeded_remap_exact (fun c => 2 * c + 3)
           (mk_pair [[1; 2]; [2; 1]] [[5; 7]; [7; 5]]) []
           [grid_of 2 2 [[1; 2]; [2; 1]]]).
  - repeat constructor.
  - repeat constructor.
  - reflexivity.
  - intros a b _ _ Hab; lia.
  - constructor; [|constructor]. intros v Hv; now left.
Defined.

(** ** Canonical keys *)

Lemma op_space_unfold :
  _op_space
  = [ [step_ROT90 1]; [step_ROT90 2]; [step_ROT90 3];
      [step_FLIP 0]; [step_FLIP 1];
      [step_TRANSPOSE];
      [step_ROT90 1; step_FLIP 0]; [step_ROT90 1; step_FLIP 1];
      [step_ROT90 2; step_FLIP 0]; [step_ROT90 2; step_FLIP 1];
      [step_ROT90 3; step_FLIP 0]; [step_ROT90 3; step_FLIP 1] ].
Proof. reflexivity. Qed.

Lemma op_space_simple (m : list pydict) : In m _op_space -> simple m /\ m <> [].
Proof.
  rewrite op_space_unfold. unfold simple, move_steps. simpl.
  intros H. repeat (destruct H as [<-|H]; [split; [repeat constructor; simpl; tauto|discriminate]|]).
  contradiction.
Qed.

Lemma op_space_has_transpose : In [step_TRANSPOSE] _op_space.
Proof. rewrite op_space_unfold; simpl; tauto. Qed.

Lemma keyof_app (p q : list pydict) : keyof (p ++ q) = keyof p ++ keyof q.
Proof. apply map_app. Qed.

Lemma keyof_nil (p : list pydict) : keyof p = [] -> p = [].
Proof. destruct p; [reflexivity|discriminate]. Qed.

Lemma app_two {A : Type} (l : list A) (a b : A) : l ++ [a; b] = (l ++ [a]) ++ [b].
Proof. now rewrite <- app_assoc. Qed.

(** Only the move TRANSPOSE gives a key that ends with the key of TRANSPOSE. *)
Lemma key_tail_transpose (m : list pydict) (k1 k2 : scroll_key) :
  In m _op_space -> k1 ++ [kT] = k2 ++ keyof m -> m = [step_TRANSPOSE] /\ k1 = k2.
Proof.
  rewrite op_space_unfold. simpl. intros H E.
  repeat (destruct H as [<-|H];
    [ cbn [keyof map] in E; try rewrite app_two in E;
      apply app_inj_tail in E; destruct E as [E1 E2];
      first [ split; [reflexivity|exact E1] | vm_compute in E2; discriminate ] |]).
  contradiction.
Qed.

Lemma key_of_step_simple (step : pydict) :
  In step move_steps ->
  key_of_step step = Ok (skey step) /\ hashable_step_key (skey step) = true.
Proof.
  unfold move_steps; simpl. intros H.
  repeat (destruct H as [<-|H]; [split; reflexivity|]). contradiction.
Qed.

Lemma key_of_scroll_simple (prog : list pydict) :
  simple prog ->
  key_of_scroll prog = Ok (keyof prog) /\ hashable_key (keyof prog) = true.
Proof.
  unfold key_of_scroll, simple. induction 1 as [|step prog Hs _ [IH1 IH2]]; simpl.
  - split; reflexivity.
  - destruct (key_of_step_simple step Hs) as [E1 E2].
    rewrite E1; simpl. unfold keyof in IH1; rewrite IH1; simpl.
    split; [reflexivity|]. fold (keyof prog). now rewrite E2, IH2.
Qed.

(** On a hashable key the comparison of keys is equality. *)
Lemma list_eqb_eq {A : Type} (eqb : A -> A -> bool) (P : A -> bool) :
  (forall x y, P x = true -> (eqb x y = true <-> x = y)) ->
  forall l l', forallb P l = true -> (list_eqb eqb l l' = true <-> l = l').
Proof.
  intros Heq l; induction l as [|x l IH]; intros [|y l'] Hl; simpl in *;
    try (split; [discriminate|discriminate]); try tauto.
  apply andb_prop in Hl; destruct Hl as [Hx Hl].
  rewrite andb_true_iff, (Heq x y Hx), (IH l' Hl).
  split; [intros [-> ->]; reflexivity|intros [= -> ->]; auto].
Qed.

Lemma pyval_eqb_eq (v w : pyval) : hashable v = true -> (pyval_eqb v w = true <-> v = w).
Proof.
  destruct v as [a|a|a], w as [b|b|b]; simpl; intros H; try discriminate;
    try (split; discriminate).
  - rewrite Z.eqb_eq. split; [now intros ->|now intros [= ->]].
  - rewrite String.eqb_eq. split; [now intros ->|now intros [= ->]].
Qed.

Lemma item_eqb_eq (a b : string * pyval) :
  hashable (snd a) = true -> (item_eqb a b = true <-> a = b).
Proof.
  destruct a as [ka va], b as [kb vb]; unfold item_eqb; simpl; intros H.
  rewrite andb_true_iff, String.eqb_eq, (pyval_eqb_eq va vb H).
  split; [intros [-> ->]; reflexivity|intros [= -> ->]; auto].
Qed.

Lemma step_key_eqb_eq (a b : step_key) :
  hashable_step_key a = true -> (step_key_eqb a b = true <-> a = b).
Proof.
  destruct a as [oa ia], b as [ob ib]; unfold step_key_eqb, hashable_step_key; simpl.
  intros H; apply andb_prop in H; destruct H as [Ho Hi].
  rewrite andb_true_iff, (pyval_eqb_eq oa ob Ho).
  rewrite (list_eqb_eq item_eqb (fun it => hashable (snd it)) item_eqb_eq ia ib Hi).
  split; [intros [-> ->]; reflexivity|intros [= -> ->]; auto].
Qed.

Lemma key_eqb_eq (k k' : scroll_key) :
  hashable_key k = true -> (key_eqb k k' = true <-> k = k').
Proof. apply (list_eqb_eq step_key_eqb hashable_step_key step_key_eqb_eq). Qed.

Lemma set_contains_simple (seen : list scroll_key) (prog : list pydict) :
  simple prog ->
  exists dup, set_contains seen (keyof prog) = Ok dup
              /\ (dup = true <-> In (keyof prog) seen).
Proof.
  intros Hs. destruct (key_of_scroll_simple prog Hs) as [_ Hh].
  unfold set_contains. rewrite Hh. eexists; split; [reflexivity|].
  rewrite existsb_exists. split.
  - intros (k & Hk & E). apply (key_eqb_eq _ _ Hh) in E. now subst.
  - intros H. exists (keyof prog). split; [exact H|now apply key_eqb_eq].
Qed.

(** ** One round of the beam search *)

Lemma simple_app (p q : list pydict) : simple p -> simple q -> simple (p ++ q).
Proof. unfold simple; intros; apply Forall_app; auto. Qed.

Lemma expansion_nil (progs moves : list (list pydict)) (seen : list scroll_key) :
  (forall p m, In p progs -> In m moves -> In (keyof (p ++ m)) seen) ->
  expansion progs moves seen [] seen.
Proof.
  intros H; repeat split; auto.
  - apply incl_refl.
  - intros c [].
Qed.

Lemma expansion_seq (A B moves : list (list pydict)) (s0 s1 s2 : list scroll_key)
  (a1 a2 : list candidate) :
  expansion A moves s0 a1 s1 -> expansion B moves s1 a2 s2 ->
  expansion (A ++ B) moves s0 (a1 ++ a2) s2.
Proof.
  intros (I1 & N1 & P1 & C1) (I2 & N2 & P2 & C2). repeat split.
  - eapply incl_tran; eauto.
  - intros c Hc. apply in_app_or in Hc. destruct Hc as [Hc|Hc].
    + destruct (N1 c Hc) as (p & m & Hp & Hm & E & Hn & Hi).
      exists p, m. repeat split; auto. apply in_or_app; auto.
    + destruct (N2 c Hc) as (p & m & Hp & Hm & E & Hn & Hi).
      exists p, m. repeat split; auto. apply in_or_app; auto.
  - intros k Hk. destruct (P2 k Hk) as [Hk1|(c & Hc & E)].
    + destruct (P1 k Hk1) as [Hk0|(c & Hc & E)]; [auto|].
      right; exists c; split; [apply in_or_app|]; auto.
    + right; exists c; split; [apply in_or_app|]; auto.
  - intros p m Hp Hm. apply in_app_or in Hp. destruct Hp as [Hp|Hp]; auto.
Qed.

Section Round.

Variables xs ys : list Grid.

Lemma expand_prog_expansion (prog : list pydict) (moves : list (list pydict)) :
  simple prog -> (forall m, In m moves -> simple m) ->
  forall seen next, exists seen' added,
    expand_prog xs ys prog moves seen next = Ok (seen', next ++ added)
    /\ expansion [prog] moves seen added seen'.
Proof.
  intros Hp. induction moves as [|m moves IH]; intros Hm seen next.
  - exists seen, []. split; [simpl; now rewrite app_nil_r|].
    apply expansion_nil. intros p m _ [].
  - assert (Hs : simple (prog ++ m)) by (apply simple_app; auto; apply Hm; now left).
    assert (Hm' : forall m', In m' moves -> simple m') by (intros; apply Hm; now right).
    cbn [expand_prog].
    destruct (key_of_scroll_simple _ Hs) as [-> _]. cbn [bind].
    destruct (set_contains_simple seen _ Hs) as (dup & -> & Hdup). cbn [bind].
    destruct dup.
    + destruct (IH Hm' seen next) as (seen' & added & E & (I & N & P & C)).
      exists seen', added. split; [exact E|]. repeat split; auto.
      * intros c Hc. destruct (N c Hc) as (p & m0 & H1 & H2 & H3).
        exists p, m0. repeat split; try tauto. now right.
      * intros p m0 [<-|[]] [<-|H0]; [|apply C; simpl; auto].
        apply I, Hdup; reflexivity.
    + assert (Hnew : ~ In (keyof (prog ++ m)) seen)
        by (intros H; apply Hdup in H; discriminate).
      destruct (IH Hm' (set_add seen (keyof (prog ++ m)))
                  (next ++ [(prog ++ m, score_prog (prog ++ m) xs ys)]))
        as (seen' & added & E & (I & N & P & C)).
      exists seen', ((prog ++ m, score_prog (prog ++ m) xs ys) :: added).
      split; [rewrite E, <- app_assoc; reflexivity|].
      unfold set_add in *. repeat split.
      * intros k Hk. apply I, in_or_app. now left.
      * intros c [<-|Hc].
        -- exists prog, m. simpl. repeat split; auto.
           apply I, in_or_app. right; now left.
        -- destruct (N c Hc) as (p & m0 & H1 & H2 & H3 & H4 & H5).
           exists p, m0. repeat split; auto; [now right|].
           intros H; apply H4, in_or_app; now left.
      * intros k Hk. destruct (P k Hk) as [Hk1|(c & Hc & Ec)].
        -- apply in_app_or in Hk1. destruct Hk1 as [Hk1|[<-|[]]]; [now left|].
           right. eexists; split; [now left|reflexivity].
        -- right. exists c. split; [now right|exact Ec].
      * intros p m0 [<-|[]] [<-|H0]; [|apply C; simpl; auto].
        apply I, in_or_app. right; now left.
Qed.

Lemma expand_pool_expansion (pool : list candidate) (moves : list (list pydict)) :
  (forall c, In c pool -> simple (fst c)) -> (forall m, In m moves -> simple m) ->
  forall seen next, exists seen' added,
    expand_pool xs ys pool moves seen next = Ok (seen', next ++ added)
    /\ expansion (map fst pool) moves seen added seen'.
Proof.
  intros Hp Hm. induction pool as [|[prog sc] pool IH]; intros seen next.
  - exists seen, []. split; [simpl; now rewrite app_nil_r|].
    apply expansion_nil. intros p m [].
  - cbn [expand_pool].
    destruct (expand_prog_expansion prog moves (Hp (prog, sc) (or_introl eq_refl))
                Hm seen next) as (s1 & a1 & E1 & X1).
    rewrite E1. cbn [bind fst snd].
    destruct (IH (fun c H => Hp c (or_intror H)) s1 (next ++ a1))
      as (s2 & a2 & E2 & X2).
    exists s2, (a1 ++ a2). split; [rewrite E2, <- app_assoc; reflexivity|].
    apply (expansion_seq [prog] (map fst pool) moves seen s1 s2); assumption.
Qed.

End Round.

(** A round keeps the invariant: the pool chosen among the new candidates is
    again made of scrolls whose extension by TRANSPOSE is not yet visited. *)
Lemma round_inv (seen seen' : list scroll_key) (pool added : list candidate) :
  beam_inv seen pool ->
  expansion (map fst pool) _op_space seen added seen' ->
  added <> []
  /\ forall pool', pool' <> [] -> incl pool' added ->
       beam_inv seen' pool'
       /\ forall c, In c pool' -> exists p m, In m _op_space /\ fst c = p ++ m.
Proof.
  intros [Hne Hsim Hknown Hclosed Hfresh] (I & N & P & C).
  assert (Hpool : forall p, In p (map fst pool) ->
                    simple p /\ (p = [] \/ In (keyof p) seen)).
  { intros p Hp. apply in_map_iff in Hp. destruct Hp as (c & <- & Hc). auto. }
  split.
  - destruct pool as [|c1 pool]; [contradiction|].
    assert (H1 : In (keyof (fst c1 ++ [step_TRANSPOSE])) seen')
      by (apply C; [now left|apply op_space_has_transpose]).
    destruct (P _ H1) as [H0|(c & Hc & _)].
    + exfalso. apply (Hfresh c1 (or_introl eq_refl)). now rewrite keyof_app in H0.
    + intros ->; contradiction.
  - intros pool' Hne' Hincl.
    assert (Hadd : forall c, In c pool' ->
              exists p m, In p (map fst pool) /\ In m _op_space /\ fst c = p ++ m
                          /\ ~ In (keyof (fst c)) seen /\ In (keyof (fst c)) seen')
      by (intros c Hc; apply N, Hincl, Hc).
    assert (Hcl' : forall k, In (k ++ [kT]) seen' -> k = [] \/ In k seen').
    { intros k Hk. destruct (P _ Hk) as [H0|(c & Hc & E)].
      - destruct (Hclosed k H0); auto.
      - destruct (N c Hc) as (p & m & Hp & Hm & Ec & _).
        rewrite Ec, keyof_app in E. symmetry in E.
        destruct (key_tail_transpose m k (keyof p) Hm E) as [_ ->].
        destruct (Hpool p Hp) as [_ [->|Hin]]; auto. }
    split; [constructor; auto|].
    + intros c Hc. destruct (Hadd c Hc) as (p & m & Hp & Hm & -> & _).
      apply simple_app; [apply Hpool, Hp|apply op_space_simple, Hm].
    + intros c Hc. destruct (Hadd c Hc) as (p & m & _ & _ & _ & _ & H). now right.
    + intros c Hc Hin.
      destruct (Hadd c Hc) as (p & m & Hp & Hm & Ec & Hnew & _).
      assert (Hnil : keyof (fst c) <> []).
      { rewrite Ec. intros H. apply keyof_nil in H.
        apply app_eq_nil in H. destruct H as [_ H].
        now apply (op_space_simple m Hm). }
      destruct (P _ Hin) as [H0|(c' & Hc' & E)].
      * destruct (Hclosed _ H0); contradiction.
      * destruct (N c' Hc') as (p' & m' & Hp' & Hm' & Ec' & _).
        rewrite Ec', keyof_app in E. symmetry in E.
        destruct (key_tail_transpose m' _ (keyof p') Hm' E) as [_ E'].
        destruct (Hpool p' Hp') as [_ [->|Hin']].
        -- now apply Hnil.
        -- apply Hnew. now rewrite E'.
    + intros c Hc. destruct (Hadd c Hc) as (p & m & _ & Hm & E & _). eauto.
Qed.

(** ** Sorting and truncating the pool *)

Lemma insert_desc_in (c x : candidate) (l : list candidate) :
  In x (insert_desc c l) <-> x = c \/ In x l.
Proof.
  induction l as [|d l IH]; simpl; [intuition|].
  destruct (Qle_bool (snd d) (snd c)); simpl; [intuition|].
  rewrite IH; intuition.
Qed.

Lemma sort_desc_in (x : candidate) (l : list candidate) :
  In x (sort_desc l) <-> In x l.
Proof.
  unfold sort_desc; induction l as [|c l IH]; simpl; [tauto|].
  rewrite insert_desc_in, IH; intuition.
Qed.

Lemma sort_desc_nonempty (l : list candidate) : l <> [] -> sort_desc l <> [].
Proof.
  destruct l as [|c l]; [contradiction|]. intros _ H.
  assert (Hin : In c (sort_desc (c :: l))) by (apply sort_desc_in; now left).
  now rewrite H in Hin.
Qed.

Lemma firstn_incl {A : Type} (n : nat) (l : list A) : incl (firstn n l) l.
Proof.
  intros x Hx. rewrite <- (firstn_skipn n l). apply in_or_app; now left.
Qed.

Lemma slice_to_incl {A : Type} (l : list A) (n : Z) : incl (slice_to l n) l.
Proof. unfold slice_to. destruct (0 <=? n); apply firstn_incl. Qed.

Lemma slice_to_nonempty {A : Type} (l : list A) (n : Z) :
  1 <= n -> l <> [] -> slice_to l n <> [].
Proof.
  intros Hn Hl. unfold slice_to.
  destruct (Z.leb_spec 0 n); [|lia].
  destruct (Z.to_nat n) as [|k] eqn:E; [lia|].
  destruct l; [contradiction|discriminate].
Qed.

(** ** The search *)

Section SearchInv.

Variables xs ys : list Grid.
Variable beam : Z.
Hypothesis Hbeam : 1 <= beam.

Lemma search_inv (rounds : nat) :
  forall seen pool, beam_inv seen pool ->
  exists pool_f seen_f,
    search xs ys rounds beam _op_space seen pool = Ok pool_f
    /\ beam_inv seen_f pool_f
    /\ (rounds <> O ->
        forall c, In c pool_f -> exists p m, In m _op_space /\ fst c = p ++ m).
Proof.
  induction rounds as [|n IH]; intros seen pool Hinv.
  - exists pool, seen. split; [reflexivity|]. split; [assumption|]. congruence.
  - cbn [search].
    destruct (expand_pool_expansion xs ys pool _op_space (inv_simple _ _ Hinv)
                (fun m H => proj1 (op_space_simple m H)) seen [])
      as (seen' & added & E & X).
    rewrite E. cbn [bind fst snd app].
    destruct (round_inv seen seen' pool added Hinv X) as [Hadd Hnext].
    set (pool' := slice_to (sort_desc added) beam).
    assert (Hne : pool' <> [])
      by (apply slice_to_nonempty; [exact Hbeam|now apply sort_desc_nonempty]).
    assert (Hincl : incl pool' added)
      by (intros c Hc; apply sort_desc_in; now apply (slice_to_incl _ beam)).
    destruct (Hnext pool' Hne Hincl) as [Hinv' Hext].
    destruct (IH seen' pool' Hinv') as (pool_f & seen_f & Ef & Hf & Hextf).
    exists pool_f, seen_f. split; [exact Ef|]. split; [exact Hf|].
    intros _. destruct n as [|n'].
    + simpl in Ef. injection Ef as <-. exact Hext.
    + apply Hextf. discriminate.
Qed.

End SearchInv.

Lemma beam_inv_identity (sc : Q) : beam_inv [] [([], sc)].
Proof.
  constructor.
  - discriminate.
  - intros c [<-|[]]. constructor.
  - intros c [<-|[]]. now left.
  - intros k [].
  - intros c _ [].
Qed.

(** With the REMAP candidate in the pool the first round stops at the
    membership test of its first extension: the key holds the mapping. *)
Lemma expand_prog_remap_raises (xs ys : list Grid) (m : list (Z * Z))
  (seen : list scroll_key) (next : list candidate) :
  expand_prog xs ys [step_REMAP m] _op_space seen next
  = Raise (TypeError "unhashable type: 'dict'").
Proof. reflexivity. Qed.

Lemma search_remap_raises (xs ys : list Grid) (m : list (Z * Z)) (s0 s1 : Q)
  (rounds : nat) (beam : Z) :
  search xs ys (S rounds) beam _op_space [] [([], s0); ([step_REMAP m], s1)]
  = Raise (TypeError "unhashable type: 'dict'").
Proof.
  cbn [search expand_pool].
  destruct (expand_prog_expansion xs ys [] _op_space (Forall_nil _)
              (fun m H => proj1 (op_space_simple m H)) [] [])
    as (seen' & added & E & _).
  rewrite E. cbn [bind fst snd]. now rewrite expand_prog_remap_raises.
Qed.

(** ** [synthesize_scroll] *)

(** The pool the search starts from: the identity and, when there is one,
    the seeded REMAP candidate [seeded_remap]. *)
Lemma synthesize_scroll_initial_pool (task : list train_pair) (beam depth : Z)
  (xs ys : list Grid) :
  mapM (fun p => from_list (input p)) task = Ok xs ->
  mapM (fun p => from_list (output p)) task = Ok ys ->
  xs <> [] -> ys <> [] ->
  synthesize_scroll task beam depth
  = (pool <- search xs ys (Z.to_nat depth) beam _op_space []
               (([], score_prog [] xs ys)
                :: match seeded_remap xs ys with
                   | Some rm => [(rm, score_prog rm xs ys)]
                   | None => []
                   end) ;;
     match sort_desc pool with
     | c :: _ => Ok (fst c)
     | [] => Ok []
     end).
Proof.
  intros Hxs Hys Hx Hy. unfold synthesize_scroll, seeded_remap. rewrite Hxs, Hys.
  cbn [bind]. destruct xs as [|x0 xs]; [contradiction|].
  destruct ys as [|y0 ys]; [contradiction|].
  destruct (_infer_remap (data x0) (data y0)) as [[|ab m]|]; reflexivity.
Qed.

(** Whenever a REMAP candidate is seeded and at least one round is run, the
    search raises. *)
Lemma synthesize_scroll_seeded_raises (task : list train_pair) (beam depth : Z)
  (xs ys : list Grid) :
  mapM (fun p => from_list (input p)) task = Ok xs ->
  mapM (fun p => from_list (output p)) task = Ok ys ->
  seeded_remap xs ys <> None ->
  1 <= depth ->
  synthesize_scroll task beam depth = Raise (TypeError "unhashable type: 'dict'").
Proof.
  intros Hxs Hys Hseed Hd. unfold synthesize_scroll. rewrite Hxs, Hys. cbn [bind].
  unfold seeded_remap in Hseed.
  destruct xs as [|x0 xs]; [contradiction|]. destruct ys as [|y0 ys]; [contradiction|].
  destruct (_infer_remap (data x0) (data y0)) as [[|ab m]|]; try contradiction.
  destruct (Z.to_nat depth) as [|n] eqn:E; [lia|].
  cbn [app]. now rewrite search_remap_raises.
Qed.

(** *** Tasks that are one counter-clockwise turn *)

Lemma np_array_wf (lst : list (list Z)) (x : ndarray) :
  np_array lst = Ok x -> wf_array x /\ rows x = lst /\ lst <> [].
Proof.
  intros H. apply ScrollCore.np_array_inv in H.
  destruct H as (r & lst' & -> & E & _ & ->). unfold wf_array. cbn [rows shape0 shape1].
  split; [split; [reflexivity|]|split; [reflexivity|discriminate]].
  apply Forall_forall; intros r' Hr'. rewrite forallb_forall in E.
  now apply Nat.eqb_eq, E.
Qed.

Lemma np_rot90_once (x : ndarray) : np_rot90 x 1 = np_transpose (np_flip x 1).
Proof. reflexivity. Qed.

Lemma in_columns (R : list (list Z)) (w : nat) (c : Z) :
  Forall (fun r => length r = w) R ->
  (In c (concat (map (column R) (seq 0 w))) <-> In c (concat R)).
Proof.
  intros Hw. rewrite !in_concat. rewrite Forall_forall in Hw. split.
  - intros (col & Hcol & Hc). apply in_map_iff in Hcol.
    destruct Hcol as (j & <- & Hj). apply in_seq in Hj.
    unfold column in Hc. apply in_map_iff in Hc. destruct Hc as (r & <- & Hr).
    exists r. split; [exact Hr|]. apply nth_In. rewrite (Hw r Hr). lia.
  - intros (r & Hr & Hc). destruct (In_nth r c 0 Hc) as (j & Hj & E).
    exists (column R j). split.
    + apply in_map, in_seq. rewrite (Hw r Hr) in Hj. lia.
    + unfold column. apply in_map_iff. exists r. split; assumption.
Qed.

Lemma in_flatten_rot90 (x : ndarray) (c : Z) :
  wf_array x -> (In c (flatten (np_rot90 x 1)) <-> In c (flatten x)).
Proof.
  intros [_ Hw]. rewrite np_rot90_once. unfold flatten, np_transpose, np_flip.
  cbn [rows shape1 Z.eqb]. rewrite in_columns.
  - rewrite !in_concat. split.
    + intros (r & Hr & Hc). apply in_map_iff in Hr. destruct Hr as (r0 & <- & Hr0).
      exists r0. split; [exact Hr0|now apply in_rev].
    + intros (r & Hr & Hc). exists (rev r). split; [now apply in_map|].
      now apply in_rev in Hc.
  - apply Forall_forall; intros r Hr. apply in_map_iff in Hr.
    destruct Hr as (r0 & <- & Hr0). rewrite length_rev.
    rewrite Forall_forall in Hw. now apply Hw.
Qed.

(** Two strictly increasing lists with the same elements are equal. *)
Lemma sorted_lt_unique (l1 l2 : list Z) :
  Sorted Z.lt l1 -> Sorted Z.lt l2 -> (forall c, In c l1 <-> In c l2) -> l1 = l2.
Proof.
  intros H1 H2. apply Sorted_StronglySorted in H1; [|exact Z.lt_trans].
  apply Sorted_StronglySorted in H2; [|exact Z.lt_trans].
  revert l2 H2; induction H1 as [|a l1 Hs1 IH Ha]; intros l2 H2 Hin.
  - destruct l2 as [|b l2]; [reflexivity|]. exfalso. apply (Hin b). now left.
  - destruct H2 as [|b l2 Hs2 Hb].
    + exfalso. apply (Hin a). now left.
    + rewrite Forall_forall in Ha, Hb.
      assert (Eab : a = b).
      { destruct (proj1 (Hin a) (or_introl eq_refl)) as [E|Hal2]; [now symmetry|].
        destruct (proj2 (Hin b) (or_introl eq_refl)) as [E|Hbl1]; [assumption|].
        specialize (Ha _ Hbl1). specialize (Hb _ Hal2). lia. }
      subst b. f_equal. apply IH; [exact Hs2|].
      intros c. split; intros Hc.
      * destruct (proj1 (Hin c) (or_intror Hc)) as [E|H]; [|exact H].
        specialize (Ha _ Hc). lia.
      * destruct (proj2 (Hin c) (or_intror Hc)) as [E|H]; [|exact H].
        specialize (Hb _ Hc). lia.
Qed.

Lemma np_unique_rot90 (x : ndarray) :
  wf_array x -> np_unique (np_rot90 x 1) = np_unique x.
Proof.
  intros Hwf. apply sorted_lt_unique; try apply np_unique_sorted.
  intros c. rewrite !np_unique_in. now apply in_flatten_rot90.
Qed.

Lemma np_array_rot90 (x y : ndarray) :
  wf_array x -> np_array (rows (np_rot90 x 1)) = Ok y ->
  y = np_rot90 x 1 /\ shape1 x <> O.
Proof.
  intros [Hh Hw]. rewrite np_rot90_once. unfold np_transpose, np_flip.
  cbn [rows shape0 shape1 Z.eqb].
  destruct (shape1 x) as [|w] eqn:Ew; [discriminate|].
  intros H. split; [|discriminate].
  destruct (np_array_wf _ _ H) as ([Hy0 Hy1] & Hrows & _).
  destruct y as [h' w' rs]. cbn [rows shape0 shape1] in *. subst rs.
  f_equal.
  - rewrite <- Hy0, length_map, length_seq. reflexivity.
  - rewrite Forall_forall in Hy1.
    rewrite <- (Hy1 (column (map (@rev Z) (rows x)) 0%nat)).
    + unfold column. rewrite !length_map. exact Hh.
    + apply in_map, in_seq. lia.
Qed.

Lemma combine_diag_fst (l : list Z) : map fst (combine l l) = l.
Proof. induction l as [|c l IH]; simpl; [|rewrite IH]; reflexivity. Qed.

Lemma infer_remap_rot90 (x : ndarray) :
  wf_array x -> shape0 x <> O -> shape1 x <> O ->
  exists ab m, _infer_remap x (np_rot90 x 1) = Some (ab :: m).
Proof.
  intros Hwf H0 H1. unfold _infer_remap.
  rewrite (np_unique_rot90 x Hwf), Nat.eqb_refl. cbn [negb].
  rewrite dict_of_items_NoDup.
  - destruct (sorted (np_unique x)) as [|u us] eqn:E; [|simpl; eauto].
    exfalso. rewrite (sorted_id _ (np_unique_sorted x)) in E.
    destruct Hwf as [Hh Hw]. destruct (rows x) as [|r rs] eqn:Er; [simpl in Hh; lia|].
    inversion Hw as [|? ? Hr _]; subst.
    destruct r as [|c r]; [simpl in Hr; lia|].
    assert (Hin : In c (np_unique x))
      by (apply np_unique_in; unfold flatten; rewrite Er; now left).
    now rewrite E in Hin.
  - rewrite (sorted_id _ (np_unique_sorted x)).
    rewrite combine_diag_fst. apply np_unique_NoDup.
Qed.

(** C1, as the code has it: on every task whose pairs are all one
    counter-clockwise turn, [synthesize_scroll] with a depth of at least one
    round raises instead of returning a scroll; when the outputs are valid
    2-D lists the exception is the [TypeError] of the membership test on the
    key of the seeded REMAP candidate. *)
Theorem synthesize_scroll_rot90_raises (task : list train_pair) (beam depth : Z) :
  task <> [] -> Forall rot90_pair task -> 1 <= depth ->
  raises (synthesize_scroll task beam depth)
  /\ forall ys, mapM (fun p => from_list (output p)) task = Ok ys ->
       synthesize_scroll task beam depth = Raise (TypeError "unhashable type: 'dict'").
Proof.
  intros Hne Hrot Hd.
  enough (G : forall ys, mapM (fun p => from_list (output p)) task = Ok ys ->
            synthesize_scroll task beam depth
            = Raise (TypeError "unhashable type: 'dict'")).
  { split; [|exact G].
    destruct (mapM (fun p => from_list (output p)) task) as [ys|e] eqn:Eys.
    - eexists; now apply (G ys).
    - unfold synthesize_scroll. rewrite Eys.
      destruct (mapM (fun p => from_list (input p)) task); eexists; reflexivity. }
  intros ys Hys.
  destruct (mapM (fun p => from_list (input p)) task) as [xs|e] eqn:Exs.
  - apply (synthesize_scroll_seeded_raises task beam depth xs ys Exs Hys); [|exact Hd].
    destruct task as [|p0 rest]; [contradiction|].
    inversion Hrot as [|? ? (x & Hx & Hout) _]; subst.
    apply mapM_Forall2 in Exs. apply mapM_Forall2 in Hys.
    inversion Exs as [|? x0 ? xs' Hx0 _]; subst.
    inversion Hys as [|? y0 ? ys' Hy0 _]; subst.
    unfold from_list in Hx0, Hy0. rewrite Hx in Hx0. cbn [bind] in Hx0.
    injection Hx0 as <-. rewrite Hout in Hy0.
    apply ScrollCore.bind_ok in Hy0. destruct Hy0 as (y & Hy & [= <-]).
    destruct (np_array_wf _ _ Hx) as (Hwf & Hrows & Hlst).
    destruct (np_array_rot90 x y Hwf Hy) as [-> Hw].
    assert (Hh : shape0 x <> O).
    { destruct Hwf as [Hh _]. rewrite <- Hh, Hrows.
      destruct (input p0); [contradiction|discriminate]. }
    destruct (infer_remap_rot90 x Hwf Hh Hw) as (ab & m & E).
    cbn [seeded_remap data]. rewrite E. discriminate.
  - exfalso. clear - Hrot Exs.
    revert Exs. induction Hrot as [|p rest (x & Hx & _) _ IH]; [discriminate|].
    cbn [mapM]. unfold from_list at 1. rewrite Hx. cbn [bind].
    destruct (mapM (fun p => from_list (input p)) rest); [discriminate|].
    exact IH.
Qed.

Lemma synthesize_scroll_rot90_raises_witness :
  raises (synthesize_scroll task_rot90 100 3)
  /\ forall ys, mapM (fun p => from_list (output p)) task_rot90 = Ok ys ->
       synthesize_scroll task_rot90 100 3 = Raise (TypeError "unhashable type: 'dict'").
Proof.
  apply (synthesize_scroll_rot90_raises task_rot90 100 3).
  - discriminate.
  - repeat constructor. eexists; split; reflexivity.
  - lia.
Defined.

(** The same on the sample task, which the scroll ROT90(1) solves. *)
Example synthesize_scroll_rot90_sample :
  eval_scroll [step_ROT90 1] task_rot90 = Ok (true, "exact match"%string)
  /\ synthesize_scroll task_rot90 100 3 = Raise (TypeError "unhashable type: 'dict'").
Proof. split; vm_compute; reflexivity. Qed.

(** C2, as the code has it: the key of a scroll with a REMAP step is built,
    but it holds the mapping, a dict, so the membership test on the visited
    set raises [TypeError]: the key is not usable as a set element. *)
Theorem remap_key_unhashable (prog : list pydict) (mapping : list (Z * Z))
  (key : scroll_key) (seen : list scroll_key) :
  In (step_REMAP mapping) prog ->
  key_of_scroll prog = Ok key ->
  hashable_key key = false
  /\ set_contains seen key = Raise (TypeError "unhashable type: 'dict'").
Proof.
  intros Hin Hkey.
  assert (Hh : hashable_key key = false).
  { apply mapM_Forall2 in Hkey. unfold hashable_key.
    induction Hkey as [|step sk prog key Hstep _ IH]; [contradiction|].
    simpl. destruct Hin as [->|Hin].
    - cbn in Hstep. injection Hstep as <-. reflexivity.
    - rewrite (IH Hin). apply andb_false_r. }
  split; [exact Hh|]. unfold set_contains. now rewrite Hh.
Qed.

Lemma remap_key_unhashable_witness :
  hashable_key [skey (step_REMAP [(1, 2)]); skey (step_ROT90 1)] = false
  /\ set_contains [] [skey (step_REMAP [(1, 2)]); skey (step_ROT90 1)]
     = Raise (TypeError "unhashable type: 'dict'").
Proof.
  apply (remap_key_unhashable [step_REMAP [(1, 2)]; step_ROT90 1] [(1, 2)]).
  - now left.
  - reflexivity.
Defined.

(** *** Keys of scrolls without a mapping

    What the key does on the steps it can handle: it forgets the order in
    which the entries of a step are listed and nothing else. *)

Lemma ltb_lt (a b : string) : String.ltb a b = true <-> String_as_OT.lt a b.
Proof.
  rewrite <- String_as_OT.cmp_lt. unfold String.ltb, String_as_OT.cmp.
  destruct (String.compare a b); split; congruence.
Qed.

Lemma key_lt_trans (a b c : string * pyval) : key_lt a b -> key_lt b c -> key_lt a c.
Proof. unfold key_lt. rewrite !ltb_lt. apply String_as_OT.lt_trans. Qed.

Lemma key_lt_irrefl (a b : string * pyval) : key_lt a b -> fst a <> fst b.
Proof. unfold key_lt. rewrite ltb_lt. apply String_as_OT.lt_not_eq. Qed.

Lemma key_lt_total (a b : string * pyval) :
  String.ltb (fst a) (fst b) = false -> fst a <> fst b -> key_lt b a.
Proof.
  unfold key_lt, String.ltb. rewrite (String.compare_antisym (fst a) (fst b)).
  destruct (String.compare (fst b) (fst a)) eqn:E; simpl; try congruence.
  apply String.compare_eq_iff in E. congruence.
Qed.

Lemma insert_item_in (it x : string * pyval) (l : list (string * pyval)) :
  In x (insert_item it l) <-> x = it \/ In x l.
Proof.
  induction l as [|y l IH]; simpl; [intuition|].
  destruct (String.ltb (fst y) (fst it)); simpl; [rewrite IH|]; intuition.
Qed.

Lemma insert_item_perm (it : string * pyval) (l : list (string * pyval)) :
  Permutation (insert_item it l) (it :: l).
Proof.
  induction l as [|y l IH]; simpl; [reflexivity|].
  destruct (String.ltb (fst y) (fst it)); [|reflexivity].
  rewrite IH. apply perm_swap.
Qed.

Lemma sorted_items_perm (d : pydict) : Permutation (sorted_items d) d.
Proof.
  unfold sorted_items; induction d as [|it d IH]; simpl; [reflexivity|].
  rewrite insert_item_perm. now constructor.
Qed.

Lemma insert_item_sorted (it : string * pyval) (l : list (string * pyval)) :
  StronglySorted key_lt l -> ~ In (fst it) (map fst l) ->
  StronglySorted key_lt (insert_item it l).
Proof.
  induction 1 as [|y l Hs IH Hy]; simpl; intros Hnin.
  - repeat constructor.
  - destruct (String.ltb (fst y) (fst it)) eqn:E.
    + constructor; [apply IH; tauto|].
      apply Forall_forall; intros x Hx. apply insert_item_in in Hx.
      destruct Hx as [->|Hx]; [exact E|].
      rewrite Forall_forall in Hy. now apply Hy.
    + assert (Hlt : key_lt it y) by (apply key_lt_total; [exact E|intros H; apply Hnin; now left]).
      constructor; [now constructor|].
      constructor; [exact Hlt|].
      rewrite Forall_forall in *. intros x Hx.
      apply (key_lt_trans it y x Hlt). now apply Hy.
Qed.

Lemma sorted_items_sorted (d : pydict) :
  NoDup (map fst d) -> StronglySorted key_lt (sorted_items d).
Proof.
  unfold sorted_items; induction d as [|it d IH]; simpl; intros Hnd; [constructor|].
  inversion Hnd as [|? ? Hnin Hnd']; subst.
  apply insert_item_sorted; [now apply IH|].
  intros Hin. apply Hnin. apply in_map_iff in Hin. destruct Hin as (x & E & Hx).
  apply in_map_iff. exists x. split; [exact E|].
  eapply Permutation_in; [apply sorted_items_perm|exact Hx].
Qed.

Lemma key_sorted_unique (l1 l2 : list (string * pyval)) :
  StronglySorted key_lt l1 -> StronglySorted key_lt l2 ->
  (forall x, In x l1 <-> In x l2) -> l1 = l2.
Proof.
  intros H1; revert l2; induction H1 as [|a l1 Hs1 IH Ha]; intros l2 H2 Hin.
  - destruct l2 as [|b l2]; [reflexivity|]. exfalso. apply (Hin b). now left.
  - destruct H2 as [|b l2 Hs2 Hb].
    + exfalso. apply (Hin a). now left.
    + rewrite Forall_forall in Ha, Hb.
      assert (Eab : a = b).
      { destruct (proj1 (Hin a) (or_introl eq_refl)) as [E|Hal2]; [now symmetry|].
        destruct (proj2 (Hin b) (or_introl eq_refl)) as [E|Hbl1]; [assumption|].
        exfalso. apply (key_lt_irrefl a a); [|reflexivity].
        apply (key_lt_trans a b a); auto. }
      subst b. f_equal. apply IH; [exact Hs2|].
      intros c. split; intros Hc.
      * destruct (proj1 (Hin c) (or_intror Hc)) as [E|H]; [|exact H].
        subst c. exfalso. apply (key_lt_irrefl a a); auto.
      * destruct (proj2 (Hin c) (or_intror Hc)) as [E|H]; [|exact H].
        subst c. exfalso. apply (key_lt_irrefl a a); auto.
Qed.

Lemma sorted_items_canonical (d1 d2 : pydict) :
  NoDup (map fst d1) -> Permutation d1 d2 -> sorted_items d1 = sorted_items d2.
Proof.
  intros Hnd Hp.
  assert (Hnd2 : NoDup (map fst d2))
    by (eapply Permutation_NoDup; [apply Permutation_map; exact Hp|exact Hnd]).
  apply key_sorted_unique; try now apply sorted_items_sorted.
  intros x. split; intros Hx.
  - eapply Permutation_in; [symmetry; apply sorted_items_perm|].
    eapply Permutation_in; [exact Hp|].
    eapply Permutation_in; [apply sorted_items_perm|exact Hx].
  - eapply Permutation_in; [symmetry; apply sorted_items_perm|].
    eapply Permutation_in; [symmetry; exact Hp|].
    eapply Permutation_in; [apply sorted_items_perm|exact Hx].
Qed.

Lemma dict_get_in (d : pydict) (k : string) (v : pyval) :
  NoDup (map fst d) -> (dict_get d k = Some v <-> In (k, v) d).
Proof.
  induction d as [|[k' v'] d IH]; simpl; intros Hnd.
  - split; [discriminate|tauto].
  - inversion Hnd as [|? ? Hnin Hnd']; subst.
    destruct (String.eqb_spec k' k) as [->|Hne].
    + split; [intros [= ->]; auto|].
      intros [[= ->]|Hin]; [reflexivity|].
      exfalso; apply Hnin; apply (in_map fst) in Hin; exact Hin.
    + rewrite (IH Hnd'). split; [auto|].
      intros [[= -> ->]|Hin]; [contradiction|assumption].
Qed.

Lemma dict_get_perm (d1 d2 : pydict) (k : string) :
  NoDup (map fst d1) -> Permutation d1 d2 -> dict_get d1 k = dict_get d2 k.
Proof.
  intros Hnd Hp.
  assert (Hnd2 : NoDup (map fst d2))
    by (eapply Permutation_NoDup; [apply Permutation_map; exact Hp|exact Hnd]).
  destruct (dict_get d1 k) as [v|] eqn:E.
  - symmetry. apply (dict_get_in _ _ _ Hnd2). eapply Permutation_in; [exact Hp|].
    now apply (dict_get_in _ _ _ Hnd).
  - destruct (dict_get d2 k) as [v|] eqn:E'; [|reflexivity].
    apply (dict_get_in _ _ _ Hnd2) in E'.
    apply (Permutation_in _ (Permutation_sym Hp)) in E'.
    apply (dict_get_in _ _ _ Hnd) in E'. congruence.
Qed.

(** Two steps with distinct entry names get the same key exactly when they
    hold the same entries, in whatever order. *)
Lemma key_of_step_canonical (st1 st2 : pydict) (k1 k2 : step_key) :
  NoDup (map fst st1) -> NoDup (map fst st2) ->
  key_of_step st1 = Ok k1 -> key_of_step st2 = Ok k2 ->
  (k1 = k2 <-> Permutation st1 st2).
Proof.
  unfold key_of_step. intros Hnd1 Hnd2 H1 H2.
  destruct (dict_get st1 "op") as [o1|] eqn:E1; [|discriminate].
  destruct (dict_get st2 "op") as [o2|] eqn:E2; [|discriminate].
  injection H1 as <-. injection H2 as <-. split.
  - intros [= _ Hs]. rewrite <- (sorted_items_perm st1), Hs. apply sorted_items_perm.
  - intros Hp. rewrite (dict_get_perm st1 st2 "op" Hnd1 Hp) in E1.
    rewrite (sorted_items_canonical st1 st2 Hnd1 Hp). congruence.
Qed.

(** The key of a scroll is the sequence of the keys of its steps: it is
    sensitive to the order of the steps and to nothing in the order of the
    entries inside a step.  The equality of keys is that of the embedding,
    which is Python's [==] on keys that hold no dict ([key_eqb_eq]); a
    mapping inside a key is compared here entry by entry, in order. *)
Lemma key_of_scroll_canonical (s1 s2 : list pydict) (k1 k2 : scroll_key) :
  Forall (fun st => NoDup (map fst st)) s1 ->
  Forall (fun st => NoDup (map fst st)) s2 ->
  key_of_scroll s1 = Ok k1 -> key_of_scroll s2 = Ok k2 ->
  (k1 = k2 <-> Forall2 (@Permutation (string * pyval)) s1 s2).
Proof.
  unfold key_of_scroll. intros Hd1 Hd2 H1 H2.
  apply mapM_Forall2 in H1. apply mapM_Forall2 in H2.
  revert s2 k2 Hd2 H2. induction H1 as [|st1 sk1 s1 k1 Hst1 _ IH];
    intros s2 k2 Hd2 H2.
  - inversion H2; subst; split; intros E;
      first [discriminate | now constructor | reflexivity | inversion E].
  - inversion Hd1 as [|? ? Hn1 Hd1']; subst.
    inversion H2 as [|st2 sk2 s2' k2' Hst2 H2']; subst.
    + split; intros E; [discriminate|inversion E].
    + inversion Hd2 as [|? ? Hn2 Hd2']; subst.
      specialize (IH Hd1' s2' k2' Hd2' H2').
      pose proof (key_of_step_canonical st1 st2 sk1 sk2 Hn1 Hn2 Hst1 Hst2) as Hk.
      split.
      * intros [= -> ->]. constructor; [now apply Hk|now apply IH].
      * intros E; inversion E; subst. f_equal; [now apply Hk|now apply IH].
Qed.

(** C10, as stated, fails: with a beam width of 0 every round leaves the
    pool empty and the empty scroll is returned. *)
Lemma synthesize_scroll_beam0_empty :
  task_unseeded <> [] /\ 1 <= 1 /\ synthesize_scroll task_unseeded 0 1 = Ok [].
Proof. split; [discriminate|]. split; [lia|]. vm_compute. reflexivity. Qed.

(** C10 (amended). For a task with at least one pair, a beam width of at
    least 1 and a depth of at least 1, a scroll returned by
    [synthesize_scroll] is never empty: it is a candidate of the last round,
    that is, a scroll extended by a move of the vocabulary. *)
Theorem synthesize_scroll_nonempty (task : list train_pair) (beam depth : Z)
  (best : list pydict) :
  task <> [] -> 1 <= beam -> 1 <= depth ->
  synthesize_scroll task beam depth = Ok best ->
  best <> [] /\ exists prog move, In move _op_space /\ best = prog ++ move.
Proof.
  intros _ Hb Hd H.
  enough (G : exists prog move, In move _op_space /\ best = prog ++ move).
  { split; [|exact G]. destruct G as (prog & move & Hm & ->).
    intros E. apply app_eq_nil in E. destruct E as [_ E].
    now apply (op_space_simple move Hm). }
  unfold synthesize_scroll in H.
  apply ScrollCore.bind_ok in H. destruct H as (xs & Hxs & H).
  apply ScrollCore.bind_ok in H. destruct H as (ys & Hys & H).
  destruct xs as [|x0 xs']; [discriminate|]. destruct ys as [|y0 ys']; [discriminate|].
  destruct (Z.to_nat depth) as [|n] eqn:E; [lia|].
  assert (Hid : forall sc pool,
            (pool_f <- search (x0 :: xs') (y0 :: ys') (S n) beam _op_space []
                         [([], sc)] ;;
             match sort_desc pool_f with
             | c :: _ => Ok (fst c)
             | [] => Ok []
             end) = Ok pool ->
            exists prog move, In move _op_space /\ pool = prog ++ move).
  { intros sc pool Hs.
    destruct (search_inv (x0 :: xs') (y0 :: ys') beam Hb (S n) [] _
                (beam_inv_identity sc)) as (pool_f & seen_f & Ef & _ & Hext).
    rewrite Ef in Hs. cbn [bind] in Hs.
    destruct (sort_desc pool_f) as [|c l] eqn:Es; injection Hs as <-.
    - exfalso. destruct (search_inv (x0 :: xs') (y0 :: ys') beam Hb (S n) [] _
                           (beam_inv_identity sc)) as (pf & sf & Ef' & Hinv & _).
      rewrite Ef in Ef'. injection Ef' as <-.
      apply (sort_desc_nonempty pool_f (inv_nonempty _ _ Hinv) Es).
    - apply Hext; [discriminate|]. apply sort_desc_in. rewrite Es; now left. }
  destruct (_infer_remap (data x0) (data y0)) as [[|ab m]|].
  - exact (Hid _ _ H).
  - cbn [app] in H. rewrite search_remap_raises in H. discriminate.
  - exact (Hid _ _ H).
Qed.

Lemma synthesize_scroll_nonempty_witness :
  [step_ROT90 2] <> []
  /\ exists prog move, In move _op_space /\ [step_ROT90 2] = prog ++ move.
Proof.
  apply (synthesize_scroll_nonempty task_unseeded 100 1 [step_ROT90 2]).
  - discriminate.
  - lia.
  - lia.
  - vm_compute. reflexivity.
Defined.

End PatcherNova.

(** * Geometry of the primitive operations *)

Module Geometry.

Lemma array_ext (a b : ndarray) :
  wf_array a -> wf_array b ->
  shape0 a = shape0 b -> shape1 a = shape1 b ->
  (forall i j, (i < shape0 a)%nat -> (j < shape1 a)%nat -> cell a i j = cell b i j) ->
  a = b.
Proof.
  destruct a as [ha wa ra], b as [hb wb rb]. unfold wf_array, cell; simpl.
  intros [Hla Hwa] [Hlb Hwb] -> -> Hc. f_equal.
  rewrite Forall_forall in Hwa, Hwb.
  apply (nth_ext ra rb [] []); [congruence|].
  intros i Hi.
  assert (Hia : In (nth i ra []) ra) by (apply nth_In; exact Hi).
  assert (Hib : In (nth i rb []) rb) by (apply nth_In; lia).
  apply (nth_ext _ _ 0 0); [rewrite (Hwa _ Hia), (Hwb _ Hib); reflexivity|].
  intros j Hj. apply Hc; [lia|]. now rewrite <- (Hwa _ Hia).
Qed.

Lemma row_length (a : ndarray) (i : nat) :
  wf_array a -> (i < shape0 a)%nat -> length (nth i (rows a) []) = shape1 a.
Proof.
  intros [Hl Hw] Hi. rewrite Forall_forall in Hw. apply Hw, nth_In. lia.
Qed.

(** *** Flips *)

Lemma np_flip_wf (a : ndarray) (axis : Z) : wf_array a -> wf_array (np_flip a axis).
Proof.
  intros [Hl Hw]. unfold np_flip, wf_array.
  destruct (axis =? 0); simpl.
  - rewrite length_rev. split; [exact Hl|].
    apply Forall_forall; intros r Hr. apply in_rev in Hr.
    rewrite Forall_forall in Hw. now apply Hw.
  - rewrite length_map. split; [exact Hl|].
    apply Forall_forall; intros r Hr. apply in_map_iff in Hr.
    destruct Hr as (r0 & <- & Hr0). rewrite length_rev.
    rewrite Forall_forall in Hw. now apply Hw.
Qed.

Lemma np_flip_shape (a : ndarray) (axis : Z) :
  shape0 (np_flip a axis) = shape0 a /\ shape1 (np_flip a axis) = shape1 a.
Proof. unfold np_flip; destruct (axis =? 0); split; reflexivity. Qed.

Lemma cell_flip0 (a : ndarray) (i j : nat) :
  wf_array a -> (i < shape0 a)%nat ->
  cell (np_flip a 0) i j = cell a (shape0 a - 1 - i) j.
Proof.
  intros [Hl _] Hi. unfold cell, np_flip; simpl.
  rewrite rev_nth by lia. do 2 f_equal. lia.
Qed.

Lemma cell_flip1 (a : ndarray) (i j : nat) :
  wf_array a -> (i < shape0 a)%nat -> (j < shape1 a)%nat ->
  cell (np_flip a 1) i j = cell a i (shape1 a - 1 - j).
Proof.
  intros Hwf Hi Hj. unfold cell, np_flip; simpl.
  change (@nil Z) with (rev (@nil Z)) at 1. rewrite map_nth.
  pose proof (row_length a i Hwf Hi) as Hr.
  rewrite rev_nth by lia. f_equal. lia.
Qed.

(** *** Transposition *)

Lemma np_transpose_wf (a : ndarray) : wf_array a -> wf_array (np_transpose a).
Proof.
  intros [Hl _]. unfold np_transpose, wf_array; simpl.
  rewrite length_map, length_seq. split; [reflexivity|].
  apply Forall_forall; intros r Hr. apply in_map_iff in Hr.
  destruct Hr as (j & <- & _). unfold column. now rewrite length_map.
Qed.

Lemma cell_transpose (a : ndarray) (i j : nat) :
  (i < shape1 a)%nat -> cell (np_transpose a) i j = cell a j i.
Proof.
  intros Hi. unfold cell, np_transpose; simpl.
  rewrite (nth_indep _ [] (column (rows a) 0))
    by (rewrite length_map, length_seq; exact Hi).
  rewrite (map_nth (column (rows a)) (seq 0 (shape1 a)) 0%nat i).
  rewrite seq_nth by exact Hi. simpl. unfold column.
  pose proof (map_nth (fun r : list Z => nth i r 0) (rows a) [] j) as E.
  cbv beta in E. rewrite <- E. now destruct i.
Qed.

Lemma shape0_transpose (a : ndarray) : shape0 (np_transpose a) = shape1 a.
Proof. reflexivity. Qed.

Lemma shape1_transpose (a : ndarray) : shape1 (np_transpose a) = shape0 a.
Proof. reflexivity. Qed.

Lemma shape0_flip (a : ndarray) (axis : Z) : shape0 (np_flip a axis) = shape0 a.
Proof. apply np_flip_shape. Qed.

Lemma shape1_flip (a : ndarray) (axis : Z) : shape1 (np_flip a axis) = shape1 a.
Proof. apply np_flip_shape. Qed.

Ltac shapes :=
  repeat rewrite ?shape0_transpose, ?shape1_transpose, ?shape0_flip, ?shape1_flip.

Ltac wf_tac :=
  repeat first [assumption | apply np_transpose_wf | apply np_flip_wf].

Ltac side := first [solve [wf_tac] | solve [shapes; lia]].

Ltac cells :=
  repeat first [ rewrite cell_transpose by side
               | rewrite cell_flip1 by side
               | rewrite cell_flip0 by side ];
  shapes.

(** *** Quarter turns *)

Lemma rot90_0 (a : ndarray) : np_rot90 a 0 = a.
Proof. reflexivity. Qed.

Lemma rot90_1 (a : ndarray) : np_rot90 a 1 = np_transpose (np_flip a 1).
Proof. reflexivity. Qed.

Lemma rot90_2 (a : ndarray) : np_rot90 a 2 = np_flip (np_flip a 0) 1.
Proof. reflexivity. Qed.

Lemma rot90_3 (a : ndarray) : np_rot90 a 3 = np_flip (np_transpose a) 1.
Proof. reflexivity. Qed.

Lemma rot90_mod (a : ndarray) (k : Z) : np_rot90 a k = np_rot90 a (k mod 4).
Proof. unfold np_rot90. now rewrite Z.mod_mod. Qed.

Lemma rot90_wf (a : ndarray) (k : Z) : wf_array a -> wf_array (np_rot90 a k).
Proof.
  intros Hwf. unfold np_rot90.
  destruct (k mod 4 =? 0); [assumption|].
  destruct (k mod 4 =? 2); [wf_tac|].
  destruct (k mod 4 =? 1); wf_tac.
Qed.

Lemma rot1_rot1 (a : ndarray) : wf_array a -> np_rot90 (np_rot90 a 1) 1 = np_rot90 a 2.
Proof.
  intros Hwf. rewrite !rot90_1, rot90_2.
  apply array_ext; [wf_tac|wf_tac|reflexivity|reflexivity|].
  shapes. intros i j Hi Hj. cells. f_equal; lia.
Qed.

Lemma rot1_rot2 (a : ndarray) : wf_array a -> np_rot90 (np_rot90 a 2) 1 = np_rot90 a 3.
Proof.
  intros Hwf. rewrite rot90_1, rot90_2, rot90_3.
  apply array_ext; [wf_tac|wf_tac|reflexivity|reflexivity|].
  shapes. intros i j Hi Hj. cells. f_equal; lia.
Qed.

Lemma rot1_rot3 (a : ndarray) : wf_array a -> np_rot90 (np_rot90 a 3) 1 = a.
Proof.
  intros Hwf. rewrite rot90_1, rot90_3.
  apply array_ext; [wf_tac|wf_tac|reflexivity|reflexivity|].
  shapes. intros i j Hi Hj. cells. f_equal; lia.
Qed.

Lemma turn_wf (n : nat) (a : ndarray) : wf_array a -> wf_array (turn n a).
Proof.
  intros Hwf. unfold turn. induction n as [|n IH]; simpl; [assumption|].
  now apply rot90_wf.
Qed.

Lemma turn_4 (a : ndarray) : wf_array a -> turn 4 a = a.
Proof.
  intros Hwf. unfold turn; simpl.
  rewrite (rot1_rot1 a Hwf), (rot1_rot2 a Hwf). now apply rot1_rot3.
Qed.

Lemma turn_add (m n : nat) (a : ndarray) : turn (m + n) a = turn m (turn n a).
Proof. unfold turn. apply Nat.iter_add. Qed.

Lemma turn_mod (n : nat) (a : ndarray) : wf_array a -> turn n a = turn (n mod 4) a.
Proof.
  intros Hwf. rewrite (Nat.div_mod_eq n 4) at 1.
  generalize (n mod 4)%nat as r. generalize (n / 4)%nat as q.
  induction q as [|q IH]; intros r.
  - f_equal; lia.
  - replace (4 * S q + r)%nat with ((4 * q + r) + 4)%nat by lia.
    rewrite turn_add, (turn_4 a Hwf). apply IH.
Qed.

Lemma rot90_turn (a : ndarray) (k : Z) :
  wf_array a -> np_rot90 a k = turn (Z.to_nat (k mod 4)) a.
Proof.
  intros Hwf. rewrite rot90_mod.
  assert (Hk : 0 <= k mod 4 < 4) by (apply Z.mod_pos_bound; lia).
  assert (E : k mod 4 = 0 \/ k mod 4 = 1 \/ k mod 4 = 2 \/ k mod 4 = 3) by lia.
  destruct E as [E|[E|[E|E]]]; rewrite E; unfold turn; simpl.
  - reflexivity.
  - reflexivity.
  - now rewrite (rot1_rot1 a Hwf).
  - now rewrite (rot1_rot1 a Hwf), (rot1_rot2 a Hwf).
Qed.

(** *** Laws of the operations on grids *)

Lemma mod4_norm (k : Z) : (k mod 4 + 4) mod 4 = k mod 4.
Proof.
  pose proof (Z.mod_pos_bound k 4 ltac:(lia)) as Hk.
  replace (k mod 4 + 4) with (k mod 4 + 1 * 4) by lia.
  rewrite Z.mod_add by lia. apply Z.mod_small. exact Hk.
Qed.

Lemma op_ROT90_data (g : Grid) (k : Z) : data (op_ROT90 g k) = np_rot90 (data g) k.
Proof.
  unfold op_ROT90; cbn [data]. rewrite (rot90_mod (data g) k).
  rewrite (rot90_mod (data g) ((k mod 4 + 4) mod 4)), mod4_norm.
  rewrite Z.mod_mod by lia. reflexivity.
Qed.

Lemma to_nat_mod4_add (k1 k2 : Z) :
  Z.to_nat ((k1 + k2) mod 4) = ((Z.to_nat (k2 mod 4) + Z.to_nat (k1 mod 4)) mod 4)%nat.
Proof.
  rewrite Z.add_mod by lia.
  assert (H1 : 0 <= k1 mod 4 < 4) by (apply Z.mod_pos_bound; lia).
  assert (H2 : 0 <= k2 mod 4 < 4) by (apply Z.mod_pos_bound; lia).
  assert (E1 : k1 mod 4 = 0 \/ k1 mod 4 = 1 \/ k1 mod 4 = 2 \/ k1 mod 4 = 3) by lia.
  assert (E2 : k2 mod 4 = 0 \/ k2 mod 4 = 1 \/ k2 mod 4 = 2 \/ k2 mod 4 = 3) by lia.
  destruct E1 as [E1|[E1|[E1|E1]]]; destruct E2 as [E2|[E2|[E2|E2]]];
    rewrite E1, E2; reflexivity.
Qed.

Lemma np_rot90_compose (a : ndarray) (k1 k2 : Z) :
  wf_array a -> np_rot90 (np_rot90 a k1) k2 = np_rot90 a (k1 + k2).
Proof.
  intros Hwf.
  rewrite (rot90_turn a k1 Hwf), (rot90_turn a (k1 + k2) Hwf).
  rewrite rot90_turn by (now apply turn_wf).
  rewrite <- turn_add, (turn_mod _ a Hwf), to_nat_mod4_add. reflexivity.
Qed.

(** X1. Quarter turns add up: turning by [k1] and then by [k2] gives the
    cells of one turn by [k1 + k2], for all integers, negative ones too; in
    particular two turns whose sum is a multiple of four give the original
    cells back (four times ROT90(1) is the identity on the cells). *)
Theorem op_ROT90_compose (g : Grid) (k1 k2 : Z) :
  wf_array (data g) ->
  data (op_ROT90 (op_ROT90 g k1) k2) = data (op_ROT90 g (k1 + k2))
  /\ ((k1 + k2) mod 4 = 0 -> data (op_ROT90 (op_ROT90 g k1) k2) = data g)
  /\ data (op_ROT90 (op_ROT90 (op_ROT90 (op_ROT90 g 1) 1) 1) 1) = data g.
Proof.
  intros Hwf.
  assert (H1 : forall a k1 k2, wf_array a ->
            (k1 + k2) mod 4 = 0 -> np_rot90 (np_rot90 a k1) k2 = a).
  { intros a x y Ha E. rewrite (np_rot90_compose a x y Ha), rot90_mod, E.
    reflexivity. }
  rewrite !op_ROT90_data. split; [now apply np_rot90_compose|]. split.
  - now apply H1.
  - rewrite (np_rot90_compose (data g) 1 1 Hwf).
    rewrite (np_rot90_compose (data g) (1 + 1) 1 Hwf).
    now apply H1.
Qed.

Lemma op_ROT90_compose_witness :
  data (op_ROT90 (op_ROT90 g_2x3 (-1)) 6) = data (op_ROT90 g_2x3 (-1 + 6)).
Proof.
  apply (op_ROT90_compose g_2x3 (-1) 6).
  split; [reflexivity|repeat constructor].
Defined.

(** X2. ROT90 depends on [k] modulo four only, for the cells and for the
    log: the descriptor it appends names the remainder, a number in 0..3. *)
Theorem op_ROT90_periodic (g : Grid) (k n : Z) :
  op_ROT90 g (k + 4 * n) = op_ROT90 g k
  /\ op_ROT90 g k = op_ROT90 g (k mod 4)
  /\ log (op_ROT90 g k) = log g ++ [("ROT90(" ++ str_of_Z (k mod 4) ++ ")")%string]
  /\ 0 <= k mod 4 < 4.
Proof.
  assert (E : forall x, (x mod 4 + 4) mod 4 = x mod 4) by apply mod4_norm.
  unfold op_ROT90. rewrite !E.
  assert (E1 : (k + 4 * n) mod 4 = k mod 4)
    by (rewrite (Z.mul_comm 4 n); apply Z.mod_add; lia).
  rewrite E1, Z.mod_mod by lia.
  repeat split; try reflexivity; apply Z.mod_pos_bound; lia.
Qed.

Lemma np_flip_involutive (a : ndarray) (axis : Z) : np_flip (np_flip a axis) axis = a.
Proof.
  destruct a as [ha wa rs]. unfold np_flip. destruct (axis =? 0); simpl; f_equal.
  - apply rev_involutive.
  - rewrite map_map. rewrite <- (map_id rs) at 2. apply map_ext, rev_involutive.
Qed.

(** X3. FLIP is an involution: a flip succeeds exactly for the axes 0 and 1,
    keeps the shape, and flipping twice along the same axis gives the
    original cells back. *)
Theorem op_FLIP_involution (g : Grid) (axis : Z) :
  (returns (op_FLIP g axis) <-> axis = 0 \/ axis = 1)
  /\ forall g1, op_FLIP g axis = Ok g1 ->
       h g1 = h g /\ w g1 = w g
       /\ exists g2, op_FLIP g1 axis = Ok g2 /\ data g2 = data g.
Proof.
  unfold op_FLIP, returns. split.
  - split; intros H.
    + destruct H as [x Hx].
      destruct (Z.eqb_spec axis 0); [now left|].
      destruct (Z.eqb_spec axis 1); [now right|]. simpl in Hx; discriminate.
    + destruct H as [E|E]; rewrite E; simpl; eauto.
  - intros g1. destruct (negb _); [discriminate|]. intros [= <-]. unfold h, w.
    cbn [data]. rewrite shape0_flip, shape1_flip.
    split; [reflexivity|]. split; [reflexivity|].
    eexists; split; [reflexivity|]. cbn [data]. apply np_flip_involutive.
Qed.

Lemma op_FLIP_involution_witness :
  h (mk_Grid (np_flip (data g_2x3) 0) ["FLIP(0)"%string]) = h g_2x3.
Proof.
  apply (op_FLIP_involution g_2x3 0). reflexivity.
Defined.

Lemma np_transpose_involutive (a : ndarray) :
  wf_array a -> np_transpose (np_transpose a) = a.
Proof.
  intros Hwf. apply array_ext; [wf_tac|wf_tac|reflexivity|reflexivity|].
  shapes. intros i j Hi Hj. cells. reflexivity.
Qed.

(** X4. TRANSPOSE exchanges height and width, its cell (i, j) is the cell
    (j, i) of the input, and transposing twice gives the original array back,
    for every rectangular array, square or not. *)
Theorem op_TRANSPOSE_involution (g : Grid) :
  wf_array (data g) ->
  h (op_TRANSPOSE g) = w g /\ w (op_TRANSPOSE g) = h g
  /\ (forall i j, (i < w g)%nat -> cell (data (op_TRANSPOSE g)) i j = cell (data g) j i)
  /\ data (op_TRANSPOSE (op_TRANSPOSE g)) = data g.
Proof.
  intros Hwf. unfold h, w, op_TRANSPOSE; simpl. repeat split.
  - intros i j Hi. now apply cell_transpose.
  - now apply np_transpose_involutive.
Qed.

Lemma op_TRANSPOSE_involution_witness :
  data (op_TRANSPOSE (op_TRANSPOSE g_2x3)) = data g_2x3.
Proof.
  apply (op_TRANSPOSE_involution g_2x3).
  split; [reflexivity|repeat constructor].
Defined.

(** X5. Moves of the vocabulary coincide on the cells: ROT90(1) then FLIP(0)
    and ROT90(3) then FLIP(1) are both TRANSPOSE, ROT90(2) then FLIP(0) is
    FLIP(1), ROT90(2) then FLIP(1) is FLIP(0), and ROT90(1) then FLIP(1) is
    ROT90(3) then FLIP(0): the twelve moves give seven transformations. *)
Theorem move_coincidences (g : Grid) :
  wf_array (data g) ->
  effect [step_ROT90 1; step_FLIP 0] g = effect [step_TRANSPOSE] g
  /\ effect [step_ROT90 3; step_FLIP 1] g = effect [step_TRANSPOSE] g
  /\ effect [step_ROT90 2; step_FLIP 0] g = effect [step_FLIP 1] g
  /\ effect [step_ROT90 2; step_FLIP 1] g = effect [step_FLIP 0] g
  /\ effect [step_ROT90 1; step_FLIP 1] g = effect [step_ROT90 3; step_FLIP 0] g.
Proof.
  intros Hwf.
  change (effect [step_ROT90 1; step_FLIP 0] g)
    with (Some (np_flip (np_rot90 (data g) 1) 0)).
  change (effect [step_ROT90 3; step_FLIP 1] g)
    with (Some (np_flip (np_rot90 (data g) 3) 1)).
  change (effect [step_ROT90 2; step_FLIP 0] g)
    with (Some (np_flip (np_rot90 (data g) 2) 0)).
  change (effect [step_ROT90 2; step_FLIP 1] g)
    with (Some (np_flip (np_rot90 (data g) 2) 1)).
  change (effect [step_ROT90 1; step_FLIP 1] g)
    with (Some (np_flip (np_rot90 (data g) 1) 1)).
  change (effect [step_ROT90 3; step_FLIP 0] g)
    with (Some (np_flip (np_rot90 (data g) 3) 0)).
  change (effect [step_TRANSPOSE] g) with (Some (np_transpose (data g))).
  change (effect [step_FLIP 0] g) with (Some (np_flip (data g) 0)).
  change (effect [step_FLIP 1] g) with (Some (np_flip (data g) 1)).
  rewrite rot90_1, rot90_2, rot90_3.
  repeat split; f_equal.
  - apply array_ext; [wf_tac|wf_tac|reflexivity|reflexivity|].
    shapes. intros i j Hi Hj. cells. f_equal; lia.
  - apply np_flip_involutive.
  - apply array_ext; [wf_tac|wf_tac|reflexivity|reflexivity|].
    shapes. intros i j Hi Hj. cells. f_equal; lia.
  - apply np_flip_involutive.
  - apply array_ext; [wf_tac|wf_tac|reflexivity|reflexivity|].
    shapes. intros i j Hi Hj. cells. f_equal; lia.
Qed.

Lemma move_coincidences_witness :
  effect [step_ROT90 1; step_FLIP 0] g_2x3 = effect [step_TRANSPOSE] g_2x3.
Proof.
  apply (move_coincidences g_2x3). split; [reflexivity|repeat constructor].
Defined.

(** *** Shapes along a scroll *)

Lemma odd_mod4 (k : Z) : Z.odd k = Z.odd (k mod 4).
Proof.
  rewrite (Z.div_mod k 4) at 1 by lia.
  replace (4 * (k / 4) + k mod 4) with (k mod 4 + 2 * (2 * (k / 4))) by lia.
  apply Z.odd_add_mul_2.
Qed.

Lemma rot90_shape (a : ndarray) (k : Z) :
  shape0 (np_rot90 a k) = (if Z.odd k then shape1 a else shape0 a)
  /\ shape1 (np_rot90 a k) = (if Z.odd k then shape0 a else shape1 a).
Proof.
  rewrite odd_mod4. unfold np_rot90.
  assert (Hk : 0 <= k mod 4 < 4) by (apply Z.mod_pos_bound; lia).
  assert (E : k mod 4 = 0 \/ k mod 4 = 1 \/ k mod 4 = 2 \/ k mod 4 = 3) by lia.
  destruct E as [E|[E|[E|E]]]; rewrite E; split; reflexivity.
Qed.

Lemma is_op_exclusive (o : option pyval) (a b : string) :
  is_op o a = true -> a <> b -> is_op o b = false.
Proof.
  destruct o as [[z|s|d]|]; simpl; try discriminate.
  intros Ha Hne. apply String.eqb_eq in Ha. subst s.
  now apply String.eqb_neq.
Qed.

Lemma op_REMAP_wf (g g' : Grid) (m : list (Z * Z)) :
  wf_array (data g) -> op_REMAP g m = Ok g' ->
  wf_array (data g')
  /\ shape0 (data g') = shape0 (data g)
  /\ shape1 (data g') = shape1 (data g).
Proof.
  intros [Hl Hw] H. rewrite ScrollCore.op_REMAP_spec in H.
  destruct (values_fit m); [|discriminate]. injection H as <-. cbn [data].
  rewrite ScrollCore.fold_masked_assign. unfold wf_array; simpl.
  rewrite length_map. repeat split; try assumption.
  apply Forall_forall; intros r Hr. apply in_map_iff in Hr.
  destruct Hr as (r0 & <- & Hr0). rewrite length_map.
  rewrite Forall_forall in Hw. now apply Hw.
Qed.

Lemma apply_step_shape (g g' : Grid) (step : pydict) :
  wf_array (data g) -> apply_step g step = Ok g' ->
  wf_array (data g')
  /\ h g' = (if step_swaps step then w g else h g)
  /\ w g' = (if step_swaps step then h g else w g).
Proof.
  intros Hwf. unfold apply_step, step_swaps, h, w.
  destruct (is_op (dict_get step "op") "ROT90") eqn:Hrot.
  { intros H. apply ScrollCore.bind_ok in H. destruct H as (k & -> & [= <-]).
    rewrite op_ROT90_data. split; [now apply rot90_wf|apply rot90_shape]. }
  destruct (is_op (dict_get step "op") "FLIP") eqn:Hflip.
  { rewrite (is_op_exclusive _ _ "TRANSPOSE" Hflip) by discriminate.
    intros H. apply ScrollCore.bind_ok in H. destruct H as (a & _ & H).
    unfold op_FLIP in H. destruct (negb _); [discriminate|]. injection H as <-.
    cbn [data]. rewrite shape0_flip, shape1_flip.
    split; [now apply np_flip_wf|split; reflexivity]. }
  destruct (is_op (dict_get step "op") "TRANSPOSE") eqn:Htr.
  { intros [= <-]. cbn [data op_TRANSPOSE].
    split; [now apply np_transpose_wf|split; reflexivity]. }
  destruct (is_op (dict_get step "op") "REMAP"); [|discriminate].
  intros H. apply ScrollCore.bind_ok in H. destruct H as (m & _ & H).
  now apply (op_REMAP_wf g g' m).
Qed.

(** *** The range of the cells along a scroll *)

Lemma cells_fit_flatten (lst : list (list Z)) :
  cells_fit lst = true <-> (forall c, In c (concat lst) -> int64_ok c = true).
Proof.
  unfold cells_fit. rewrite forallb_forall. split.
  - intros H c Hc. apply in_concat in Hc. destruct Hc as (r & Hr & Hc).
    specialize (H r Hr). rewrite forallb_forall in H. now apply H.
  - intros H r Hr. apply forallb_forall. intros c Hc. apply H.
    apply in_concat. eauto.
Qed.

Lemma in_flatten_flip (a : ndarray) (axis c : Z) :
  In c (flatten (np_flip a axis)) -> In c (flatten a).
Proof.
  unfold flatten, np_flip. destruct (axis =? 0); cbn [rows]; rewrite !in_concat.
  - intros (r & Hr & Hc). exists r. split; [now apply in_rev|exact Hc].
  - intros (r & Hr & Hc). apply in_map_iff in Hr. destruct Hr as (r0 & <- & Hr0).
    exists r0. split; [exact Hr0|now apply in_rev].
Qed.

Lemma in_flatten_transpose (a : ndarray) (c : Z) :
  In c (flatten (np_transpose a)) -> In c (flatten a) \/ c = 0.
Proof.
  unfold flatten, np_transpose. cbn [rows]. rewrite !in_concat.
  intros (col & Hcol & Hc). apply in_map_iff in Hcol. destruct Hcol as (j & <- & _).
  unfold column in Hc. apply in_map_iff in Hc. destruct Hc as (r & <- & Hr).
  destruct (nth_in_or_default j r 0) as [Hin|E]; [left|now right].
  exists r. split; assumption.
Qed.

Lemma in_flatten_np_rot90 (a : ndarray) (k c : Z) :
  In c (flatten (np_rot90 a k)) -> In c (flatten a) \/ c = 0.
Proof.
  unfold np_rot90.
  destruct (k mod 4 =? 0); [now left|].
  destruct (k mod 4 =? 2).
  { intros H. left. now apply in_flatten_flip, in_flatten_flip in H. }
  destruct (k mod 4 =? 1).
  - intros H. apply in_flatten_transpose in H. destruct H as [H|H]; [|now right].
    left. now apply in_flatten_flip in H.
  - intros H. apply in_flatten_flip in H. now apply in_flatten_transpose.
Qed.

Lemma assign_cell_value (m : list (Z * Z)) (o c : Z) :
  assign_cell m o c = c \/ In (assign_cell m o c) (map snd m).
Proof.
  unfold assign_cell. revert c; induction m as [|[a b] m IH]; intros c; [now left|].
  cbn [fold_left fst snd map]. destruct (o =? a).
  - destruct (IH b) as [E|H]; [right; left; now rewrite E|right; now right].
  - destruct (IH c) as [E|H]; [now left|right; now right].
Qed.

Lemma apply_step_fit (g g' : Grid) (step : pydict) :
  cells_fit (rows (data g)) = true -> apply_step g step = Ok g' ->
  cells_fit (rows (data g')) = true.
Proof.
  rewrite !cells_fit_flatten. fold (flatten (data g)) (flatten (data g')).
  intros Hfit. unfold apply_step.
  destruct (is_op (dict_get step "op") "ROT90").
  { intros H. apply ScrollCore.bind_ok in H. destruct H as (k & _ & [= <-]).
    cbn [data op_ROT90]. intros c Hc. apply in_flatten_np_rot90 in Hc.
    destruct Hc as [Hc| ->]; [now apply Hfit|reflexivity]. }
  destruct (is_op (dict_get step "op") "FLIP").
  { intros H. apply ScrollCore.bind_ok in H. destruct H as (a & _ & H).
    unfold op_FLIP in H. destruct (negb _); [discriminate|]. injection H as <-.
    cbn [data]. intros c Hc. apply in_flatten_flip in Hc. now apply Hfit. }
  destruct (is_op (dict_get step "op") "TRANSPOSE").
  { intros [= <-]. cbn [data op_TRANSPOSE]. intros c Hc.
    apply in_flatten_transpose in Hc.
    destruct Hc as [Hc| ->]; [now apply Hfit|reflexivity]. }
  destruct (is_op (dict_get step "op") "REMAP"); [|discriminate].
  intros H. apply ScrollCore.bind_ok in H. destruct H as (m & _ & H).
  rewrite ScrollCore.op_REMAP_spec in H.
  destruct (values_fit m) eqn:Hm; [|discriminate]. injection H as <-.
  cbn [data]. rewrite ScrollCore.fold_masked_assign. unfold flatten; cbn [rows].
  intros c Hc. apply in_concat in Hc. destruct Hc as (r & Hr & Hc).
  apply in_map_iff in Hr. destruct Hr as (r0 & <- & Hr0).
  apply in_map_iff in Hc. destruct Hc as (o & <- & Ho).
  destruct (assign_cell_value m o o) as [E|Hin].
  - rewrite E. apply Hfit. unfold flatten. apply in_concat. eauto.
  - apply in_map_iff in Hin. destruct Hin as (ab & <- & Hab).
    unfold values_fit in Hm. rewrite forallb_forall in Hm. now apply Hm.
Qed.

Lemma apply_scroll_fit (scroll : list pydict) (g g' : Grid) :
  cells_fit (rows (data g)) = true -> apply_scroll scroll g = Ok g' ->
  cells_fit (rows (data g')) = true.
Proof.
  revert g; induction scroll as [|step rest IH]; intros g Hfit H; simpl in *.
  - now injection H as <-.
  - apply ScrollCore.bind_ok in H. destruct H as (g1 & H1 & H2).
    apply (IH g1); [|exact H2]. now apply (apply_step_fit g g1 step).
Qed.

Lemma apply_scroll_shape_gen (scroll : list pydict) (g g' : Grid) :
  wf_array (data g) -> apply_scroll scroll g = Ok g' ->
  wf_array (data g')
  /\ h g' = (if swapped scroll then w g else h g)
  /\ w g' = (if swapped scroll then h g else w g).
Proof.
  revert g; induction scroll as [|step rest IH]; intros g Hwf H; simpl in *.
  - injection H as <-. auto.
  - apply ScrollCore.bind_ok in H. destruct H as (g1 & H1 & H2).
    destruct (apply_step_shape g g1 step Hwf H1) as (Hwf1 & Hh1 & Hw1).
    destruct (IH g1 Hwf1 H2) as (Hwf' & Hh' & Hw').
    split; [exact Hwf'|]. rewrite Hh', Hw', Hh1, Hw1.
    destruct (step_swaps step), (swapped rest); split; reflexivity.
Qed.

(** X6. A scroll keeps grids rectangular: when it runs on a well-formed grid
    the result is well formed, and its height and width are those of the
    input, exchanged exactly when the scroll holds an odd number of steps
    that are a TRANSPOSE or a ROT90 with an odd [k]. *)
Theorem apply_scroll_shape (scroll : list pydict) (g g' : Grid) :
  wf_array (data g) -> apply_scroll scroll g = Ok g' ->
  wf_array (data g')
  /\ h g' = (if swapped scroll then w g else h g)
  /\ w g' = (if swapped scroll then h g else w g).
Proof. apply apply_scroll_shape_gen. Qed.

Lemma apply_scroll_shape_witness :
  h (mk_Grid (mk_ndarray 3 2 [[3; 6]; [2; 5]; [1; 4]]) ["ROT90(1)"%string])
  = (if swapped [step_ROT90 1] then w g_2x3 else h g_2x3).
Proof.
  apply (apply_scroll_shape [step_ROT90 1] g_2x3).
  - split; [reflexivity|repeat constructor].
  - reflexivity.
Defined.

End Geometry.

(** * Construction, composition and the runtime *)

Module Interface.

Lemma forallb_rectangular (r : list Z) (lst : list (list Z)) :
  forallb (fun r' => Nat.eqb (length r') (length r)) (r :: lst) = true
  <-> rectangular (r :: lst).
Proof.
  rewrite forallb_forall. unfold rectangular. split.
  - intros H r1 r2 H1 H2. apply H in H1, H2. apply Nat.eqb_eq in H1, H2. congruence.
  - intros H r' Hr'. apply Nat.eqb_eq. apply H; [exact Hr'|now left].
Qed.

Lemma int64_ok_spec (z : Z) : int64_ok z = true <-> int64 z.
Proof. unfold int64_ok, int64. rewrite andb_true_iff, Z.leb_le, Z.ltb_lt. tauto. Qed.

Lemma cells_fit_spec (lst : list (list Z)) :
  cells_fit lst = true <-> (forall r c, In r lst -> In c r -> int64 c).
Proof.
  unfold cells_fit. rewrite forallb_forall. split.
  - intros H r c Hr Hc. specialize (H r Hr). rewrite forallb_forall in H.
    now apply int64_ok_spec, H.
  - intros H r Hr. apply forallb_forall. intros c Hc.
    apply int64_ok_spec. now apply (H r).
Qed.

Lemma cells_fit_false (lst : list (list Z)) :
  cells_fit lst = false <-> exists r c, In r lst /\ In c r /\ ~ int64 c.
Proof.
  split.
  - unfold cells_fit. induction lst as [|r lst IH]; [discriminate|].
    cbn [forallb]. destruct (forallb int64_ok r) eqn:Er.
    + intros H. destruct (IH H) as (r' & c & Hr' & Hc & Hn).
      exists r', c. split; [now right|auto].
    + intros _. clear IH. induction r as [|c r IHr]; [discriminate|].
      cbn [forallb] in Er. destruct (int64_ok c) eqn:Ec.
      * destruct (IHr Er) as (r' & c' & [<-|Hr'] & Hc & Hn).
        -- exists (c :: r), c'. split; [now left|]. split; [now right|exact Hn].
        -- exists r', c'. split; [now right|auto].
      * exists (c :: r), c. split; [now left|]. split; [now left|].
        intros H. apply int64_ok_spec in H. congruence.
  - intros (r & c & Hr & Hc & Hn). destruct (cells_fit lst) eqn:E; [|reflexivity].
    exfalso. apply Hn. now apply (proj1 (cells_fit_spec lst) E r c).
Qed.

Lemma from_list_ok (lst : list (list Z)) (g : Grid) :
  from_list lst = Ok g ->
  to_list g = lst /\ log g = [] /\ wf_array (data g)
  /\ h g = length lst /\ h g <> O
  /\ (forall r, In r lst -> length r = w g)
  /\ cells_fit lst = true.
Proof.
  unfold from_list. intros H. apply ScrollCore.bind_ok in H.
  destruct H as (a & Ha & [= <-]). apply ScrollCore.np_array_inv in Ha.
  destruct Ha as (r & lst' & -> & Hrect & Hfit & ->).
  apply forallb_rectangular in Hrect.
  unfold to_list, h, w, wf_array; cbn [data log rows shape0 shape1].
  assert (Hr : forall r', In r' (r :: lst') -> length r' = length r).
  { intros r' Hr'. apply Hrect; [exact Hr'|now left]. }
  split; [reflexivity|]. split; [reflexivity|].
  split; [split; [reflexivity|apply Forall_forall, Hr]|].
  split; [reflexivity|]. split; [discriminate|]. split; [exact Hr|exact Hfit].
Qed.

(** X7. [from_list] accepts exactly the non-empty lists of rows of one
    length whose cells fit the signed 64-bit range: it raises on the empty
    list, on rows of different lengths and on a cell outside the range; the
    grid it builds has an empty log, as many rows as the list and the width
    of its rows, and [to_list] gives the list back. *)
Theorem from_list_spec (lst : list (list Z)) :
  (raises (from_list lst)
   <-> lst = [] \/ ~ rectangular lst
       \/ exists r c, In r lst /\ In c r /\ ~ int64 c)
  /\ from_list [] = Raise (ValueError "Input must be a 2D list")
  /\ forall g, from_list lst = Ok g ->
       to_list g = lst /\ log g = [] /\ wf_array (data g)
       /\ h g = length lst /\ h g <> O
       /\ (forall r, In r lst -> length r = w g)
       /\ (forall r c, In r lst -> In c r -> int64 c).
Proof.
  split; [|split; [reflexivity|]].
  - rewrite <- cells_fit_false. unfold from_list, np_array, raises, cells_fit.
    destruct lst as [|r lst].
    { cbn [bind]. split; [intros _; now left|intros _; eexists; reflexivity]. }
    pose proof (forallb_rectangular r lst) as Hrect.
    destruct (forallb (fun r' => Nat.eqb (length r') (length r)) (r :: lst)) eqn:E.
    + destruct (forallb (forallb int64_ok) (r :: lst)) eqn:Ef; cbn [bind].
      * split; [intros [e He]; discriminate|].
        intros [H|[H|H]]; [discriminate| |discriminate].
        exfalso. apply H, Hrect. reflexivity.
      * split; [intros _; right; now right|intros _; eexists; reflexivity].
    + cbn [bind]. split; [|intros _; eexists; reflexivity].
      intros _. right. left. intros H. apply Hrect in H. discriminate.
  - intros g Hg. destruct (from_list_ok lst g Hg) as (H1 & H2 & H3 & H4 & H5 & H6 & H7).
    do 6 (split; [assumption|]). now apply cells_fit_spec.
Qed.

Lemma from_list_spec_witness :
  to_list g_2x3 = [[1; 2; 3]; [4; 5; 6]] /\ log g_2x3 = [] /\ wf_array (data g_2x3)
  /\ h g_2x3 = length [[1; 2; 3]; [4; 5; 6]] /\ h g_2x3 <> O
  /\ (forall r, In r [[1; 2; 3]; [4; 5; 6]] -> length r = w g_2x3)
  /\ (forall r c, In r [[1; 2; 3]; [4; 5; 6]] -> In c r -> int64 c).
Proof.
  apply (from_list_spec [[1; 2; 3]; [4; 5; 6]]). reflexivity.
Defined.

Lemma apply_scroll_cat (s1 s2 : list pydict) (g : Grid) :
  apply_scroll (s1 ++ s2) g = (g1 <- apply_scroll s1 g ;; apply_scroll s2 g1).
Proof.
  revert g; induction s1 as [|step s1 IH]; intros g; simpl; [reflexivity|].
  destruct (apply_step g step) as [g1|e]; simpl; [apply IH|reflexivity].
Qed.

(** X8. Scrolls compose: running the concatenation of two scrolls is running
    the first and then the second on its result, and an error of the first
    is the error of the whole. *)
Theorem apply_scroll_app (s1 s2 : list pydict) (g : Grid) :
  apply_scroll (s1 ++ s2) g = (g1 <- apply_scroll s1 g ;; apply_scroll s2 g1).
Proof. apply apply_scroll_cat. Qed.

Lemma grid_eta (g : Grid) : mk_Grid (data g) (log g) = g.
Proof. now destruct g. Qed.

Lemma apply_step_relog (step : pydict) (g : Grid) :
  apply_step g step = relog (log g) (apply_step (unlogged g) step).
Proof.
  unfold apply_step, unlogged.
  destruct (is_op (dict_get step "op") "ROT90").
  { destruct (get_int step "k" 1) as [k|e]; reflexivity. }
  destruct (is_op (dict_get step "op") "FLIP").
  { destruct (get_int step "axis" 1) as [a|e]; [|reflexivity]. cbn [bind].
    unfold op_FLIP. destruct (negb _); reflexivity. }
  destruct (is_op (dict_get step "op") "TRANSPOSE"); [reflexivity|].
  destruct (is_op (dict_get step "op") "REMAP"); [|reflexivity].
  destruct (get_mapping step) as [m|e]; [|reflexivity]. cbn [bind].
  rewrite !ScrollCore.op_REMAP_spec. destruct (values_fit m); reflexivity.
Qed.

Lemma apply_scroll_replay (scroll : list pydict) (g : Grid) :
  apply_scroll scroll g = relog (log g) (apply_scroll scroll (unlogged g)).
Proof.
  revert g; induction scroll as [|step rest IH]; intros g; simpl.
  - unfold relog, unlogged; simpl. now rewrite app_nil_r, grid_eta.
  - rewrite (apply_step_relog step g).
    destruct (apply_step (unlogged g) step) as [g1|e]; [|reflexivity].
    cbn [relog bind]. rewrite (IH g1), IH. unfold unlogged; cbn [data log].
    destruct (apply_scroll rest (mk_Grid (data g1) [])) as [g2|e]; [|reflexivity].
    cbn [relog data log]. now rewrite app_assoc.
Qed.

(** X9. The provenance log is write-only: what a scroll does to a grid is
    what it does to the same cells with an empty log, with the descriptors
    appended after the log the grid came with; neither the cells of the
    result nor an error depend on the log. *)
Theorem apply_scroll_relog (scroll : list pydict) (g : Grid) :
  apply_scroll scroll g = relog (log g) (apply_scroll scroll (unlogged g)).
Proof. apply apply_scroll_replay. Qed.

Lemma np_array_rows (a : ndarray) :
  wf_array a -> shape0 a <> O -> cells_fit (rows a) = true ->
  np_array (rows a) = Ok a.
Proof.
  destruct a as [ha wa rs]. unfold wf_array; simpl. intros [Hl Hw] Hh Hfit.
  destruct rs as [|r rs]; [simpl in Hl; congruence|].
  rewrite Forall_forall in Hw.
  assert (E : forallb (fun r' => Nat.eqb (length r') (length r)) (r :: rs) = true).
  { apply forallb_forall. intros r' Hr'. apply Nat.eqb_eq.
    rewrite (Hw r' Hr'), (Hw r (or_introl eq_refl)). reflexivity. }
  rewrite (ScrollCore.np_array_intro r rs E Hfit).
  f_equal. f_equal; [exact Hl|apply Hw; now left].
Qed.

(** X10. [run_scroll] returns its argument for the empty scroll, and on a
    grid whose rows hold at least one cell it composes like [apply_scroll]:
    running two scrolls in a row, through the nested list in between, is
    running their concatenation. *)
Theorem run_scroll_compose (s1 s2 : list pydict) (grid : list (list Z)) :
  (forall r, In r grid -> r <> []) ->
  run_scroll (s1 ++ s2) grid = (mid <- run_scroll s1 grid ;; run_scroll s2 mid)
  /\ (returns (from_list grid) -> run_scroll [] grid = Ok grid).
Proof.
  intros Hrows. unfold run_scroll.
  destruct (from_list grid) as [g|e] eqn:Eg; cbn [bind]; [|split; [reflexivity|]].
  2: { intros [x Hx]; discriminate. }
  destruct (from_list_ok grid g Eg) as (Hto & Hlog & Hwf & Hh & Hh0 & Hw & Hfit).
  split; [|intros _; simpl; now rewrite Hto].
  rewrite apply_scroll_cat.
  destruct (apply_scroll s1 g) as [g1|e] eqn:E1; cbn [bind]; [|reflexivity].
  destruct (Geometry.apply_scroll_shape_gen s1 g g1 Hwf E1) as (Hwf1 & Hh1 & Hw1).
  assert (Hfit1 : cells_fit (rows (data g1)) = true).
  { apply (Geometry.apply_scroll_fit s1 g g1); [|exact E1].
    unfold to_list in Hto. now rewrite Hto. }
  assert (Hw0 : w g <> O).
  { destruct grid as [|r rs]; [simpl in Hh; congruence|].
    rewrite <- (Hw r (or_introl eq_refl)). specialize (Hrows r (or_introl eq_refl)).
    destruct r; [congruence|discriminate]. }
  assert (Hne : shape0 (data g1) <> O).
  { unfold h, w in *. destruct (swapped s1); congruence. }
  unfold to_list at 2, from_list. rewrite (np_array_rows _ Hwf1 Hne Hfit1). cbn [bind].
  rewrite (apply_scroll_replay s2 g1). unfold unlogged.
  destruct (apply_scroll s2 (mk_Grid (data g1) [])) as [g2|e]; reflexivity.
Qed.

Lemma run_scroll_compose_witness :
  run_scroll ([step_ROT90 1] ++ [step_FLIP 0]) [[1; 2; 3]; [4; 5; 6]]
  = (mid <- run_scroll [step_ROT90 1] [[1; 2; 3]; [4; 5; 6]] ;;
     run_scroll [step_FLIP 0] mid).
Proof.
  apply (run_scroll_compose [step_ROT90 1] [step_FLIP 0] [[1; 2; 3]; [4; 5; 6]]).
  intros r [<-|[<-|[]]]; discriminate.
Defined.

(** *** Defaults and failures of a step *)

(** X21. An omitted parameter takes its default: a ROT90 step without [k]
    turns once, a FLIP step without [axis] mirrors along axis 1, and a REMAP
    step without [mapping] leaves every cell as it is. *)
Theorem apply_step_defaults (step : pydict) (g : Grid) :
  (is_op (dict_get step "op") "ROT90" = true -> dict_get step "k" = None ->
   apply_step g step = Ok (op_ROT90 g 1))
  /\ (is_op (dict_get step "op") "FLIP" = true -> dict_get step "axis" = None ->
      apply_step g step = op_FLIP g 1 /\ returns (apply_step g step))
  /\ (is_op (dict_get step "op") "REMAP" = true -> dict_get step "mapping" = None ->
      exists g', apply_step g step = Ok g' /\ data g' = data g
                 /\ log g' = log g ++ ["REMAP({})"%string]).
Proof.
  unfold apply_step, get_int, get_mapping. split; [|split].
  - intros -> ->. reflexivity.
  - intros H ->. rewrite (Geometry.is_op_exclusive _ _ "ROT90" H) by discriminate.
    rewrite H. split; [reflexivity|]. eexists; reflexivity.
  - intros H ->.
    rewrite (Geometry.is_op_exclusive _ _ "ROT90" H) by discriminate.
    rewrite (Geometry.is_op_exclusive _ _ "FLIP" H) by discriminate.
    rewrite (Geometry.is_op_exclusive _ _ "TRANSPOSE" H) by discriminate.
    rewrite H. eexists. split; [reflexivity|]. split; reflexivity.
Qed.

Lemma apply_step_defaults_witness :
  apply_step g_2x3 [("op"%string, PyStr "ROT90")] = Ok (op_ROT90 g_2x3 1).
Proof.
  apply (apply_step_defaults [("op"%string, PyStr "ROT90")] g_2x3); reflexivity.
Defined.

Lemma apply_step_indep (step : pydict) (g g' : Grid) :
  match apply_step g step with
  | Ok _ => returns (apply_step g' step)
  | Raise e => apply_step g' step = Raise e
  end.
Proof.
  unfold apply_step, returns.
  destruct (is_op (dict_get step "op") "ROT90").
  { destruct (get_int step "k" 1); cbn [bind]; eauto. }
  destruct (is_op (dict_get step "op") "FLIP").
  { destruct (get_int step "axis" 1) as [a|e]; cbn [bind]; [|reflexivity].
    unfold op_FLIP. destruct (negb _); eauto. }
  destruct (is_op (dict_get step "op") "TRANSPOSE"); [eauto|].
  destruct (is_op (dict_get step "op") "REMAP"); [|reflexivity].
  destruct (get_mapping step) as [m|e]; cbn [bind]; [|reflexivity].
  rewrite !ScrollCore.op_REMAP_spec. destruct (values_fit m); eauto.
Qed.

Lemma apply_scroll_indep (scroll : list pydict) (g g' : Grid) :
  match apply_scroll scroll g with
  | Ok _ => returns (apply_scroll scroll g')
  | Raise e => apply_scroll scroll g' = Raise e
  end.
Proof.
  revert g g'; induction scroll as [|step rest IH]; intros g g'; simpl.
  - eexists; reflexivity.
  - pose proof (apply_step_indep step g g') as Hs.
    destruct (apply_step g step) as [g1|e]; cbn [bind].
    + destruct Hs as [g1' ->]. cbn [bind]. apply IH.
    + rewrite Hs. reflexivity.
Qed.

Lemma apply_step_error (step : pydict) (g : Grid) (e : exn) :
  wt_step step = true -> apply_step g step = Raise e ->
  (known_op step = false
   /\ e = ValueError ("Unknown op: " ++ py_str (dict_get step "op")))
  \/ (bad_axis step = true /\ e = ValueError "axis must be 0 or 1")
  \/ (remap_overflows step = true
      /\ e = OverflowError "Python int too large to convert to C long").
Proof.
  intros Hwt. unfold apply_step, known_op, bad_axis, remap_overflows.
  destruct (is_op (dict_get step "op") "ROT90") eqn:Hrot.
  { destruct (ScrollCore.get_int_k_ok step Hwt) as [k ->]. discriminate. }
  destruct (is_op (dict_get step "op") "FLIP") eqn:Hflip.
  { unfold get_int. unfold wt_step in Hwt.
    destruct (dict_get step "axis") as [[a|s|d]|] eqn:Hax; cbn [py_int bind].
    - unfold op_FLIP. destruct (negb _) eqn:Ha; [|discriminate].
      intros [= <-]. right; left. split; reflexivity.
    - destruct (dict_get step "k") as [[?|?|?]|]; discriminate.
    - destruct (dict_get step "k") as [[?|?|?]|]; discriminate.
    - discriminate. }
  destruct (is_op (dict_get step "op") "TRANSPOSE"); [discriminate|].
  destruct (is_op (dict_get step "op") "REMAP").
  { destruct (ScrollCore.get_mapping_ok step Hwt) as [m ->]. cbn [bind].
    rewrite ScrollCore.op_REMAP_spec. destruct (values_fit m); [discriminate|].
    intros [= <-]. right; right. split; reflexivity. }
  intros [= <-]. left. split; reflexivity.
Qed.

(** X22. Whether a scroll runs depends on the scroll alone: if it raises on
    one grid it raises the same exception on every grid, so it scores 0 on
    every list of pairs; on well-typed steps the exception comes from one
    step of the scroll and is the [ValueError] that names its unknown
    operation, the [ValueError] of its bad FLIP axis, or the [OverflowError]
    of a REMAP value outside the 64-bit range. *)
Theorem apply_scroll_failure_uniform (scroll : list pydict) (g : Grid) (e : exn) :
  apply_scroll scroll g = Raise e ->
  (forall g', apply_scroll scroll g' = Raise e)
  /\ (forall xs ys, score_prog scroll xs ys == 0)%Q
  /\ (forallb wt_step scroll = true ->
      exists step, In step scroll
        /\ ((known_op step = false
             /\ e = ValueError ("Unknown op: " ++ py_str (dict_get step "op")))
            \/ (bad_axis step = true /\ e = ValueError "axis must be 0 or 1")
            \/ (remap_overflows step = true /\ exists msg, e = OverflowError msg))).
Proof.
  intros He.
  assert (Hall : forall g', apply_scroll scroll g' = Raise e).
  { intros g'. pose proof (apply_scroll_indep scroll g g') as H.
    now rewrite He in H. }
  split; [exact Hall|]. split.
  - intros xs ys. rewrite PatcherNova.score_prog_spec.
    destruct (combine xs ys) as [|xy pairs] eqn:E; [reflexivity|].
    assert (Hz : Forall (fun q => q == 0)%Q (map (pair_score scroll) (xy :: pairs))).
    { apply Forall_forall; intros q Hq. apply in_map_iff in Hq.
      destruct Hq as (p & <- & _). unfold pair_score. now rewrite Hall. }
    unfold np_mean.
    assert (Hs : (Qsum (map (pair_score scroll) (xy :: pairs)) == 0)%Q).
    { induction Hz as [|q l Hq _ IH]; simpl; [reflexivity|]. rewrite Hq, IH. ring. }
    rewrite Hs. pose proof (PatcherNova.length_pos_Q (map (pair_score scroll) (xy :: pairs))
                              ltac:(discriminate)).
    field. lra.
  - clear Hall. revert g He. induction scroll as [|step rest IH]; intros g He Hwt.
    + discriminate.
    + simpl in He, Hwt. apply andb_prop in Hwt. destruct Hwt as [Hs Hrest].
      destruct (apply_step g step) as [g1|e1] eqn:E1; cbn [bind] in He.
      * destruct (IH g1 He Hrest) as (st & Hin & H). exists st. split; [now right|exact H].
      * injection He as <-. exists step. split; [now left|].
        destruct (apply_step_error step g e1 Hs E1) as [H|[H|[H1 H2]]]; auto.
        right; right. split; [exact H1|]. eexists; exact H2.
Qed.

Lemma apply_scroll_failure_uniform_witness :
  apply_scroll [step_FLIP 2] g_2x3 = Raise (ValueError "axis must be 0 or 1")
  /\ apply_scroll [step_TRANSPOSE; [("op"%string, PyStr "SHEAR")]] g_2x3
     = Raise (ValueError "Unknown op: SHEAR").
Proof.
  split.
  - apply (apply_scroll_failure_uniform [step_FLIP 2] g_1). reflexivity.
  - apply (apply_scroll_failure_uniform
             [step_TRANSPOSE; [("op"%string, PyStr "SHEAR")]] g_1). reflexivity.
Defined.

End Interface.

(** * Palettes and scores *)

Module Scoring.

Import PatcherNova.

Lemma count_cons (x c : Z) (l : list Z) :
  count (x :: l) c = (if x =? c then 1 else 0) + count l c.
Proof.
  unfold count; simpl. destruct (Z.eq_dec x c) as [->|Hne].
  - rewrite Z.eqb_refl. lia.
  - apply Z.eqb_neq in Hne. rewrite Hne. lia.
Qed.

Lemma Zsum_indicator (x : Z) (vals : list Z) :
  NoDup vals -> In x vals -> Zsum (map (fun v => if x =? v then 1 else 0) vals) = 1.
Proof.
  induction 1 as [|v vals Hnin Hnd IH]; simpl; [contradiction|].
  intros [->|Hin].
  - rewrite Z.eqb_refl.
    assert (E : Zsum (map (fun v => if x =? v then 1 else 0) vals) = 0).
    { clear - Hnin. induction vals as [|u vals IH]; simpl; [reflexivity|].
      destruct (Z.eqb_spec x u) as [->|_]; [exfalso; apply Hnin; now left|].
      rewrite IH; [reflexivity|]. intros H; apply Hnin; now right. }
    lia.
  - destruct (Z.eqb_spec x v) as [->|_]; [contradiction|]. now rewrite IH.
Qed.

Lemma Zsum_add (f k : Z -> Z) (l : list Z) :
  Zsum (map (fun v => f v + k v) l) = Zsum (map f l) + Zsum (map k l).
Proof. induction l as [|v l IH]; simpl; lia. Qed.

Lemma Zsum_counts (l vals : list Z) :
  NoDup vals -> (forall x, In x l -> In x vals) ->
  Zsum (map (count l) vals) = Z.of_nat (length l).
Proof.
  intros Hnd. induction l as [|x l IH]; intros Hin.
  - clear. induction vals as [|v vals IHv]; simpl; [reflexivity|].
    simpl in IHv. rewrite IHv. reflexivity.
  - rewrite (map_ext _ (fun v => (if x =? v then 1 else 0) + count l v))
      by (intros v; apply count_cons).
    rewrite Zsum_add, Zsum_indicator; [|exact Hnd|apply Hin; now left].
    rewrite IH by (intros y Hy; apply Hin; now right).
    simpl length. lia.
Qed.

Lemma count_pos (l : list Z) (c : Z) : In c l <-> 0 < count l c.
Proof.
  unfold count. rewrite (count_occ_In Z.eq_dec). lia.
Qed.

Lemma pal_get_count (a : ndarray) (c : Z) :
  pal_get (palette a) c = count (flatten a) c.
Proof.
  unfold pal_get. rewrite palette_eq, assoc_map_count.
  destruct (memZ c (np_unique a)) eqn:E; [reflexivity|].
  destruct (Z_le_gt_dec (count (flatten a) c) 0) as [H|H].
  - pose proof (count_nonneg (flatten a) c). lia.
  - exfalso. assert (Hin : In c (flatten a)) by (apply count_pos; lia).
    apply np_unique_in, memZ_in in Hin. congruence.
Qed.

Lemma length_flatten (a : ndarray) :
  wf_array a -> length (flatten a) = (shape0 a * shape1 a)%nat.
Proof.
  destruct a as [ha wa rs]. unfold wf_array, flatten; simpl. intros [<- Hw].
  induction Hw as [|r rs Hr _ IH]; simpl; [reflexivity|].
  now rewrite length_app, IH, Hr.
Qed.

Lemma palette_keys (a : ndarray) : map fst (palette a) = np_unique a.
Proof. rewrite palette_eq, map_map; simpl. apply map_id. Qed.

(** X11. The palette of an array lists its distinct colours in increasing
    order, each with the number of cells that hold it; a colour that does not
    occur counts for 0, and the counts add up to the number of cells,
    height times width. *)
Theorem palette_counts (a : ndarray) :
  map fst (palette a) = np_unique a
  /\ Sorted Z.lt (map fst (palette a))
  /\ (forall c, In c (map fst (palette a)) <-> In c (flatten a))
  /\ (forall c, pal_get (palette a) c = count (flatten a) c)
  /\ Zsum (map snd (palette a)) = Z.of_nat (length (flatten a))
  /\ (wf_array a -> Zsum (map snd (palette a)) = Z.of_nat (shape0 a * shape1 a)).
Proof.
  pose proof (palette_keys a) as Hk.
  assert (Hs : Zsum (map snd (palette a)) = Z.of_nat (length (flatten a))).
  { rewrite palette_eq, map_map; simpl. apply Zsum_counts.
    - apply np_unique_NoDup.
    - intros x Hx. now apply np_unique_in. }
  rewrite Hk. repeat split.
  - apply np_unique_sorted.
  - apply np_unique_in.
  - apply np_unique_in.
  - apply pal_get_count.
  - exact Hs.
  - intros Hwf. now rewrite Hs, length_flatten.
Qed.

Lemma palette_counts_witness :
  Zsum (map snd (palette (data g_2x3)))
  = Z.of_nat (shape0 (data g_2x3) * shape1 (data g_2x3)).
Proof.
  apply (palette_counts (data g_2x3)). split; [reflexivity|repeat constructor].
Defined.

(** *** Palette similarity *)

Lemma set_union_in (l1 l2 : list Z) (c : Z) :
  In c (set_union l1 l2) <-> In c l1 \/ In c l2.
Proof.
  unfold set_union. rewrite in_app_iff, filter_In. split.
  - intros [H|[H _]]; auto.
  - intros [H|H]; [now left|].
    destruct (memZ c l1) eqn:E; [left; now apply memZ_in|right; now split].
Qed.

Lemma set_union_NoDup (l1 l2 : list Z) :
  NoDup l1 -> NoDup l2 -> NoDup (set_union l1 l2).
Proof.
  intros H1 H2. unfold set_union. apply NoDup_app; [exact H1|now apply NoDup_filter|].
  intros c Hc Hf. apply filter_In in Hf. destruct Hf as [_ Hf].
  apply memZ_in in Hc. now rewrite Hc in Hf.
Qed.

Lemma colours_in (a b : ndarray) (c : Z) :
  In c (colours a b) <-> In c (flatten a) \/ In c (flatten b).
Proof. unfold colours. now rewrite set_union_in, !np_unique_in. Qed.

Lemma colours_perm (a b : ndarray) : Permutation (colours a b) (colours b a).
Proof.
  apply NoDup_Permutation; try (apply set_union_NoDup; apply np_unique_NoDup).
  intros c. rewrite !colours_in. tauto.
Qed.

Lemma Zsum_perm (f : Z -> Z) (l l' : list Z) :
  Permutation l l' -> Zsum (map f l) = Zsum (map f l').
Proof. induction 1; simpl; lia. Qed.

Lemma palette_similarity_eq (a b : ndarray) :
  palette_similarity a b
  = match colours a b with
    | [] => 1%Q
    | _ => if 0 <? extent a b
           then (inject_Z (overlap a b) / inject_Z (extent a b))%Q else 1%Q
    end.
Proof.
  unfold palette_similarity, overlap, extent, colours.
  rewrite !palette_keys.
  destruct (set_union (np_unique a) (np_unique b)) as [|c cs]; [reflexivity|].
  rewrite (map_ext (fun c => Z.min (pal_get (palette a) c) (pal_get (palette b) c))
             (fun c => Z.min (count (flatten a) c) (count (flatten b) c)))
    by (intros x; now rewrite !pal_get_count).
  rewrite (map_ext (fun c => Z.max (pal_get (palette a) c) (pal_get (palette b) c))
             (fun c => Z.max (count (flatten a) c) (count (flatten b) c)))
    by (intros x; now rewrite !pal_get_count).
  reflexivity.
Qed.

Lemma overlap_le_extent (a b : ndarray) : 0 <= overlap a b <= extent a b.
Proof.
  unfold overlap, extent. split.
  - apply Zsum_nonneg. intros c.
    pose proof (count_nonneg (flatten a) c); pose proof (count_nonneg (flatten b) c); lia.
  - apply Zsum_le. intros c; lia.
Qed.

Lemma Zsum_pos (f : Z -> Z) (l : list Z) (c : Z) :
  (forall x, 0 <= f x) -> In c l -> f c <= Zsum (map f l).
Proof.
  intros Hf. induction l as [|x l IH]; simpl; [contradiction|].
  intros [->|Hin].
  - pose proof (Zsum_nonneg f l Hf). lia.
  - specialize (IH Hin). specialize (Hf x). lia.
Qed.

Lemma extent_pos (a b : ndarray) : colours a b <> [] -> 0 < extent a b.
Proof.
  intros Hne. destruct (colours a b) as [|c cs] eqn:E; [contradiction|].
  assert (Hc : In c (colours a b)) by (rewrite E; now left).
  pose proof (Zsum_pos (fun c => Z.max (count (flatten a) c) (count (flatten b) c))
                (colours a b) c) as H.
  unfold extent.
  assert (H0 : forall x, 0 <= Z.max (count (flatten a) x) (count (flatten b) x)).
  { intros x. pose proof (count_nonneg (flatten a) x). lia. }
  specialize (H H0 Hc). apply colours_in in Hc.
  rewrite !count_pos in Hc. cbv beta in H.
  pose proof (H0 c). lia.
Qed.

Lemma Zsum_gap_zero (f k : Z -> Z) (l : list Z) :
  (forall c, f c <= k c) -> Zsum (map f l) = Zsum (map k l) ->
  forall c, In c l -> f c = k c.
Proof.
  intros Hle. induction l as [|x l IH]; simpl; [contradiction|].
  intros E c [->|Hin].
  - pose proof (Zsum_le f k l Hle). specialize (Hle c). lia.
  - apply IH; [|exact Hin].
    pose proof (Zsum_le f k l Hle). specialize (Hle x). lia.
Qed.

Lemma ratio_one (num den : Z) :
  0 < den -> ((inject_Z num / inject_Z den == 1)%Q <-> num = den).
Proof.
  intros Hd. pose proof (inject_Z_pos den Hd) as Hq. split.
  - intros H. apply inject_Z_injective.
    assert (E : (inject_Z num == (inject_Z num / inject_Z den) * inject_Z den)%Q)
      by (field; lra).
    rewrite E, H. ring.
  - intros ->. field. lra.
Qed.

Lemma same_palette_colours (a b : ndarray) (c : Z) :
  same_palette a b -> (In c (flatten a) <-> In c (flatten b)).
Proof. intros H. now rewrite !count_pos, (H c). Qed.

Lemma similarity_one (a b : ndarray) :
  (palette_similarity a b == 1)%Q <-> same_palette a b.
Proof.
  rewrite palette_similarity_eq.
  destruct (colours a b) as [|c0 cs] eqn:E.
  - split; [intros _|reflexivity].
    intros c. pose proof (colours_in a b c) as Hc. rewrite E in Hc.
    destruct (Z_le_gt_dec (count (flatten a) c) 0);
      destruct (Z_le_gt_dec (count (flatten b) c) 0).
    + pose proof (count_nonneg (flatten a) c);
        pose proof (count_nonneg (flatten b) c); lia.
    + exfalso. apply Hc. right. apply count_pos. lia.
    + exfalso. apply Hc. left. apply count_pos. lia.
    + exfalso. apply Hc. left. apply count_pos. lia.
  - assert (Hpos : 0 < extent a b) by (apply extent_pos; rewrite E; discriminate).
    destruct (Z.ltb_spec 0 (extent a b)) as [_|H]; [|lia].
    rewrite (ratio_one _ _ Hpos). unfold overlap, extent. split.
    + intros Heq c.
      destruct (in_dec Z.eq_dec c (colours a b)) as [Hin|Hnin].
      * pose proof (Zsum_gap_zero
                      (fun c => Z.min (count (flatten a) c) (count (flatten b) c))
                      (fun c => Z.max (count (flatten a) c) (count (flatten b) c))
                      (colours a b) ltac:(intros; cbv beta; lia) Heq c Hin) as H.
        cbv beta in H. lia.
      * rewrite colours_in, !count_pos in Hnin.
        pose proof (count_nonneg (flatten a) c);
          pose proof (count_nonneg (flatten b) c); lia.
    + intros Hs. f_equal. apply map_ext. intros c. rewrite (Hs c). lia.
Qed.

(** X12. Palette similarity is symmetric, lies in [0, 1], is 1 exactly when
    the two arrays hold every colour equally often, that is when the cells of
    one are a rearrangement of the cells of the other, and is 0 when the
    arrays share no colour and one of them has a cell. *)
Theorem palette_similarity_spec (a b : ndarray) :
  palette_similarity a b = palette_similarity b a
  /\ (0 <= palette_similarity a b <= 1)%Q
  /\ ((palette_similarity a b == 1)%Q <-> Permutation (flatten a) (flatten b))
  /\ ((forall c, In c (flatten a) -> ~ In c (flatten b)) ->
      flatten a <> [] \/ flatten b <> [] ->
      (palette_similarity a b == 0)%Q).
Proof.
  split; [|split; [apply palette_similarity_bounds|split]].
  - rewrite !palette_similarity_eq.
    pose proof (colours_perm a b) as Hp.
    assert (Ho : overlap a b = overlap b a).
    { unfold overlap. rewrite (Zsum_perm _ _ _ Hp). f_equal.
      apply map_ext; intros c; lia. }
    assert (He : extent a b = extent b a).
    { unfold extent. rewrite (Zsum_perm _ _ _ Hp). f_equal.
      apply map_ext; intros c; lia. }
    rewrite Ho, He.
    destruct (colours a b) as [|c cs]; destruct (colours b a) as [|c' cs'];
      try reflexivity.
    + apply Permutation_nil in Hp. discriminate.
    + symmetry in Hp. apply Permutation_nil in Hp. discriminate.
  - rewrite similarity_one. unfold same_palette, count.
    rewrite (Permutation_count_occ Z.eq_dec). split; intros H c.
    + apply Nat2Z.inj, H.
    + now rewrite H.
  - intros Hdisj Hne. rewrite palette_similarity_eq.
    destruct (colours a b) as [|c0 cs] eqn:E.
    + exfalso. destruct Hne as [Hne|Hne].
      * destruct (flatten a) as [|c l] eqn:Ea; [contradiction|].
        assert (Hc : In c (colours a b)) by (apply colours_in; rewrite Ea; left; now left).
        now rewrite E in Hc.
      * destruct (flatten b) as [|c l] eqn:Eb; [contradiction|].
        assert (Hc : In c (colours a b)) by (apply colours_in; rewrite Eb; right; now left).
        now rewrite E in Hc.
    + assert (Hpos : 0 < extent a b) by (apply extent_pos; rewrite E; discriminate).
      destruct (Z.ltb_spec 0 (extent a b)) as [_|H]; [|lia].
      assert (H0 : overlap a b = 0).
      { unfold overlap.
        assert (Hz : forall l, Zsum (map (fun c => Z.min (count (flatten a) c)
                                                  (count (flatten b) c)) l) = 0).
        { induction l as [|c l IH]; simpl; [reflexivity|]. rewrite IH.
          destruct (in_dec Z.eq_dec c (flatten a)) as [Ha|Ha].
          - specialize (Hdisj c Ha). rewrite count_pos in Hdisj.
            pose proof (count_nonneg (flatten a) c);
              pose proof (count_nonneg (flatten b) c); lia.
          - rewrite count_pos in Ha.
            pose proof (count_nonneg (flatten a) c);
              pose proof (count_nonneg (flatten b) c); lia. }
        apply Hz. }
      rewrite H0. pose proof (inject_Z_pos _ Hpos). field. lra.
Qed.

Lemma palette_similarity_spec_witness :
  Qeq (palette_similarity (mk_ndarray 1 2 [[1; 1]]) (mk_ndarray 1 1 [[2]])) 0%Q.
Proof.
  apply (palette_similarity_spec (mk_ndarray 1 2 [[1; 1]]) (mk_ndarray 1 1 [[2]])).
  - intros c [<-|[<-|[]]] [H|[]]; discriminate.
  - left; discriminate.
Defined.

(** *** The inferred mapping *)

Lemma combine_fst_snd (l1 l2 : list Z) :
  length l1 = length l2 ->
  map fst (combine l1 l2) = l1 /\ map snd (combine l1 l2) = l2.
Proof.
  revert l2; induction l1 as [|a l1 IH]; intros [|b l2] H; simpl in *;
    try discriminate; [split; reflexivity|].
  destruct (IH l2 ltac:(lia)) as [-> ->]. split; reflexivity.
Qed.

Lemma combine_increasing (l1 l2 : list Z) :
  Sorted Z.lt l1 -> Sorted Z.lt l2 ->
  forall a b a' b', In (a, b) (combine l1 l2) -> In (a', b') (combine l1 l2) ->
                    a < a' -> b < b'.
Proof.
  intros H1 H2. apply Sorted_StronglySorted in H1; [|exact Z.lt_trans].
  apply Sorted_StronglySorted in H2; [|exact Z.lt_trans].
  revert l2 H2; induction H1 as [|u l1 Hs1 IH Hu]; intros l2 H2 a b a' b' Hab Hab';
    [contradiction|].
  destruct H2 as [|v l2 Hs2 Hv]; [contradiction|].
  rewrite Forall_forall in Hu, Hv. simpl in Hab, Hab'.
  destruct Hab as [[= <- <-]|Hab]; destruct Hab' as [[= <- <-]|Hab'].
  - lia.
  - intros _. apply Hv. eapply in_combine_r; exact Hab'.
  - intros Hlt. apply in_combine_l in Hab. specialize (Hu _ Hab). lia.
  - now apply (IH l2 Hs2 a b a' b').
Qed.

(** X13. [_infer_remap] gives no mapping exactly when the two arrays have
    different numbers of distinct colours; otherwise its keys are the
    distinct colours of the first array in increasing order, its values those
    of the second, and it is strictly increasing: the smallest colour is sent
    to the smallest, and so on. *)
Theorem infer_remap_spec (x y : ndarray) :
  (_infer_remap x y = None <-> length (np_unique x) <> length (np_unique y))
  /\ forall m, _infer_remap x y = Some m ->
       map fst m = np_unique x /\ map snd m = np_unique y
       /\ NoDup (map fst m)
       /\ forall a b a' b', In (a, b) m -> In (a', b') m -> a < a' -> b < b'.
Proof.
  unfold _infer_remap.
  rewrite (sorted_id _ (np_unique_sorted x)), (sorted_id _ (np_unique_sorted y)).
  destruct (Nat.eqb_spec (length (np_unique x)) (length (np_unique y))) as [E|E];
    cbn [negb].
  - destruct (combine_fst_snd _ _ E) as [Hf Hs].
    assert (Hnd : NoDup (map fst (combine (np_unique x) (np_unique y))))
      by (rewrite Hf; apply np_unique_NoDup).
    rewrite (dict_of_items_NoDup _ Hnd). split.
    + split; [discriminate|intros H; contradiction].
    + intros m [= <-]. repeat split; try assumption.
      apply combine_increasing; apply np_unique_sorted.
  - split; [split; auto|discriminate].
Qed.

Lemma infer_remap_spec_witness :
  map fst [(1, 4); (3, 7)] = np_unique (mk_ndarray 1 3 [[3; 1; 3]])
  /\ map snd [(1, 4); (3, 7)] = np_unique (mk_ndarray 1 2 [[7; 4]])
  /\ NoDup (map fst [(1, 4); (3, 7)])
  /\ forall a b a' b', In (a, b) [(1, 4); (3, 7)] -> In (a', b') [(1, 4); (3, 7)] ->
                       a < a' -> b < b'.
Proof.
  apply (infer_remap_spec (mk_ndarray 1 3 [[3; 1; 3]]) (mk_ndarray 1 2 [[7; 4]])).
  reflexivity.
Defined.

(** *** Exact evaluation *)

Lemma list_eqb_Z (l1 l2 : list Z) : list_eqb Z.eqb l1 l2 = true <-> l1 = l2.
Proof.
  apply (list_eqb_eq Z.eqb (fun _ => true)).
  - intros x y _. apply Z.eqb_eq.
  - now apply forallb_forall.
Qed.

Lemma cells_eqb_rows (a b : ndarray) : cells_eqb a b = true <-> rows a = rows b.
Proof.
  unfold cells_eqb. apply (list_eqb_eq (list_eqb Z.eqb) (fun _ => true)).
  - intros x y _. apply list_eqb_Z.
  - now apply forallb_forall.
Qed.

Lemma array_equal_eq (a b : ndarray) : array_equal a b = true <-> a = b.
Proof.
  unfold array_equal, shape_eqb.
  rewrite !andb_true_iff, !Nat.eqb_eq, cells_eqb_rows.
  destruct a, b; simpl. split; [intros [[-> ->] ->]; reflexivity|].
  intros [= -> -> ->]; auto.
Qed.

Lemma eval_loop_mismatch (scroll : list pydict) (pre post : list (Grid * Grid))
  (x y g : Grid) (i : Z) :
  Forall (exact_on scroll) pre ->
  apply_scroll scroll x = Ok g -> array_equal (data g) (data y) = false ->
  eval_loop scroll (pre ++ (x, y) :: post) i
  = Ok (false, ("mismatch on pair " ++ str_of_Z (i + Z.of_nat (length pre) + 1))%string).
Proof.
  intros Hpre Hg Hne. revert i.
  induction Hpre as [|[x0 y0] pre (g0 & Hg0 & He0) _ IH]; intros i.
  - cbn [app eval_loop length]. rewrite Hg. cbn [bind]. rewrite Hne.
    rewrite orb_true_r. now rewrite Z.add_0_r.
  - cbn [app eval_loop]. cbn [fst snd] in Hg0, He0. rewrite Hg0. cbn [bind].
    rewrite He0, (array_equal_shape _ _ He0). cbn [negb orb].
    rewrite IH.
    replace (i + 1 + Z.of_nat (length pre) + 1)
      with (i + Z.of_nat (length ((x0, y0) :: pre)) + 1);
      [reflexivity|simpl length; lia].
Qed.

Lemma eval_loop_raise (scroll : list pydict) (pre post : list (Grid * Grid))
  (x y : Grid) (e : exn) (i : Z) :
  Forall (exact_on scroll) pre -> apply_scroll scroll x = Raise e ->
  eval_loop scroll (pre ++ (x, y) :: post) i = Raise e.
Proof.
  intros Hpre He. revert i.
  induction Hpre as [|[x0 y0] pre (g0 & Hg0 & He0) _ IH]; intros i.
  - cbn [app eval_loop]. now rewrite He.
  - cbn [app eval_loop]. cbn [fst snd] in Hg0, He0. rewrite Hg0. cbn [bind].
    rewrite He0, (array_equal_shape _ _ He0). cbn [negb orb]. apply IH.
Qed.

Lemma exact_on_dec (scroll : list pydict) (xy : Grid * Grid) :
  {exact_on scroll xy} + {~ exact_on scroll xy}.
Proof.
  unfold exact_on. destruct (apply_scroll scroll (fst xy)) as [g|e].
  - destruct (array_equal (data g) (data (snd xy))) eqn:E.
    + left; eauto.
    + right; intros (g' & [= <-] & H); congruence.
  - right; intros (g' & H & _); discriminate.
Qed.

Lemma first_failure (scroll : list pydict) (pairs : list (Grid * Grid)) :
  Forall (exact_on scroll) pairs
  \/ exists pre xy post, pairs = pre ++ xy :: post
                         /\ Forall (exact_on scroll) pre /\ ~ exact_on scroll xy.
Proof.
  induction pairs as [|xy pairs IH]; [left; constructor|].
  destruct (exact_on_dec scroll xy) as [H|H].
  - destruct IH as [IH|(pre & p & post & -> & Hpre & Hp)].
    + left; now constructor.
    + right. exists (xy :: pre), p, post. repeat split; auto.
  - right. exists [], xy, pairs. repeat split; auto.
Qed.

(** X14. [eval_scroll] reports success exactly when the scroll reproduces
    every pair; otherwise it stops at the first pair that is not reproduced:
    it reports that pair's number, counted from 1, when the scroll runs on
    it, and lets the exception through when the scroll raises on it. *)
Theorem eval_scroll_spec (scroll : list pydict) (task : list train_pair)
  (xs ys : list Grid) :
  mapM (fun p => from_list (input p)) task = Ok xs ->
  mapM (fun p => from_list (output p)) task = Ok ys ->
  (eval_scroll scroll task = Ok (true, "exact match"%string)
   <-> Forall (exact_on scroll) (combine xs ys))
  /\ forall pre x y post,
       combine xs ys = pre ++ (x, y) :: post ->
       Forall (exact_on scroll) pre -> ~ exact_on scroll (x, y) ->
       match apply_scroll scroll x with
       | Ok _ =>
           eval_scroll scroll task
           = Ok (false, ("mismatch on pair "
                         ++ str_of_Z (Z.of_nat (length pre) + 1))%string)
       | Raise e => eval_scroll scroll task = Raise e
       end.
Proof.
  intros Hxs Hys. unfold eval_scroll. rewrite Hxs, Hys. cbn [bind].
  assert (Hsplit : forall pre x y post,
            combine xs ys = pre ++ (x, y) :: post ->
            Forall (exact_on scroll) pre -> ~ exact_on scroll (x, y) ->
            match apply_scroll scroll x with
            | Ok _ =>
                eval_loop scroll (combine xs ys) 0
                = Ok (false, ("mismatch on pair "
                              ++ str_of_Z (Z.of_nat (length pre) + 1))%string)
            | Raise e => eval_loop scroll (combine xs ys) 0 = Raise e
            end).
  { intros pre x y post -> Hpre Hxy.
    destruct (apply_scroll scroll x) as [g|e] eqn:Eg.
    - rewrite (eval_loop_mismatch scroll pre post x y g 0 Hpre Eg); [reflexivity|].
      destruct (array_equal (data g) (data y)) eqn:E; [|reflexivity].
      exfalso. apply Hxy. exists g. auto.
    - now apply eval_loop_raise. }
  split; [|exact Hsplit].
  split; [|apply eval_loop_exact].
  intros H. destruct (first_failure scroll (combine xs ys))
    as [Hall|(pre & [x y] & post & E & Hpre & Hxy)]; [exact Hall|].
  exfalso. specialize (Hsplit pre x y post E Hpre Hxy).
  destruct (apply_scroll scroll x); rewrite Hsplit in H; discriminate.
Qed.

Lemma eval_scroll_spec_witness :
  eval_scroll [step_ROT90 1] task_rot90 = Ok (true, "exact match"%string)
  <-> Forall (exact_on [step_ROT90 1])
        (combine [grid_of 2 2 [[1; 2]; [3; 4]]] [grid_of 2 2 [[2; 4]; [1; 3]]]).
Proof.
  apply (eval_scroll_spec [step_ROT90 1] task_rot90
           [grid_of 2 2 [[1; 2]; [3; 4]]] [grid_of 2 2 [[2; 4]; [1; 3]]]);
    reflexivity.
Defined.

(** *** When the score is 1 *)

Lemma shape_eqb_refl (a : ndarray) : shape_eqb a a = true.
Proof. unfold shape_eqb. now rewrite !Nat.eqb_refl. Qed.

Lemma pair_score_one (scroll : list pydict) (xy : Grid * Grid) :
  (pair_score scroll xy == 1)%Q <-> palette_match scroll xy.
Proof.
  unfold pair_score, palette_match, shape_similarity.
  destruct (apply_scroll scroll (fst xy)) as [g|e].
  - destruct (array_equal (data g) (data (snd xy))) eqn:E.
    + apply array_equal_eq in E. split; [intros _|reflexivity].
      exists g. rewrite <- E. split; [reflexivity|].
      split; [apply shape_eqb_refl|intros c; reflexivity].
    + pose proof (palette_similarity_bounds (data g) (data (snd xy))) as Hb.
      pose proof (similarity_one (data g) (data (snd xy))) as Hone.
      destruct (shape_eqb (data g) (data (snd xy))) eqn:S.
      * split.
        -- intros H. exists g. split; [reflexivity|]. split; [exact S|].
           apply Hone. lra.
        -- intros (g' & [= <-] & _ & Hs). apply Hone in Hs. lra.
      * split; [intros H; exfalso; lra|].
        intros (g' & [= <-] & Hs & _). congruence.
  - split; [intros H; exfalso; lra|intros (g' & H & _); discriminate].
Qed.

Lemma Qsum_all_one (l : list Q) :
  Forall (fun q => 0 <= q <= 1)%Q l ->
  (Qsum l == inject_Z (Z.of_nat (length l)))%Q -> Forall (fun q => q == 1)%Q l.
Proof.
  induction 1 as [|q l Hq Hl IH]; intros E; [constructor|].
  rewrite inject_length_succ in E. simpl Qsum in E.
  pose proof (Qsum_bounds l Hl) as Hb.
  constructor; [lra|]. apply IH. lra.
Qed.

Lemma np_mean_one (l : list Q) :
  l <> [] -> Forall (fun q => 0 <= q <= 1)%Q l ->
  ((np_mean l == 1)%Q <-> Forall (fun q => q == 1)%Q l).
Proof.
  intros Hne Hb. split; [|now apply np_mean_ones].
  intros H. apply (Qsum_all_one l Hb).
  pose proof (length_pos_Q l Hne) as Hp. unfold np_mean in H.
  assert (E : (Qsum l == Qsum l / inject_Z (Z.of_nat (length l))
                         * inject_Z (Z.of_nat (length l)))%Q) by (field; lra).
  rewrite E, H. ring.
Qed.

(** X15. The score is 1 exactly when there is a pair and on every pair the
    scroll runs and gives an array with the shape of the target and the same
    number of cells of every colour. An exact match is such a pair, but the
    cells need not be in place: a score of 1 does not certify the scroll. *)
Theorem score_prog_one_iff (scroll : list pydict) (xs ys : list Grid) :
  ((score_prog scroll xs ys == 1)%Q
   <-> combine xs ys <> [] /\ Forall (palette_match scroll) (combine xs ys))
  /\ (forall xy, exact_on scroll xy -> palette_match scroll xy)
  /\ (forall xy, palette_match scroll xy ->
        exists g, apply_scroll scroll (fst xy) = Ok g
                  /\ Permutation (flatten (data g)) (flatten (data (snd xy)))).
Proof.
  split; [|split].
  - rewrite score_prog_spec.
    destruct (combine xs ys) as [|xy pairs] eqn:E.
    + split; [intros H; exfalso; lra|intros [H _]; contradiction].
    + rewrite np_mean_one.
      * rewrite Forall_map. split.
        -- intros H. split; [discriminate|].
           eapply Forall_impl; [|exact H]. intros p. apply pair_score_one.
        -- intros [_ H]. eapply Forall_impl; [|exact H]. intros p. apply pair_score_one.
      * discriminate.
      * apply Forall_forall; intros q Hq. apply in_map_iff in Hq.
        destruct Hq as (p & <- & _). apply pair_score_bounds.
  - intros xy (g & Hg & He). apply array_equal_eq in He.
    exists g. rewrite <- He. split; [exact Hg|].
    split; [apply shape_eqb_refl|intros c; reflexivity].
  - intros xy (g & Hg & _ & Hs). exists g. split; [exact Hg|].
    apply (Permutation_count_occ Z.eq_dec). intros c.
    apply Nat2Z.inj. apply Hs.
Qed.

Lemma score_prog_one_iff_witness :
  exists g, apply_scroll [] (fst (grid_of 1 2 [[1; 2]], grid_of 1 2 [[2; 1]])) = Ok g
            /\ Permutation (flatten (data g))
                 (flatten (data (snd (grid_of 1 2 [[1; 2]], grid_of 1 2 [[2; 1]])))).
Proof.
  apply (score_prog_one_iff [] [grid_of 1 2 [[1; 2]]] [grid_of 1 2 [[2; 1]]]).
  exists (grid_of 1 2 [[1; 2]]). split; [reflexivity|]. split; [reflexivity|].
  intros c. change (count [1; 2] c = count [2; 1] c).
  rewrite !count_cons. lia.
Defined.

End Scoring.

(** * The beam *)

Module Beam.

Import PatcherNova.

(** *** Ordering of the pool *)

Lemma insert_desc_perm (c : candidate) (l : list candidate) :
  Permutation (insert_desc c l) (c :: l).
Proof.
  induction l as [|d l IH]; simpl; [reflexivity|].
  destruct (Qle_bool (snd d) (snd c)); [reflexivity|].
  rewrite IH. apply perm_swap.
Qed.

Lemma sort_desc_perm (l : list candidate) : Permutation (sort_desc l) l.
Proof.
  unfold sort_desc; induction l as [|c l IH]; simpl; [reflexivity|].
  rewrite insert_desc_perm. now constructor.
Qed.

Lemma insert_desc_sorted (c : candidate) (l : list candidate) :
  StronglySorted (fun a b => (snd b <= snd a)%Q) l ->
  StronglySorted (fun a b => (snd b <= snd a)%Q) (insert_desc c l).
Proof.
  induction 1 as [|d l Hs IH Hd]; simpl; [repeat constructor|].
  destruct (Qle_bool (snd d) (snd c)) eqn:E.
  - apply Qle_bool_iff in E. constructor; [now constructor|].
    constructor; [exact E|]. rewrite Forall_forall in *. intros x Hx.
    eapply Qle_trans; [apply Hd, Hx|exact E].
  - assert (Hlt : (snd c < snd d)%Q).
    { apply Qnot_le_lt. intros H. apply Qle_bool_iff in H. congruence. }
    constructor; [exact IH|]. apply Forall_forall. intros x Hx.
    apply insert_desc_in in Hx. destruct Hx as [->|Hx].
    + now apply Qlt_le_weak.
    + rewrite Forall_forall in Hd. now apply Hd.
Qed.

(** X16. The sort of the pool is a stable sort by decreasing score: it keeps
    the candidates, orders them best first, and its first element is the
    earliest candidate of the pool among those with the highest score, so
    the scroll returned is the first one scored among the best. *)
Theorem sort_desc_spec (l : list candidate) :
  Permutation (sort_desc l) l
  /\ StronglySorted (fun a b => (snd b <= snd a)%Q) (sort_desc l)
  /\ forall c rest, sort_desc l = c :: rest ->
       exists pre post, l = pre ++ c :: post
                        /\ (forall d, In d pre -> (snd d < snd c)%Q)
                        /\ (forall d, In d post -> (snd d <= snd c)%Q).
Proof.
  split; [apply sort_desc_perm|]. split.
  - unfold sort_desc. induction l as [|c l IH]; simpl; [constructor|].
    now apply insert_desc_sorted.
  - unfold sort_desc. induction l as [|x l IH]; simpl; [discriminate|].
    intros c rest. destruct (fold_right insert_desc [] l) as [|d r] eqn:E.
    + simpl. intros [= <- <-].
      assert (El : l = []).
      { destruct l as [|y l]; [reflexivity|]. exfalso.
        apply (sort_desc_nonempty (y :: l)); [discriminate|exact E]. }
      subst l. exists [], []. repeat split; intros d [].
    + destruct (IH d r eq_refl) as (pre & post & -> & Hpre & Hpost).
      simpl. destruct (Qle_bool (snd d) (snd x)) eqn:Ed.
      * apply Qle_bool_iff in Ed. intros [= <- <-].
        exists [], (pre ++ d :: post). repeat split; [intros y []|].
        intros y Hy. apply in_app_or in Hy. destruct Hy as [Hy|[<-|Hy]].
        -- eapply Qle_trans; [apply Qlt_le_weak, Hpre, Hy|exact Ed].
        -- exact Ed.
        -- eapply Qle_trans; [apply Hpost, Hy|exact Ed].
      * intros [= <- <-].
        assert (Hlt : (snd x < snd d)%Q).
        { apply Qnot_le_lt. intros H. apply Qle_bool_iff in H. congruence. }
        exists (x :: pre), post. repeat split; [|exact Hpost].
        intros y [<-|Hy]; [exact Hlt|now apply Hpre].
Qed.

Lemma sort_desc_spec_witness :
  exists pre post,
    [([step_FLIP 0], 1 # 2); ([step_ROT90 1], 1%Q); ([step_ROT90 2], 1%Q)]
    = pre ++ ([step_ROT90 1], 1%Q) :: post
    /\ (forall d, In d pre -> (snd d < snd ([step_ROT90 1], 1%Q))%Q)
    /\ (forall d, In d post -> (snd d <= snd ([step_ROT90 1], 1%Q))%Q).
Proof.
  apply (proj2 (proj2 (sort_desc_spec
           [([step_FLIP 0], 1 # 2); ([step_ROT90 1], 1%Q); ([step_ROT90 2], 1%Q)]))
           ([step_ROT90 1], 1%Q)
           [([step_ROT90 2], 1%Q); ([step_FLIP 0], 1 # 2)]).
  reflexivity.
Defined.

(** *** Truncation *)

Lemma slice_to_length {A : Type} (l : list A) (n : Z) :
  0 <= n -> (length (slice_to l n) <= Z.to_nat n)%nat.
Proof.
  intros Hn. unfold slice_to. destruct (Z.leb_spec 0 n); [|lia].
  rewrite length_firstn. lia.
Qed.

Lemma search_keeps_bound (xs ys : list Grid) (beam : Z) (op_lib : list (list pydict))
  (rounds : nat) :
  0 <= beam ->
  forall seen pool pool_f,
    (length pool <= Z.to_nat beam)%nat ->
    search xs ys rounds beam op_lib seen pool = Ok pool_f ->
    (length pool_f <= Z.to_nat beam)%nat.
Proof.
  intros Hb. induction rounds as [|n IH]; intros seen pool pool_f Hlen H.
  - injection H as <-. exact Hlen.
  - cbn [search] in H. apply ScrollCore.bind_ok in H. destruct H as (st & _ & H).
    eapply IH; [|exact H]. now apply slice_to_length.
Qed.

(** X17. After at least one round the beam holds at most [beam] candidates,
    whatever the size of the pool the search started from. *)
Theorem search_beam_bound (xs ys : list Grid) (beam : Z) (op_lib : list (list pydict))
  (rounds : nat) (seen : list scroll_key) (pool pool_f : list candidate) :
  0 <= beam -> rounds <> O ->
  search xs ys rounds beam op_lib seen pool = Ok pool_f ->
  (length pool_f <= Z.to_nat beam)%nat.
Proof.
  intros Hb Hr H. destruct rounds as [|n]; [contradiction|].
  cbn [search] in H. apply ScrollCore.bind_ok in H. destruct H as (st & _ & H).
  eapply search_keeps_bound; [exact Hb| |exact H]. now apply slice_to_length.
Qed.

Lemma search_beam_bound_witness :
  (length [([step_ROT90 1], 60 # 200); ([step_ROT90 2], 60 # 200)] <= Z.to_nat 2)%nat.
Proof.
  apply (search_beam_bound [g_1] [g_2] 2 _op_space 1 [] [([], 3 # 10)]).
  - lia.
  - discriminate.
  - vm_compute. reflexivity.
Defined.

(** *** Outcomes of the synthesis *)

Lemma search_simple (xs ys : list Grid) (beam : Z) (rounds : nat) :
  forall seen pool,
    (forall c, In c pool -> simple (fst c)) ->
    exists pool_f,
      search xs ys rounds beam _op_space seen pool = Ok pool_f
      /\ forall c, In c pool_f -> simple (fst c).
Proof.
  induction rounds as [|n IH]; intros seen pool Hs.
  - exists pool. split; [reflexivity|exact Hs].
  - cbn [search].
    destruct (expand_pool_expansion xs ys pool _op_space Hs
                (fun m H => proj1 (op_space_simple m H)) seen [])
      as (seen' & added & E & (_ & N & _)).
    rewrite E. cbn [bind fst snd app]. apply IH.
    intros c Hc. apply slice_to_incl in Hc.
    apply (proj1 (sort_desc_in c added)) in Hc.
    destruct (N c Hc) as (p & m & Hp & Hm & -> & _).
    apply simple_app; [|apply op_space_simple, Hm].
    apply in_map_iff in Hp. destruct Hp as (c0 & <- & Hc0). now apply Hs.
Qed.

Lemma mapM_length {A B : Type} (f : A -> result B) (l : list A) (bs : list B) :
  mapM f l = Ok bs -> length bs = length l.
Proof.
  intros H. apply mapM_Forall2 in H. induction H; simpl; congruence.
Qed.

Lemma seeded_remap_shape (xs ys : list Grid) (rm : list pydict) :
  seeded_remap xs ys = Some rm -> exists m, rm = [step_REMAP m].
Proof.
  unfold seeded_remap. destruct xs as [|x0 xs]; [discriminate|].
  destruct ys as [|y0 ys]; [discriminate|].
  destruct (_infer_remap (data x0) (data y0)) as [[|ab m]|]; try discriminate.
  intros [= <-]. eauto.
Qed.

(** X18. On a task of well-formed grids with at least one pair,
    [synthesize_scroll] raises exactly when a REMAP candidate is seeded and
    at least one round is run. So whenever it returns after a round, its
    result is made of the steps of the vocabulary only: ROT90 with k in
    1..3, FLIP with axis 0 or 1, TRANSPOSE, and never a REMAP. *)
Theorem synthesize_scroll_outcome (task : list train_pair) (beam depth : Z)
  (xs ys : list Grid) :
  mapM (fun p => from_list (input p)) task = Ok xs ->
  mapM (fun p => from_list (output p)) task = Ok ys ->
  task <> [] ->
  (raises (synthesize_scroll task beam depth)
   <-> seeded_remap xs ys <> None /\ 1 <= depth)
  /\ forall best, synthesize_scroll task beam depth = Ok best -> 1 <= depth ->
       simple best.
Proof.
  intros Hxs Hys Hne.
  assert (Hx : xs <> []).
  { apply mapM_length in Hxs. destruct xs; [|discriminate].
    destruct task; [contradiction|discriminate]. }
  assert (Hy : ys <> []).
  { apply mapM_length in Hys. destruct ys; [|discriminate].
    destruct task; [contradiction|discriminate]. }
  pose proof (synthesize_scroll_initial_pool task beam depth xs ys Hxs Hys Hx Hy) as E.
  assert (Hnone : seeded_remap xs ys = None ->
            exists best, synthesize_scroll task beam depth = Ok best /\ simple best).
  { intros Hs. rewrite Hs in E.
    destruct (search_simple xs ys beam (Z.to_nat depth) []
                [([], score_prog [] xs ys)]) as (pf & Ef & Hpf).
    { intros c [<-|[]]. constructor. }
    rewrite Ef in E. cbn [bind] in E.
    destruct (sort_desc pf) as [|c l] eqn:Es.
    - exists []. split; [exact E|constructor].
    - exists (fst c). split; [exact E|]. apply Hpf, sort_desc_in.
      rewrite Es; now left. }
  assert (Hzero : depth < 1 -> exists best, synthesize_scroll task beam depth = Ok best).
  { intros Hd. replace (Z.to_nat depth) with O in E by lia. cbn [search bind] in E.
    rewrite E. destruct (sort_desc _); eauto. }
  split; [split|].
  - intros [e He].
    destruct (seeded_remap xs ys) as [rm|] eqn:Hs.
    + split; [discriminate|].
      destruct (Z_lt_ge_dec depth 1) as [Hd|Hd]; [|lia].
      destruct (Hzero Hd) as (b & Hb). congruence.
    + destruct (Hnone eq_refl) as (b & Hb & _). congruence.
  - intros [Hs Hd]. eexists.
    apply (synthesize_scroll_seeded_raises task beam depth xs ys Hxs Hys Hs Hd).
  - intros best Hbest Hd.
    destruct (seeded_remap xs ys) as [rm|] eqn:Hs.
    + rewrite (synthesize_scroll_seeded_raises task beam depth xs ys Hxs Hys) in Hbest;
        [discriminate| |exact Hd]. rewrite Hs; discriminate.
    + destruct (Hnone eq_refl) as (b & Hb & Hsimple). congruence.
Qed.

Lemma synthesize_scroll_outcome_witness :
  simple [step_ROT90 2].
Proof.
  apply (synthesize_scroll_outcome task_unseeded 100 1
           [grid_of 1 2 [[1; 1]]] [grid_of 1 2 [[1; 2]]]
           eq_refl eq_refl ltac:(discriminate)).
  - vm_compute. reflexivity.
  - lia.
Defined.

(** X19. With no round to run (a depth of 0 or less) [synthesize_scroll]
    does not raise on a task of grids, whatever the beam width: it returns one
    of the candidates it starts from, the empty scroll or the seeded REMAP
    scroll, and the empty scroll when no REMAP is seeded.  Which of the two is
    returned when both are there is decided by their scores and is not stated
    here. *)
Theorem synthesize_scroll_no_round (task : list train_pair) (beam depth : Z)
  (xs ys : list Grid) :
  mapM (fun p => from_list (input p)) task = Ok xs ->
  mapM (fun p => from_list (output p)) task = Ok ys ->
  task <> [] -> depth <= 0 ->
  exists best,
    synthesize_scroll task beam depth = Ok best
    /\ (best = [] \/ seeded_remap xs ys = Some best)
    /\ (seeded_remap xs ys = None -> best = []).
Proof.
  intros Hxs Hys Hne Hd.
  assert (Hx : xs <> []).
  { apply mapM_length in Hxs. destruct xs; [|discriminate].
    destruct task; [contradiction|discriminate]. }
  assert (Hy : ys <> []).
  { apply mapM_length in Hys. destruct ys; [|discriminate].
    destruct task; [contradiction|discriminate]. }
  rewrite (synthesize_scroll_initial_pool task beam depth xs ys Hxs Hys Hx Hy).
  replace (Z.to_nat depth) with O by lia. cbn [search bind].
  destruct (seeded_remap xs ys) as [rm|].
  - unfold sort_desc. cbn [fold_right insert_desc snd].
    destruct (Qle_bool (score_prog rm xs ys) (score_prog [] xs ys)); cbn [fst].
    + exists []. split; [reflexivity|]. split; [now left|reflexivity].
    + exists rm. split; [reflexivity|]. split; [now right|discriminate].
  - exists []. split; [reflexivity|]. split; [now left|reflexivity].
Qed.

Lemma synthesize_scroll_no_round_witness :
  exists best,
    synthesize_scroll [mk_pair [[1; 2]] [[4; 7]]] 100 0 = Ok best
    /\ (best = []
        \/ seeded_remap [grid_of 1 2 [[1; 2]]] [grid_of 1 2 [[4; 7]]] = Some best)
    /\ (seeded_remap [grid_of 1 2 [[1; 2]]] [grid_of 1 2 [[4; 7]]] = None -> best = []).
Proof.
  apply (synthesize_scroll_no_round [mk_pair [[1; 2]] [[4; 7]]] 100 0).
  - reflexivity.
  - reflexivity.
  - discriminate.
  - lia.
Defined.

(** *** De-duplication *)

Section Dedup.

Variables xs ys : list Grid.

Lemma expand_prog_exact (prog : list pydict) (moves : list (list pydict)) :
  simple prog -> (forall m, In m moves -> simple m) ->
  forall seen next, NoDup seen ->
  exists added,
    expand_prog xs ys prog moves seen next
    = Ok (seen ++ map ckey added, next ++ added)
    /\ NoDup (seen ++ map ckey added)
    /\ forall c, In c added ->
         (exists m, In m moves /\ fst c = prog ++ m)
         /\ snd c = score_prog (fst c) xs ys.
Proof.
  intros Hp. induction moves as [|m moves IH]; intros Hm seen next Hnd.
  - exists []. simpl. rewrite !app_nil_r.
    split; [reflexivity|]. split; [exact Hnd|intros c []].
  - assert (Hs : simple (prog ++ m)) by (apply simple_app; auto; apply Hm; now left).
    assert (Hm' : forall m', In m' moves -> simple m') by (intros; apply Hm; now right).
    cbn [expand_prog].
    destruct (key_of_scroll_simple _ Hs) as [-> _]. cbn [bind].
    destruct (set_contains_simple seen _ Hs) as (dup & -> & Hdup). cbn [bind].
    destruct dup.
    + destruct (IH Hm' seen next Hnd) as (added & E & Hnd' & Hc).
      exists added. split; [exact E|]. split; [exact Hnd'|].
      intros c Hin. destruct (Hc c Hin) as [(m0 & H0 & H1) H2].
      split; [exists m0; split; [now right|exact H1]|exact H2].
    + assert (Hnew : ~ In (keyof (prog ++ m)) seen)
        by (intros H; apply Hdup in H; discriminate).
      assert (Hnd1 : NoDup (set_add seen (keyof (prog ++ m)))).
      { unfold set_add. apply NoDup_app; [exact Hnd|repeat constructor; intros []|].
        intros k Hk [<-|[]]. contradiction. }
      destruct (IH Hm' (set_add seen (keyof (prog ++ m)))
                  (next ++ [(prog ++ m, score_prog (prog ++ m) xs ys)]) Hnd1)
        as (added & E & Hnd' & Hc).
      exists ((prog ++ m, score_prog (prog ++ m) xs ys) :: added).
      unfold set_add in *. rewrite <- !app_assoc in E, Hnd'.
      rewrite <- (app_assoc next) in E.
      split; [exact E|]. split; [exact Hnd'|].
      intros c [<-|Hin].
      * split; [exists m; split; [now left|reflexivity]|reflexivity].
      * destruct (Hc c Hin) as [(m0 & H0 & H1) H2].
        split; [exists m0; split; [now right|exact H1]|exact H2].
Qed.

Lemma expand_pool_exact (pool : list candidate) (moves : list (list pydict)) :
  (forall c, In c pool -> simple (fst c)) -> (forall m, In m moves -> simple m) ->
  forall seen next, NoDup seen ->
  exists added,
    expand_pool xs ys pool moves seen next
    = Ok (seen ++ map ckey added, next ++ added)
    /\ NoDup (seen ++ map ckey added)
    /\ forall c, In c added ->
         (exists p m, In p (map fst pool) /\ In m moves /\ fst c = p ++ m)
         /\ snd c = score_prog (fst c) xs ys.
Proof.
  intros Hp Hm. induction pool as [|[prog sc] pool IH]; intros seen next Hnd.
  - exists []. simpl. rewrite !app_nil_r.
    split; [reflexivity|]. split; [exact Hnd|intros c []].
  - cbn [expand_pool].
    destruct (expand_prog_exact prog moves (Hp (prog, sc) (or_introl eq_refl))
                Hm seen next Hnd) as (a1 & E1 & Hnd1 & Hc1).
    rewrite E1. cbn [bind fst snd].
    destruct (IH (fun c H => Hp c (or_intror H)) (seen ++ map ckey a1) (next ++ a1) Hnd1)
      as (a2 & E2 & Hnd2 & Hc2).
    exists (a1 ++ a2). rewrite map_app.
    rewrite <- (app_assoc seen) in E2, Hnd2. rewrite <- (app_assoc next) in E2.
    split; [exact E2|]. split; [exact Hnd2|].
    intros c Hin. apply in_app_or in Hin. destruct Hin as [Hin|Hin].
    + destruct (Hc1 c Hin) as [(m & H0 & H1) H2].
      split; [exists prog, m; simpl; auto|exact H2].
    + destruct (Hc2 c Hin) as [(p & m & H0 & H1 & H3) H2].
      split; [exists p, m; simpl; auto|exact H2].
Qed.

Lemma NoDup_firstn {A : Type} (n : nat) (l : list A) : NoDup l -> NoDup (firstn n l).
Proof.
  intros H. rewrite <- (firstn_skipn n l) in H. now apply NoDup_app_remove_r in H.
Qed.

Lemma slice_to_map {A B : Type} (f : A -> B) (l : list A) (n : Z) :
  map f (slice_to l n) = slice_to (map f l) n.
Proof.
  unfold slice_to. rewrite length_map. destruct (0 <=? n); symmetry; apply firstn_map.
Qed.

Lemma slice_to_NoDup {A : Type} (l : list A) (n : Z) : NoDup l -> NoDup (slice_to l n).
Proof. unfold slice_to. destruct (0 <=? n); apply NoDup_firstn. Qed.

Lemma search_distinct (beam : Z) (n : nat) :
  forall seen pool pool_f,
    (forall c, In c pool -> simple (fst c)) -> NoDup seen ->
    search xs ys (S n) beam _op_space seen pool = Ok pool_f ->
    NoDup (map ckey pool_f)
    /\ (forall c, In c pool_f -> snd c = score_prog (fst c) xs ys)
    /\ (forall c, In c pool_f -> ~ In (ckey c) seen).
Proof.
  induction n as [|n IH]; intros seen pool pool_f Hs Hnd H.
  - cbn [search] in H.
    destruct (expand_pool_exact pool _op_space Hs
                (fun m Hm => proj1 (op_space_simple m Hm)) seen [] Hnd)
      as (added & E & Hnd' & Hc).
    rewrite E in H. cbn [bind fst snd app] in H. injection H as <-.
    assert (Hin : forall c, In c (slice_to (sort_desc added) beam) -> In c added).
    { intros c Hc'. apply slice_to_incl in Hc'.
      now apply (proj1 (sort_desc_in c added)). }
    split; [|split].
    + rewrite slice_to_map. apply slice_to_NoDup.
      eapply Permutation_NoDup;
        [symmetry; apply Permutation_map, sort_desc_perm|].
      now apply NoDup_app_remove_l in Hnd'.
    + intros c Hc'. apply Hc, Hin, Hc'.
    + intros c Hc' Hseen. apply Hin in Hc'.
      apply NoDup_app_remove_l in Hnd' as Hadd.
      assert (Hk : In (ckey c) (map ckey added)) by now apply in_map.
      clear - Hnd' Hseen Hk. induction seen as [|k seen IHs]; [contradiction|].
      simpl in Hnd'. inversion Hnd' as [|? ? Hnin Hnd'']; subst.
      destruct Hseen as [->|Hseen]; [apply Hnin, in_or_app; now right|].
      now apply IHs.
  - cbn [search] in H.
    destruct (expand_pool_exact pool _op_space Hs
                (fun m Hm => proj1 (op_space_simple m Hm)) seen [] Hnd)
      as (added & E & Hnd' & Hc).
    rewrite E in H. cbn [bind fst snd app] in H.
    assert (Hs' : forall c, In c (slice_to (sort_desc added) beam) -> simple (fst c)).
    { intros c Hc'. apply slice_to_incl in Hc'.
      apply (proj1 (sort_desc_in c added)) in Hc'.
      destruct (Hc c Hc') as [(p & m & Hp & Hm & ->) _].
      apply simple_app; [|apply op_space_simple, Hm].
      apply in_map_iff in Hp. destruct Hp as (c0 & <- & Hc0). now apply Hs. }
    change (search xs ys (S n) beam _op_space (seen ++ map ckey added)
              (slice_to (sort_desc added) beam) = Ok pool_f) in H.
    destruct (IH _ _ _ Hs' Hnd' H) as (H1 & H2 & H3).
    split; [exact H1|]. split; [exact H2|].
    intros c Hc' Hseen. apply (H3 c Hc'). apply in_or_app. now left.
Qed.

End Dedup.

Lemma keyof_injective_map (l : list (list pydict)) :
  NoDup (map keyof l) -> NoDup l.
Proof. apply NoDup_map_inv. Qed.

(** X20. No scroll is scored twice: after at least one round, run from a
    pool of scrolls made of vocabulary steps, the candidates of the beam are
    pairwise distinct scrolls with pairwise distinct keys, none of which was
    in the visited set before, and the score kept with each candidate is the
    score of its scroll on the training pairs. *)
Theorem search_no_duplicates (xs ys : list Grid) (beam : Z) (rounds : nat)
  (seen : list scroll_key) (pool pool_f : list candidate) :
  (forall c, In c pool -> simple (fst c)) -> NoDup seen -> rounds <> O ->
  search xs ys rounds beam _op_space seen pool = Ok pool_f ->
  NoDup (map fst pool_f)
  /\ NoDup (map ckey pool_f)
  /\ (forall c, In c pool_f -> snd c = score_prog (fst c) xs ys)
  /\ (forall c, In c pool_f -> ~ In (ckey c) seen).
Proof.
  intros Hs Hnd Hr H. destruct rounds as [|n]; [contradiction|].
  destruct (search_distinct xs ys beam n seen pool pool_f Hs Hnd H) as (H1 & H2 & H3).
  split; [|auto]. apply keyof_injective_map.
  unfold ckey in H1. now rewrite <- map_map in H1.
Qed.

Lemma search_no_duplicates_witness :
  NoDup (map fst [([step_ROT90 1], 60 # 200); ([step_ROT90 2], 60 # 200)]).
Proof.
  apply (search_no_duplicates [g_1] [g_2] 2 1 [] [([], 3 # 10)]).
  - intros c [<-|[]]. constructor.
  - constructor.
  - discriminate.
  - vm_compute. reflexivity.
Defined.

(** *** The key of a scroll *)

Lemma key_of_step_missing (step : pydict) :
  raises (key_of_step step) <-> dict_get step "op" = None.
Proof.
  unfold key_of_step, raises. destruct (dict_get step "op").
  - split; [intros [e H]; discriminate|discriminate].
  - split; [reflexivity|eauto].
Qed.

Lemma plain_step_key (step : pydict) (k : step_key) :
  plain_step step = true -> key_of_step step = Ok k -> hashable_step_key k = true.
Proof.
  unfold plain_step, key_of_step, hashable_step_key. rewrite forallb_forall. intros Hp.
  destruct (dict_get step "op") as [o|] eqn:E; [|discriminate]. intros [= <-].
  cbn [fst snd]. apply andb_true_iff. split.
  - clear - Hp E. induction step as [|[k' v'] step IH]; [discriminate|].
    simpl in E. destruct (String.eqb k' "op").
    + injection E as <-. apply (Hp (k', v')). now left.
    + apply IH; [|exact E]. intros it Hit. apply Hp. now right.
  - apply forallb_forall. intros it Hit. apply Hp.
    eapply Permutation_in; [apply PatcherNova.sorted_items_perm|exact Hit].
Qed.

Lemma plain_scroll_key (s : list pydict) (k : scroll_key) :
  forallb plain_step s = true -> key_of_scroll s = Ok k -> hashable_key k = true.
Proof.
  unfold key_of_scroll, hashable_key. intros Hp H. apply mapM_Forall2 in H.
  induction H as [|step sk s k Hstep _ IH]; [reflexivity|].
  cbn [forallb] in *. apply andb_prop in Hp. destruct Hp as [Hp1 Hp2].
  rewrite (plain_step_key step sk Hp1 Hstep). now apply IH.
Qed.

(** X23. The key of a scroll is built exactly when every step has an [op]
    entry (a step without one raises [KeyError]); it has one component per
    step.  For steps that are dicts, the first scroll holding no dict among
    the values of its steps (as every scroll built from the moves), its key
    can be hashed, and Python's [==] finds the keys of two scrolls equal
    exactly when they have the same steps in the same order, each with the
    same entries listed in any order. *)
Theorem key_of_scroll_spec (s1 s2 : list pydict) :
  (raises (key_of_scroll s1) <-> Exists (fun step => dict_get step "op" = None) s1)
  /\ (forall k1, key_of_scroll s1 = Ok k1 -> length k1 = length s1)
  /\ (forall k1 k2, Forall is_dict s1 -> Forall is_dict s2 ->
        forallb plain_step s1 = true ->
        key_of_scroll s1 = Ok k1 -> key_of_scroll s2 = Ok k2 ->
        hashable_key k1 = true
        /\ (key_eqb k1 k2 = true <-> Forall2 (@Permutation (string * pyval)) s1 s2)).
Proof.
  split; [|split].
  - unfold key_of_scroll. induction s1 as [|step rest IH]; simpl.
    + split; [intros [e H]; discriminate|intros H; inversion H].
    + pose proof (key_of_step_missing step) as Hm. unfold raises in *.
      destruct (key_of_step step) as [k|e]; cbn [bind].
      * destruct (mapM key_of_step rest) as [ks|e]; cbn [bind].
        -- split; [intros [e H]; discriminate|].
           intros H; inversion H as [? ? H0|? ? H0]; subst.
           ++ apply Hm in H0. destruct H0; discriminate.
           ++ apply IH in H0. destruct H0; discriminate.
        -- split; [intros _; constructor 2; apply IH; eauto|eauto].
      * split; [intros _; constructor; apply Hm; eauto|eauto].
  - intros k1 H. now apply (mapM_length key_of_step).
  - intros k1 k2 Hd1 Hd2 Hp H1 H2.
    pose proof (plain_scroll_key s1 k1 Hp H1) as Hh. split; [exact Hh|].
    rewrite (key_eqb_eq k1 k2 Hh).
    now apply key_of_scroll_canonical.
Qed.

Lemma key_of_scroll_spec_witness :
  hashable_key [skey (step_ROT90 1)] = true
  /\ (key_eqb [skey (step_ROT90 1)]
              [skey [("k"%string, PyInt 1); ("op"%string, PyStr "ROT90")]] = true
      <-> Forall2 (@Permutation (string * pyval)) [step_ROT90 1]
            [[("k"%string, PyInt 1); ("op"%string, PyStr "ROT90")]]).
Proof.
  apply (proj2 (proj2 (key_of_scroll_spec [step_ROT90 1]
                         [[("k"%string, PyInt 1); ("op"%string, PyStr "ROT90")]]))).
  - repeat constructor; simpl; intuition discriminate.
  - repeat constructor; simpl; intuition discriminate.
  - reflexivity.
  - reflexivity.
  - reflexivity.
Defined.

End Beam.
